(** * Preemption victim selection of the scheduler (pkg/scheduler/objects/preemption.go)

    A shallow embedding of the Preemptor and of the queue preemption
    snapshots, followed by the properties of the specification.

    Snapshots are Go objects reached through pointers: the same parent
    snapshot is shared by all its children, and a duplicated tree lives next
    to the tree it was copied from. They are kept in a heap, a list indexed
    by address; a pointer is an [option loc], [None] being nil. Go maps with
    string keys are [gmap string _]. *)

From stdpp Require Import gmap strings list fin_maps.
From Stdlib Require Import ZArith Lia.
From Stdlib Require OrderedTypeEx.

Open Scope Z_scope.

(** ** Resource vectors *)

Module resources.

(** Modelled from the spec: the package pkg/common/resources (type Resource,
    a map from resource name to a signed quantity, and its operations) is not
    among the sources. Section 3 of the specification gives the data: a
    mapping from string resource name to signed integer quantity. A nil
    *Resource is [None : option Resource]. *)
Abbreviation Resource := (gmap string Z).

(** Modelled from the spec: reading a component, a missing key counting as
    zero (section 3, strict-compare). *)
Definition quantity (r : Resource) (k : string) : Z := default 0 (r !! k).

(** Modelled from the spec: a nil vector reads as the empty one. *)
Definition orZero (r : option Resource) : Resource := default ∅ r.

(** Modelled from the spec: [Zero] is the empty vector. *)
Definition Zero : option Resource := Some ∅.

(** Modelled from the spec: a new vector has no components. *)
Definition NewResource : Resource := ∅.

(** Modelled from the spec: [Clone] returns an independent vector with the
    same components (section 4.A: no aliasing of the result with the
    input); vectors are values here, so the copy is the value itself. *)
Definition Clone (r : option Resource) : option Resource := r.

(** Modelled from the spec: [IsEmpty] (section 4.A). The package counts
    the components: nil and a vector that has no component are empty. A
    vector whose components are all zero has components: it is zero
    ([IsZero] below), not empty. *)
Definition IsEmpty (r : option Resource) : bool :=
  match r with
  | None => true
  | Some m => bool_decide (size m = 0%nat)
  end.

#[global] Arguments IsEmpty : simpl never.

(** Modelled from the spec: [IsZero], the other emptiness test of section
    4.A: nil, or every component zero. *)
Definition IsZero (r : option Resource) : bool :=
  bool_decide (map_Forall (fun _ v => v = 0) (orZero r)).

(** Quantities are int64. *)
Definition MaxInt64 : Z := 2 ^ 63 - 1.
Definition MinInt64 : Z := - 2 ^ 63.

(** The wrap-around of int64 arithmetic. *)
Definition int64 (z : Z) : Z := (z + 2 ^ 63) mod 2 ^ 64 - 2 ^ 63.

(** Modelled from the spec: the sum of two quantities as [AddTo] takes it,
    which does not wrap: when the int64 sum has wrapped, the result is the
    smallest or the largest quantity. *)
Definition addVal (valA valB : Z) : Z :=
  let result := int64 (valA + valB) in
  if negb (Bool.eqb (result <? valA) (valB <? 0))
  then if valA <? 0 then MinInt64 else MaxInt64
  else result.

(** Modelled from the spec: the difference of two quantities as [SubFrom]
    takes it, the sum with the negated quantity. *)
Definition subVal (valA valB : Z) : Z := addVal valA (int64 (- valB)).

(** Modelled from the spec: [Add], component-wise sum over the keys of both
    operands (section 4.A). *)
Definition Add (left right : Resource) : Resource :=
  merge (fun x y =>
           match x, y with
           | None, None => None
           | _, _ => Some (default 0 x + default 0 y)
           end) left right.

(** Modelled from the spec: the loop of [AddTo] on a receiver that is not
    nil: every component of [add] is added, with [addVal], to the component
    of the receiver, a missing one counting as zero; the other components of
    the receiver are left alone. *)
Definition addInto (r add : Resource) : Resource :=
  merge (fun x y =>
           match y with
           | Some v => Some (addVal (default 0 x) v)
           | None => x
           end) r add.

(** Modelled from the spec: the loop of [SubFrom] on a receiver that is not
    nil. *)
Definition subOutOf (r sub : Resource) : Resource :=
  merge (fun x y =>
           match y with
           | Some v => Some (subVal (default 0 x) v)
           | None => x
           end) r sub.

(** Modelled from the spec: [AddTo] adds [add] into the receiver (section
    4.B, add r into allocatedResource); a nil receiver stays nil. *)
Definition AddTo (r : option Resource) (add : Resource) : option Resource :=
  (fun m => addInto m add) <$> r.

(** Modelled from the spec: [SubFrom] subtracts [sub] from the receiver; a
    nil receiver stays nil. *)
Definition SubFrom (r : option Resource) (sub : Resource) : option Resource :=
  (fun m => subOutOf m sub) <$> r.

(** Modelled from the spec: [SubEliminateNegative] subtracts and truncates
    each component at zero (section 4.A). *)
Definition SubEliminateNegative (left right : Resource) : Resource :=
  merge (fun x y =>
           match x, y with
           | None, None => None
           | _, _ => Some (Z.max 0 (default 0 x - default 0 y))
           end) left right.

(** Modelled from the spec: [SubOnlyExisting] subtracts only over the keys
    present in the minuend (section 4.A); a nil minuend gives nil and a nil
    subtrahend leaves the minuend. *)
Definition SubOnlyExisting (base delta : option Resource) : option Resource :=
  match base with
  | None => None
  | Some b => Some (map_imap (fun k v => Some (v - quantity (orZero delta) k)) b)
  end.

(** Modelled from the spec: element-wise [>=] over the union of the keys,
    missing keys counting as zero (section 3); nil reads as [Zero]. *)
Definition StrictlyGreaterThanOrEquals (larger smaller : option Resource) : bool :=
  bool_decide
    (map_Forall (fun k v => quantity (orZero smaller) k <= v) (orZero larger)
     /\ map_Forall (fun k v => v <= quantity (orZero larger) k) (orZero smaller)).

(** Modelled from the spec: element-wise strict [>] (section 4.A): greater
    or equal on every component and not equal. *)
Definition StrictlyGreaterThan (larger smaller : option Resource) : bool :=
  StrictlyGreaterThanOrEquals larger smaller
  && negb (StrictlyGreaterThanOrEquals smaller larger).

(** Modelled from the spec: [FitIn req]: every component of [req] is at
    most the corresponding component of the receiver (section 4.A), a
    component the receiver lacks, or holds below zero, counting as zero. *)
Definition FitIn (r : option Resource) (smaller : Resource) : bool :=
  bool_decide (map_Forall (fun k v => v <= Z.max 0 (quantity (orZero r) k)) smaller).

(** Modelled from the spec: [StrictlyGreaterThanOnlyExisting] (section 4.A;
    section 9: victims covering other resource types than the ask are
    ignored). The receiver is compared with [smaller] on the components both
    have: it is not greater as soon as [smaller] exceeds it on one of them,
    and otherwise it is greater when they differ on one. An empty [smaller]
    is treated apart: a receiver with components is greater than it when all
    of them are positive. When the two have components but share none, the
    receiver counts as greater. *)
Definition StrictlyGreaterThanOnlyExisting (r smaller : Resource) : bool :=
  let common : gmap string (Z * Z) :=
    merge (fun x y => match x, y with
                      | Some v, Some val => Some (v, val)
                      | _, _ => None
                      end) r smaller in
  let isAllPositiveInLarger :=
    negb (IsEmpty (Some smaller)) || bool_decide (map_Forall (fun _ v => 0 < v) r) in
  let atleastOneResourcePresent := negb (bool_decide (size common = 0%nat)) in
  let notEqual :=
    negb (bool_decide (map_Forall (fun _ (vs : Z * Z) => vs.2 = vs.1) common)) in
  if negb (bool_decide (map_Forall (fun _ (vs : Z * Z) => vs.2 <= vs.1) common))
  then false
  else if IsEmpty (Some smaller) && negb (IsEmpty (Some r)) then isAllPositiveInLarger
  else if atleastOneResourcePresent then notEqual
  else negb (IsEmpty (Some r)) && negb (IsEmpty (Some smaller)).

(** Modelled from the spec: [ComponentWiseMin], the smaller quantity for
    every key the two vectors share and the only quantity for the others
    (section 3, invariant 4: the guarantee of a root, whose parent value is
    the empty vector, is its own); with a nil operand the other one is
    returned. *)
Definition ComponentWiseMin (left right : option Resource) : option Resource :=
  match left, right with
  | None, None => None
  | None, Some r => Some r
  | Some l, None => Some l
  | Some l, Some r => Some (union_with (fun x y => Some (Z.min x y)) l r)
  end.

(** Modelled from the spec: [ComponentWiseMinOnlyExisting], the minimum
    derived only for the keys of [left] (section 4.B, resource types not
    present in the leaf set are irrelevant): a key that [right] has too takes
    the smaller quantity, the others keep theirs; nil [left] gives nil, nil
    [right] gives [left]. *)
Definition ComponentWiseMinOnlyExisting (left right : option Resource) : option Resource :=
  match left, right with
  | None, _ => None
  | Some l, None => Some l
  | Some l, Some r =>
      Some (map_imap (fun k v => Some (match r !! k with
                                       | Some w => Z.min v w
                                       | None => v
                                       end)) l)
  end.

(** Modelled from the spec: [MergeIfNotPresent primary fallback] takes
    each key from [primary], else from [fallback] (section 4.A). *)
Definition MergeIfNotPresent (left right : option Resource) : option Resource :=
  match left, right with
  | None, None => None
  | None, Some r => Some r
  | Some l, None => Some l
  | Some l, Some r => Some (l ∪ r)
  end.

(** Modelled from the spec: equality of two vectors over the union of their
    keys, missing keys counting as zero (section 3, strict-compare). *)
Definition Equals (left right : option Resource) : bool :=
  match left, right with
  | None, None => true
  | Some l, Some r =>
      bool_decide (map_Forall (fun k v => v = quantity r k) l
                   /\ map_Forall (fun k v => v = quantity l k) r)
  | _, _ => false
  end.

(** Modelled from the spec: [EqualsOrEmpty], strict equality or both empty
    (section 4.F, step 6), empty being nil or all zero here. *)
Definition EqualsOrEmpty (left right : option Resource) : bool :=
  (IsZero left && IsZero right) || Equals left right.

End resources.

Import resources.

(** ** Allocations *)

(** Modelled from the spec: the Allocation type (allocation.go) is not among
    the sources; section 3 lists the attributes the preemptor reads through
    getters and the two it updates. Times are instants on one clock, in
    nanoseconds. *)
Record Allocation := mkAllocation {
  allocationKey : string;
  applicationID : string;
  nodeID : string;
  allocatedResource : Resource;
  createTime : Z;
  isOriginator : bool;
  allowPreemptSelf : bool;
  allowPreemptOther : bool;
  requiredNode : string;
  hasTriggeredPreemption : bool;
  preemptCheckTime : Z
}.

(** Modelled from the spec: [UpdatePreemptCheckTime] stores the current
    time as the ask's preemptCheckTime (section 4.D). *)
Definition UpdatePreemptCheckTime (a : Allocation) (now : Z) : Allocation :=
  {| allocationKey := allocationKey a;
     applicationID := applicationID a;
     nodeID := nodeID a;
     allocatedResource := allocatedResource a;
     createTime := createTime a;
     isOriginator := isOriginator a;
     allowPreemptSelf := allowPreemptSelf a;
     allowPreemptOther := allowPreemptOther a;
     requiredNode := requiredNode a;
     hasTriggeredPreemption := hasTriggeredPreemption a;
     preemptCheckTime := now |}.

(** Modelled from the spec: [MarkTriggeredPreemption] sets
    hasTriggeredPreemption (section 4.I, step 9). *)
Definition MarkTriggeredPreemption (a : Allocation) : Allocation :=
  {| allocationKey := allocationKey a;
     applicationID := applicationID a;
     nodeID := nodeID a;
     allocatedResource := allocatedResource a;
     createTime := createTime a;
     isOriginator := isOriginator a;
     allowPreemptSelf := allowPreemptSelf a;
     allowPreemptOther := allowPreemptOther a;
     requiredNode := requiredNode a;
     hasTriggeredPreemption := true;
     preemptCheckTime := preemptCheckTime a |}.

(** preemptAttemptFrequency = 15 * time.Second, in nanoseconds. *)
Definition preemptAttemptFrequency : Z := 15 * 1000000000.
Definition preemptCheckConcurrency : Z := 10.
Definition scoreFitMax : Z := Z.shiftl 1 32.
Definition scoreOriginator : Z := Z.shiftl 1 33.
Definition scoreNoPreempt : Z := Z.shiftl 1 34.
Definition scoreUnfit : Z := Z.shiftl 1 35.

(** ** Queue snapshots *)

Abbreviation loc := nat.

Record QueuePreemptionSnapshot := mkSnapshot {
  Parent : option loc;
  QueuePath : string;
  Leaf : bool;
  AllocatedResource : option Resource;
  PreemptingResource : option Resource;
  MaxResource : option Resource;
  GuaranteedResource : option Resource;
  PotentialVictims : list Allocation;
  AskQueue : option loc
}.

Abbreviation Heap := (list QueuePreemptionSnapshot).

(** The assignment [qps.AllocatedResource = r] done in place by AddTo and
    SubFrom. *)
Definition withAllocated (q : QueuePreemptionSnapshot) (r : option Resource)
  : QueuePreemptionSnapshot :=
  {| Parent := Parent q;
     QueuePath := QueuePath q;
     Leaf := Leaf q;
     AllocatedResource := r;
     PreemptingResource := PreemptingResource q;
     MaxResource := MaxResource q;
     GuaranteedResource := GuaranteedResource q;
     PotentialVictims := PotentialVictims q;
     AskQueue := AskQueue q |}.

(** The methods of a snapshot call themselves on [qps.Parent]. The embedding
    follows at most [fuel] Parent links; the callers pass the size of the
    heap, which is enough whenever every Parent link points to an older
    snapshot (lemmas [*_fuel] below). *)

(** Duplicate creates a copy of this snapshot into the given map by queue
    path. The new snapshot is allocated at the end of the heap. *)
Fixpoint Duplicate_rec (fuel : nat) (h : Heap) (copy : gmap string loc)
  (qps : option loc) : Heap * gmap string loc * option loc :=
  match fuel, qps with
  | S n, Some l =>
      match h !! l with
      | Some q =>
          match copy !! QueuePath q with
          | Some existing => (h, copy, Some existing)
          | None =>
              let '(h2, copy2, parent) :=
                match Parent q with
                | Some _ =>
                    let '(h1, copy1, _) := Duplicate_rec n h copy (Parent q) in
                    Duplicate_rec n h1 copy1 (Parent q)
                | None => (h, copy, None)
                end in
              let snapshot :=
                {| Parent := parent;
                   QueuePath := QueuePath q;
                   Leaf := Leaf q;
                   AllocatedResource := Clone (AllocatedResource q);
                   PreemptingResource := Clone (PreemptingResource q);
                   MaxResource := Clone (MaxResource q);
                   GuaranteedResource := Clone (GuaranteedResource q);
                   PotentialVictims := PotentialVictims q;
                   AskQueue := AskQueue q |} in
              (h2 ++ [snapshot], <[QueuePath q := length h2]> copy2, Some (length h2))
          end
      | None => (h, copy, None)
      end
  | _, _ => (h, copy, None)
  end.

Definition Duplicate (h : Heap) (copy : gmap string loc) (qps : option loc)
  : Heap * gmap string loc * option loc :=
  Duplicate_rec (length h) h copy qps.

Fixpoint GetPreemptableResource_rec (fuel : nat) (h : Heap) (qps : option loc)
  : option Resource :=
  match fuel, qps with
  | S n, Some l =>
      match h !! l with
      | Some q =>
          if IsEmpty (AllocatedResource q) then None
          else
            let parentPreemptableResource := GetPreemptableResource_rec n h (Parent q) in
            let actual := SubOnlyExisting (AllocatedResource q) (PreemptingResource q) in
            let guaranteed := GuaranteedResource q in
            let actual := SubOnlyExisting actual guaranteed in
            let preemptableResource :=
              filter (fun kv : string * Z => 0 < kv.2) <$> actual in
            if IsEmpty preemptableResource then preemptableResource
            else ComponentWiseMinOnlyExisting preemptableResource parentPreemptableResource
      | None => None
      end
  | _, _ => None
  end.

Definition GetPreemptableResource (h : Heap) (qps : option loc) : option Resource :=
  GetPreemptableResource_rec (length h) h qps.

(** The part of GetRemainingGuaranteedResource after the nil test of the
    receiver: [q] is the receiver, [parent] the result of the call on its
    parent and [askQueue] the snapshot its AskQueue field points to. *)
Definition remainingGuaranteedOf (q : QueuePreemptionSnapshot)
  (parent : option Resource) (askQueue : option QueuePreemptionSnapshot)
  : option Resource :=
  let remainingGuaranteed := GuaranteedResource q in
  if IsEmpty parent && IsEmpty remainingGuaranteed then None
  else
    let used := SubOnlyExisting (AllocatedResource q) (PreemptingResource q) in
    let remainingGuaranteed := SubOnlyExisting remainingGuaranteed used in
    match askQueue with
    | Some aq =>
        if String.eqb (QueuePath aq) (QueuePath q) && negb (IsEmpty remainingGuaranteed)
        then MergeIfNotPresent remainingGuaranteed parent
        else
          let askQueueRemainingGuaranteed := Clone (GuaranteedResource aq) in
          let askQueueUsed := Clone (AllocatedResource aq) in
          let askQueueUsed := SubOnlyExisting askQueueUsed (PreemptingResource aq) in
          let askQueueRemainingGuaranteed :=
            SubOnlyExisting askQueueRemainingGuaranteed askQueueUsed in
          if negb (IsEmpty remainingGuaranteed)
             && String.prefix (QueuePath q) (QueuePath aq)
             && negb (IsEmpty askQueueRemainingGuaranteed)
          then None
          else ComponentWiseMin remainingGuaranteed parent
    | None => ComponentWiseMin remainingGuaranteed parent
    end.

Fixpoint GetRemainingGuaranteedResource_rec (fuel : nat) (h : Heap) (qps : option loc)
  : option Resource :=
  match fuel, qps with
  | S n, Some l =>
      match h !! l with
      | Some q =>
          let parent := GetRemainingGuaranteedResource_rec n h (Parent q) in
          remainingGuaranteedOf q parent (AskQueue q ≫= fun a => h !! a)
      | None => None
      end
  | _, _ => None
  end.

Definition GetRemainingGuaranteedResource (h : Heap) (qps : option loc) : option Resource :=
  GetRemainingGuaranteedResource_rec (length h) h qps.

(** GetGuaranteedResource computes the current guaranteed resources
    considering parent guaranteed. *)
Fixpoint GetGuaranteedResource_rec (fuel : nat) (h : Heap) (qps : option loc)
  : option Resource :=
  match fuel, qps with
  | S n, Some l =>
      match h !! l with
      | Some q => ComponentWiseMin (GetGuaranteedResource_rec n h (Parent q))
                                   (GuaranteedResource q)
      | None => Some NewResource
      end
  | _, _ => Some NewResource
  end.

(** GetMaxResource computes the current max resources considering parent
    max. *)
Fixpoint GetMaxResource_rec (fuel : nat) (h : Heap) (qps : option loc)
  : option Resource :=
  match fuel, qps with
  | S n, Some l =>
      match h !! l with
      | Some q => ComponentWiseMin (GetMaxResource_rec n h (Parent q))
                                   (MaxResource q)
      | None => Some NewResource
      end
  | _, _ => Some NewResource
  end.

(** AddAllocation adds an allocation to this snapshot's resource usage. *)
Fixpoint AddAllocation_rec (fuel : nat) (h : Heap) (qps : option loc) (alloc : Resource)
  : Heap :=
  match fuel, qps with
  | S n, Some l =>
      match h !! l with
      | Some q =>
          let h1 := AddAllocation_rec n h (Parent q) alloc in
          match h1 !! l with
          | Some q1 => <[l := withAllocated q1 (AddTo (AllocatedResource q1) alloc)]> h1
          | None => h1
          end
      | None => h
      end
  | _, _ => h
  end.

Definition AddAllocation (h : Heap) (qps : option loc) (alloc : Resource) : Heap :=
  AddAllocation_rec (length h) h qps alloc.

(** RemoveAllocation removes an allocation from this snapshot's resource
    usage. *)
Fixpoint RemoveAllocation_rec (fuel : nat) (h : Heap) (qps : option loc) (alloc : Resource)
  : Heap :=
  match fuel, qps with
  | S n, Some l =>
      match h !! l with
      | Some q =>
          let h1 := RemoveAllocation_rec n h (Parent q) alloc in
          match h1 !! l with
          | Some q1 => <[l := withAllocated q1 (SubFrom (AllocatedResource q1) alloc)]> h1
          | None => h1
          end
      | None => h
      end
  | _, _ => h
  end.

Definition RemoveAllocation (h : Heap) (qps : option loc) (alloc : Resource) : Heap :=
  RemoveAllocation_rec (length h) h qps alloc.

(** ** Collaborators of the preemptor *)

(** Modelled from the spec: a node as the node iterator shows it (node.go is
    not among the sources; section 6 lists the queries): schedulable or
    not, the allocation keys it is reserved for, its capacity, which
    FitInNode compares the ask with, and its available resource. *)
Record Node := mkNode {
  NodeID : string;
  schedulable : bool;
  reservations : list string;
  totalResource : Resource;
  availableResource : Resource
}.

Definition IsSchedulable (node : Node) : bool := schedulable node.

Definition IsReserved (node : Node) : bool :=
  negb (bool_decide (reservations node = [])).

Definition isReservedForAllocation (node : Node) (key : string) : bool :=
  bool_decide (key ∈ reservations node).

Definition FitInNode (node : Node) (res : Resource) : bool :=
  FitIn (Some (totalResource node)) res.

Definition GetAvailableResource (node : Node) : Resource := availableResource node.

Module si.

(** The arguments of one predicate check, as the scheduler interface
    declares them. *)
Record PreemptionPredicatesArgs := mkArgs {
  AllocationKey : string;
  NodeID : string;
  PreemptAllocationKeys : list string;
  StartIndex : Z
}.

End si.

Module check.

(** Modelled from the spec: the predicate-check result of section 3,
    {allocationKey, nodeID, success, index, victims}. *)
Record predicateCheckResult := mkResult {
  allocationKey : string;
  nodeID : string;
  success : bool;
  index : Z;
  victims : option (list Allocation)
}.

End check.

(** Modelled from the spec: what [populateVictims] does to a successful
    result whose node has no list of victims, or whose index lies past the
    end of the list: the result becomes a failure with index -1. *)
Definition abortResult (r : check.predicateCheckResult) : check.predicateCheckResult :=
  {| check.allocationKey := check.allocationKey r;
     check.nodeID := check.nodeID r;
     check.success := false;
     check.index := -1;
     check.victims := None |}.

(** Modelled from the spec: [populateVictims] fills the victims of a
    successful result from victimsByNode[result.nodeID], slicing at the index
    (section 4.G); index 0 keeps the first victim (scenario S2) and index -1
    none (scenario S1). A result that failed keeps no victims. *)
Definition populateVictims (pcr : option check.predicateCheckResult)
  (victimsByNode : gmap string (list Allocation)) : option check.predicateCheckResult :=
  match pcr with
  | None => None
  | Some r =>
      if check.success r then
        match victimsByNode !! check.nodeID r with
        | None => Some (abortResult r)
        | Some victimList =>
            if Z.of_nat (length victimList) <=? check.index r then Some (abortResult r)
            else
              Some {| check.allocationKey := check.allocationKey r;
                      check.nodeID := check.nodeID r;
                      check.success := true;
                      check.index := check.index r;
                      check.victims :=
                        Some (take (Z.to_nat (check.index r + 1)) victimList) |}
        end
      else
        Some {| check.allocationKey := check.allocationKey r;
                check.nodeID := check.nodeID r;
                check.success := false;
                check.index := check.index r;
                check.victims := None |}
  end.

(** Modelled from the spec: the reserved allocation result, which ties the
    ask to the chosen node (section 6). *)
Inductive AllocationResult :=
| Reserved (node : string) (request : Allocation).

Definition newReservedAllocationResult (node : string) (request : Allocation)
  : AllocationResult := Reserved node request.

(** What the commit of TryPreemption writes outside the preemptor: the
    preempting resource of the live queues (IncPreemptingResource), the
    allocations marked preempted, and the releases notified to the resource
    manager. *)
Record World := mkWorld {
  preemptingResource : gmap string Resource;
  preemptedAllocations : list string;
  releasedAllocations : list (list string)
}.

(** Modelled from the spec: [IncPreemptingResource] of the live queue named
    [queue] (section 4.I, step 8). *)
Definition IncPreemptingResource (w : World) (queue : string) (res : Resource) : World :=
  {| preemptingResource :=
       <[queue := Add (default ∅ (preemptingResource w !! queue)) res]> (preemptingResource w);
     preemptedAllocations := preemptedAllocations w;
     releasedAllocations := releasedAllocations w |}.

(** Modelled from the spec: [MarkPreempted] on a victim. *)
Definition MarkPreempted (w : World) (victim : Allocation) : World :=
  {| preemptingResource := preemptingResource w;
     preemptedAllocations := preemptedAllocations w ++ [allocationKey victim];
     releasedAllocations := releasedAllocations w |}.

(** Modelled from the spec: the release notification of section 4.I, step
    10; nothing is notified for an empty list. *)
Definition notifyRMAllocationReleased (w : World) (released : list Allocation) : World :=
  if bool_decide (length released = 0%nat) then w
  else
    {| preemptingResource := preemptingResource w;
       preemptedAllocations := preemptedAllocations w;
       releasedAllocations := releasedAllocations w ++ [allocationKey <$> released] |}.

(** ** The preemptor *)

(** The fields of the Preemptor. [heap] and [allocationsByQueue] hold what
    FindEligiblePreemptionVictims returned: the snapshot objects and the map
    from queue path to snapshot. The application and its queue appear
    through [queuePath] and through the lookups of section [Preemption]. *)
Record Preemptor := mkPreemptor {
  queuePath : string;
  preemptionDelay : Z;
  ask : Allocation;
  iterator : list Node;
  nodesTried : bool;
  heap : Heap;
  allocationsByQueue : gmap string loc
}.

Definition withAsk (p : Preemptor) (a : Allocation) : Preemptor :=
  {| queuePath := queuePath p;
     preemptionDelay := preemptionDelay p;
     ask := a;
     iterator := iterator p;
     nodesTried := nodesTried p;
     heap := heap p;
     allocationsByQueue := allocationsByQueue p |}.

(** The lazily-populated work structures built by initWorkingState. *)
Record WorkingState := mkWorkingState {
  queueByAlloc : gmap string loc;
  allocationsByNode : gmap string (list Allocation);
  nodeAvailableMap : gmap string Resource
}.

(** CheckPreconditions performs simple sanity checks designed to determine
    if preemption should be attempted for an ask. If checks succeed, updates
    the ask preemption check time. [now] is the clock read at entry and
    [later] the clock read by UpdatePreemptCheckTime. *)
Definition CheckPreconditions (p : Preemptor) (now later : Z) : bool * Preemptor :=
  if negb (allowPreemptOther (ask p)) then (false, p)
  else if hasTriggeredPreemption (ask p) then (false, p)
  else if negb (String.eqb (requiredNode (ask p)) "") then (false, p)
  else if now <? createTime (ask p) + preemptionDelay p then (false, p)
  else if now <? preemptCheckTime (ask p) + preemptAttemptFrequency then (false, p)
  else (true, withAsk p (UpdatePreemptCheckTime (ask p) later)).

(** sort.SliceStable: a stable insertion sort by [less]. *)
Fixpoint insertStable {A : Type} (less : A -> A -> bool) (x : A) (l : list A) : list A :=
  match l with
  | [] => [x]
  | y :: l' => if less y x then y :: insertStable less x l' else x :: l
  end.

Definition SliceStable {A : Type} (less : A -> A -> bool) (l : list A) : list A :=
  foldr (insertStable less) [] l.

(** scoreAllocation generates a relative score for an allocation. *)
Definition scoreAllocation (allocation : Allocation) : Z :=
  let score := 0 in
  let score := if isOriginator allocation then Z.lor score scoreOriginator else score in
  let score := if negb (allowPreemptSelf allocation) then Z.lor score scoreNoPreempt else score in
  score.

(** compareAllocationLess compares two allocations for preemption. *)
Definition compareAllocationLess (left right : Allocation) : bool :=
  let scoreLeft := scoreAllocation left in
  let scoreRight := scoreAllocation right in
  if negb (scoreLeft =? scoreRight) then scoreLeft <? scoreRight
  else createTime right <? createTime left.

(** The comparison of sortVictimsForPreemption. *)
Definition victimLess (leftAsk rightAsk : Allocation) : bool :=
  if allowPreemptSelf leftAsk && negb (allowPreemptSelf rightAsk) then true
  else if allowPreemptSelf rightAsk && negb (allowPreemptSelf leftAsk) then false
  else if isOriginator leftAsk && negb (isOriginator rightAsk) then false
  else if isOriginator rightAsk && negb (isOriginator leftAsk) then true
  else createTime rightAsk <? createTime leftAsk.

Definition sortVictimsForPreemption (allocationsByNode : gmap string (list Allocation))
  : gmap string (list Allocation) :=
  SliceStable victimLess <$> allocationsByNode.

(** The conversion int32(idx) of tryNodes. *)
Definition int32 (z : Z) : Z := (z + 2 ^ 31) mod 2 ^ 32 - 2 ^ 31.

(** The comparison of the predicate checks in checkPreemptionPredicates. *)
Definition checkLess (a b : si.PreemptionPredicatesArgs) : bool :=
  if si.StartIndex a =? si.StartIndex b then String.ltb (si.NodeID a) (si.NodeID b)
  else si.StartIndex a <? si.StartIndex b.

(** The loop at the end of TryPreemption that keeps only the required
    victims: [total] is victimsTotalResource and [final] is finalVictims. *)
Fixpoint collectFinalVictims (fitIn : bool) (node : string) (askResource : Resource)
  (victims : list Allocation) (total : Resource) (final : list Allocation)
  : Resource * list Allocation :=
  match victims with
  | [] => (total, final)
  | victim :: rest =>
      if negb fitIn && negb (String.eqb (nodeID victim) node)
      then collectFinalVictims fitIn node askResource rest total final
      else
        let final :=
          if StrictlyGreaterThanOnlyExisting askResource total
          then final ++ [victim] else final in
        collectFinalVictims fitIn node askResource rest
          (addInto total (allocatedResource victim)) final
  end.

(** The loop of duplicateQueueSnapshots: every snapshot of the list is
    duplicated into the same map. *)
Definition duplicateAll (h : Heap) (cache : gmap string loc) (snapshots : list loc)
  : Heap * gmap string loc :=
  fold_left
    (fun (acc : Heap * gmap string loc) (snapshot : loc) =>
       let '(h1, cache1, _) := Duplicate acc.1 acc.2 (Some snapshot) in
       (h1, cache1))
    snapshots (h, cache).

Section Preemption.

(** Go leaves the order in which a range visits a map unspecified. Every
    range over a map takes its order from [rangeOrder], indexed by the place
    of the loop; the properties below hold for every choice. *)
Variable rangeOrder : nat -> forall A : Type, list (string * A) -> list (string * A).

(** Modelled from the spec: the predicate oracle (section 4.G). The plugin
    registry, the goroutines that call the plugin, and the comparison of
    their answers (preemptPredicateCheck, betterThan, isSatisfactory) are not
    among the sources. [None] is no registered plugin; [Some f] is a plugin,
    [f] giving the best successful answer for the sorted checks, if any. *)
Variable rmCallback :
  option (list si.PreemptionPredicatesArgs -> option check.predicateCheckResult).

(** Modelled from the spec: [FindQueueByAppID] of the queue tree (section
    6), giving the name of the live queue of an application. *)
Variable FindQueueByAppID : string -> option string.

Definition range {A : Type} (site : nat) (m : gmap string A) : list (string * A) :=
  rangeOrder site A (map_to_list m).

Definition duplicateQueueSnapshots (site : nat) (p : Preemptor)
  : Heap * gmap string loc :=
  duplicateAll (heap p) ∅ ((range site (allocationsByQueue p)).*2).

(** initWorkingState builds helper data structures required to compute a
    solution. *)
Definition initWorkingState (p : Preemptor) : WorkingState :=
  let '(allocationsByNode, queueByAlloc) :=
    fold_left
      (fun (acc : gmap string (list Allocation) * gmap string loc) (entry : string * loc) =>
         fold_left
           (fun (acc : gmap string (list Allocation) * gmap string loc) allocation =>
              let allocations := default [] (acc.1 !! nodeID allocation) in
              (<[nodeID allocation := allocations ++ [allocation]]> acc.1,
               <[allocationKey allocation := entry.2]> acc.2))
           (default [] (PotentialVictims <$> heap p !! entry.2)) acc)
      (range 0 (allocationsByQueue p)) (∅, ∅) in
  let '(allocationsByNode, nodeAvailableMap) :=
    fold_left
      (fun (acc : gmap string (list Allocation) * gmap string Resource) node =>
         if negb (IsSchedulable node)
            || (IsReserved node && negb (isReservedForAllocation node (allocationKey (ask p))))
            || negb (FitInNode node (allocatedResource (ask p)))
         then (delete (NodeID node) acc.1, acc.2)
         else (acc.1, <[NodeID node := GetAvailableResource node]> acc.2))
      (iterator p) (allocationsByNode, ∅) in
  {| queueByAlloc := queueByAlloc;
     allocationsByNode := sortVictimsForPreemption allocationsByNode;
     nodeAvailableMap := nodeAvailableMap |}.

(** The inner loop of checkPreemptionQueueGuarantees over the potential
    victims of one snapshot. *)
Fixpoint removeUntilGuaranteed (h : Heap) (currentQueue snapshot : loc)
  (victims : list Allocation) : Heap * bool :=
  match victims with
  | [] => (h, false)
  | alloc :: rest =>
      let h1 := RemoveAllocation h (Some snapshot) (allocatedResource alloc) in
      let remaining := GetRemainingGuaranteedResource h1 (Some currentQueue) in
      if bool_decide (is_Some remaining) && StrictlyGreaterThanOrEquals remaining Zero
      then (h1, true)
      else removeUntilGuaranteed h1 currentQueue snapshot rest
  end.

(** The outer loop of checkPreemptionQueueGuarantees over the snapshots. *)
Fixpoint removeFromQueues (h : Heap) (currentQueue : loc) (queues : list (string * loc))
  : bool :=
  match queues with
  | [] => false
  | entry :: rest =>
      let '(h1, ok) :=
        removeUntilGuaranteed h currentQueue entry.2
          (default [] (PotentialVictims <$> h !! entry.2)) in
      if ok then true else removeFromQueues h1 currentQueue rest
  end.

(** checkPreemptionQueueGuarantees verifies that it's possible to free
    enough resources to fit the given ask. *)
Definition checkPreemptionQueueGuarantees (p : Preemptor) : bool :=
  let '(h, queues) := duplicateQueueSnapshots 1 p in
  match queues !! queuePath p with
  | None => false
  | Some currentQueue =>
      let h := AddAllocation h (Some currentQueue) (allocatedResource (ask p)) in
      removeFromQueues h currentQueue (range 2 queues)
  end.

(** The duplicated snapshot of the queue of a victim: p.queueByAlloc gives
    the snapshot the victim came from and the duplicate is found by its
    path. *)
Definition snapshotOfVictim (ws : WorkingState) (h : Heap) (snap : gmap string loc)
  (victim : Allocation) : option loc :=
  qv ← queueByAlloc ws !! allocationKey victim;
  q ← h !! qv;
  snap !! QueuePath q.

(** The test shared by the three victim walks: removing the victim keeps
    its queue over its guarantee. *)
Definition keepsQueueOverGuarantee (preemptableResource oldRemaining : option Resource)
  : bool :=
  StrictlyGreaterThanOrEquals preemptableResource Zero
  && (bool_decide (oldRemaining = None) || StrictlyGreaterThan Zero oldRemaining).

(** The state of the first pass of calculateVictimsByNode. *)
Record FirstPass := mkFirstPass {
  fpHeap : Heap;
  fpAvailable : Resource;
  fpHead : list Allocation;
  fpTail : list Allocation
}.

Fixpoint firstPass (p : Preemptor) (ws : WorkingState) (snap : gmap string loc)
  (askQueue : loc) (potentialVictims : list Allocation) (st : FirstPass) : FirstPass :=
  match potentialVictims with
  | [] => st
  | victim :: rest =>
      match snapshotOfVictim ws (fpHeap st) snap victim with
      | None => firstPass p ws snap askQueue rest st
      | Some queueSnapshot =>
          let res := allocatedResource victim in
          let h := fpHeap st in
          let oldRemaining := GetRemainingGuaranteedResource h (Some queueSnapshot) in
          let h := RemoveAllocation h (Some queueSnapshot) res in
          let preemptableResource := GetPreemptableResource h (Some queueSnapshot) in
          if keepsQueueOverGuarantee preemptableResource oldRemaining then
            let h := AddAllocation h (Some askQueue) res in
            let askQueueNewRemaining := GetRemainingGuaranteedResource h (Some askQueue) in
            if bool_decide (is_Some askQueueNewRemaining)
               && StrictlyGreaterThan Zero askQueueNewRemaining
            then
              let h := RemoveAllocation h (Some askQueue) res in
              let h := AddAllocation h (Some queueSnapshot) res in
              {| fpHeap := h; fpAvailable := fpAvailable st;
                 fpHead := fpHead st; fpTail := fpTail st |}
            else
              let shortfall :=
                SubEliminateNegative (allocatedResource (ask p)) (fpAvailable st) in
              let newAvailable := Add (fpAvailable st) res in
              let newShortfall :=
                SubEliminateNegative (allocatedResource (ask p)) newAvailable in
              if EqualsOrEmpty (Some shortfall) (Some newShortfall) then
                let h := RemoveAllocation h (Some askQueue) res in
                let h := AddAllocation h (Some queueSnapshot) res in
                firstPass p ws snap askQueue rest
                  {| fpHeap := h; fpAvailable := fpAvailable st;
                     fpHead := fpHead st; fpTail := fpTail st ++ [victim] |}
              else
                firstPass p ws snap askQueue rest
                  {| fpHeap := h; fpAvailable := addInto (fpAvailable st) res;
                     fpHead := fpHead st ++ [victim]; fpTail := fpTail st |}
          else
            let h := AddAllocation h (Some queueSnapshot) res in
            firstPass p ws snap askQueue rest
              {| fpHeap := h; fpAvailable := fpAvailable st;
                 fpHead := fpHead st; fpTail := fpTail st |}
      end
  end.

(** The state of the second pass of calculateVictimsByNode. *)
Record SecondPass := mkSecondPass {
  spHeap : Heap;
  spAvailable : Resource;
  spResults : list Allocation;
  spIndex : Z
}.

Fixpoint secondPass (p : Preemptor) (ws : WorkingState) (snap : gmap string loc)
  (head : list Allocation) (st : SecondPass) : SecondPass :=
  match head with
  | [] => st
  | victim :: rest =>
      match snapshotOfVictim ws (spHeap st) snap victim with
      | None => secondPass p ws snap rest st
      | Some queueSnapshot =>
          let res := allocatedResource victim in
          let h := spHeap st in
          let oldRemaining := GetRemainingGuaranteedResource h (Some queueSnapshot) in
          let h := RemoveAllocation h (Some queueSnapshot) res in
          let preemptableResource := GetPreemptableResource h (Some queueSnapshot) in
          if keepsQueueOverGuarantee preemptableResource oldRemaining then
            let available := addInto (spAvailable st) res in
            let index :=
              if FitIn (Some available) (allocatedResource (ask p)) && (spIndex st <? 0)
              then Z.of_nat (length (spResults st)) else spIndex st in
            secondPass p ws snap rest
              {| spHeap := h; spAvailable := available;
                 spResults := spResults st ++ [victim]; spIndex := index |}
          else
            let h := AddAllocation h (Some queueSnapshot) res in
            secondPass p ws snap rest
              {| spHeap := h; spAvailable := spAvailable st;
                 spResults := spResults st; spIndex := spIndex st |}
      end
  end.

(** calculateVictimsByNode takes a list of potential victims for a node and
    builds a list ready for the RM to process. The second component is
    [None] for a nil slice. *)
Definition calculateVictimsByNode (p : Preemptor) (ws : WorkingState)
  (nodeAvailable : Resource) (potentialVictims : list Allocation)
  : Z * option (list Allocation) :=
  let nodeCurrentAvailable := nodeAvailable in
  if FitIn (Some nodeCurrentAvailable) (allocatedResource (ask p)) then (-1, Some [])
  else
    let '(h, allocationsByQueueSnap) := duplicateQueueSnapshots 3 p in
    match allocationsByQueueSnap !! queuePath p with
    | None => (-1, None)
    | Some askQueue =>
        let st :=
          firstPass p ws allocationsByQueueSnap askQueue potentialVictims
            {| fpHeap := h; fpAvailable := nodeCurrentAvailable;
               fpHead := []; fpTail := [] |} in
        let head := fpHead st ++ fpTail st in
        if bool_decide (length head = 0%nat) then (-1, None)
        else
          let nodeCurrentAvailable := nodeAvailable in
          let '(h, allocationsByQueueSnap) := duplicateQueueSnapshots 4 p in
          match allocationsByQueueSnap !! queuePath p with
          | None => (-1, None)
          | Some _ =>
              let st :=
                secondPass p ws allocationsByQueueSnap head
                  {| spHeap := h; spAvailable := nodeCurrentAvailable;
                     spResults := []; spIndex := -1 |} in
              if spIndex st <? 0 then (-1, None)
              else (spIndex st, Some (spResults st))
          end
    end.

(** checkPreemptionPredicates calls the shim via the SI to evaluate nodes
    for preemption. *)
Definition checkPreemptionPredicates (predicateChecks : list si.PreemptionPredicatesArgs)
  (victimsByNode : gmap string (list Allocation)) : option check.predicateCheckResult :=
  if bool_decide (length predicateChecks = 0%nat) then None
  else
    let predicateChecks := SliceStable checkLess predicateChecks in
    match rmCallback with
    | None =>
        match predicateChecks with
        | chk :: _ =>
            populateVictims
              (Some {| check.allocationKey := si.AllocationKey chk;
                       check.nodeID := si.NodeID chk;
                       check.success := true;
                       check.index := si.StartIndex chk;
                       check.victims := None |})
              victimsByNode
        | [] => None
        end
    | Some plugin => populateVictims (plugin predicateChecks) victimsByNode
    end.

(** The first loop of calculateAdditionalVictims: remove all victims
    previously chosen for the node. [seen] holds the keys of the map of the
    same name. *)
Fixpoint removeNodeVictims (ws : WorkingState) (snap : gmap string loc)
  (nodeVictims : list Allocation) (h : Heap) (seen : gset string) : Heap * gset string :=
  match nodeVictims with
  | [] => (h, seen)
  | victim :: rest =>
      match snapshotOfVictim ws h snap victim with
      | None => removeNodeVictims ws snap rest h seen
      | Some queueSnapshot =>
          removeNodeVictims ws snap rest
            (RemoveAllocation h (Some queueSnapshot) (allocatedResource victim))
            ({[allocationKey victim]} ∪ seen)
      end
  end.

(** The state of the victim walk of calculateAdditionalVictims. *)
Record TopUp := mkTopUp {
  tuHeap : Heap;
  tuVictims : list Allocation
}.

Fixpoint additionalVictims (ws : WorkingState) (snap : gmap string loc) (askQueue : loc)
  (potentialVictims : list Allocation) (st : TopUp) : TopUp :=
  match potentialVictims with
  | [] => st
  | victim :: rest =>
      match snapshotOfVictim ws (tuHeap st) snap victim with
      | None => additionalVictims ws snap askQueue rest st
      | Some queueSnapshot =>
          let res := allocatedResource victim in
          let h := tuHeap st in
          let oldRemaining := GetRemainingGuaranteedResource h (Some queueSnapshot) in
          let h := RemoveAllocation h (Some queueSnapshot) res in
          let preemptableResource := GetPreemptableResource h (Some queueSnapshot) in
          if keepsQueueOverGuarantee preemptableResource oldRemaining then
            let askQueueRemainingAfterVictimRemoval :=
              GetRemainingGuaranteedResource h (Some askQueue) in
            let h := AddAllocation h (Some askQueue) res in
            let askQueueNewRemaining := GetRemainingGuaranteedResource h (Some askQueue) in
            if bool_decide (is_Some askQueueNewRemaining)
               && StrictlyGreaterThan Zero askQueueNewRemaining
            then
              let h := RemoveAllocation h (Some askQueue) res in
              let h := AddAllocation h (Some queueSnapshot) res in
              {| tuHeap := h; tuVictims := tuVictims st |}
            else if negb (EqualsOrEmpty askQueueRemainingAfterVictimRemoval
                                        askQueueNewRemaining)
            then
              additionalVictims ws snap askQueue rest
                {| tuHeap := h; tuVictims := tuVictims st ++ [victim] |}
            else
              let h := RemoveAllocation h (Some askQueue) res in
              let h := AddAllocation h (Some queueSnapshot) res in
              additionalVictims ws snap askQueue rest
                {| tuHeap := h; tuVictims := tuVictims st |}
          else
            let h := AddAllocation h (Some queueSnapshot) res in
            additionalVictims ws snap askQueue rest
              {| tuHeap := h; tuVictims := tuVictims st |}
      end
  end.

(** calculateAdditionalVictims finds additional preemption victims
    necessary to ensure the ask queue stays within its guarantee. The
    result is [None] for (nil, false). *)
Definition calculateAdditionalVictims (p : Preemptor) (ws : WorkingState)
  (nodeVictims : list Allocation) : option (list Allocation) :=
  let '(h, allocationsByQueueSnap) := duplicateQueueSnapshots 5 p in
  match allocationsByQueueSnap !! queuePath p with
  | None => None
  | Some askQueue =>
      let '(h, seen) := removeNodeVictims ws allocationsByQueueSnap nodeVictims h ∅ in
      let potentialVictims :=
        fold_left
          (fun (acc : list Allocation) (entry : string * loc) =>
             fold_left
               (fun (acc : list Allocation) victim =>
                  if bool_decide (allocationKey victim ∈ seen) then acc
                  else acc ++ [victim])
               (default [] (PotentialVictims <$> heap p !! entry.2)) acc)
          (range 6 (allocationsByQueue p)) [] in
      let potentialVictims := SliceStable compareAllocationLess potentialVictims in
      let st :=
        additionalVictims ws allocationsByQueueSnap askQueue potentialVictims
          {| tuHeap := h; tuVictims := [] |} in
      let finalRemainingRes := GetRemainingGuaranteedResource (tuHeap st) (Some askQueue) in
      if bool_decide (is_Some finalRemainingRes)
         && StrictlyGreaterThanOrEquals finalRemainingRes Zero
      then Some (tuVictims st)
      else None
  end.

(** tryNodes attempts to find potential nodes for scheduling. The result is
    [None] for ("", nil, false); the victims of a successful result may be a
    nil slice. *)
Definition tryNodes (p : Preemptor) (ws : WorkingState)
  : option (string * option (list Allocation)) :=
  let '(predicateChecks, victimsByNode) :=
    fold_left
      (fun (acc : list si.PreemptionPredicatesArgs * gmap string (list Allocation))
           (entry : string * Resource) =>
         let allocations := default [] (allocationsByNode ws !! entry.1) in
         match calculateVictimsByNode p ws entry.2 allocations with
         | (idx, Some victims) =>
             let victimsByNode := <[entry.1 := victims]> acc.2 in
             let keys := allocationKey <$> victims in
             if negb (bool_decide (length victims = 0%nat)) || negb (nodesTried p)
             then (acc.1 ++ [ {| si.AllocationKey := allocationKey (ask p);
                                 si.NodeID := entry.1;
                                 si.PreemptAllocationKeys := keys;
                                 si.StartIndex := int32 idx |} ],
                   victimsByNode)
             else (acc.1, victimsByNode)
         | (_, None) => acc
         end)
      (range 7 (nodeAvailableMap ws)) ([], ∅) in
  match checkPreemptionPredicates predicateChecks victimsByNode with
  | Some result =>
      if check.success result then Some (check.nodeID result, check.victims result)
      else None
  | None => None
  end.

(** The commit loop of TryPreemption over the final victims. *)
Definition preemptVictims (finalVictims : list Allocation) (w : World) : World :=
  fold_left
    (fun w victim =>
       match FindQueueByAppID (applicationID victim) with
       | Some victimQueue =>
           MarkPreempted (IncPreemptingResource w victimQueue (allocatedResource victim))
                         victim
       | None => w
       end)
    finalVictims w.

(** The result of TryPreemption: the allocation result ([None] for
    (nil, false)), the victims committed, the preemptor with its ask, and the
    world. *)
Record Outcome := mkOutcome {
  oResult : option AllocationResult;
  oFinalVictims : list Allocation;
  oPreemptor : Preemptor;
  oWorld : World
}.

(** The return of (nil, false). LogAllocationFailure, called on two of these
    returns, only records the failure in the log of the ask; logging is left
    out of the embedding (section 1 of the specification). *)
Definition failed (p : Preemptor) (w : World) : Outcome :=
  {| oResult := None; oFinalVictims := []; oPreemptor := p; oWorld := w |}.

Definition TryPreemption (p : Preemptor) (w : World) : Outcome :=
  if negb (checkPreemptionQueueGuarantees p) then failed p w
  else
    let ws := initWorkingState p in
    match tryNodes p ws with
    | None => failed p w
    | Some (node, victims) =>
        let victims := default [] victims in
        match calculateAdditionalVictims p ws victims with
        | None => failed p w
        | Some extraVictims =>
            let victims := victims ++ extraVictims in
            if bool_decide (length victims = 0%nat) then failed p w
            else
              let victimsTotalResource := NewResource in
              let fitIn :=
                FitIn (nodeAvailableMap ws !! node) (allocatedResource (ask p)) in
              let '(victimsTotalResource, finalVictims) :=
                collectFinalVictims fitIn node (allocatedResource (ask p)) victims
                  victimsTotalResource [] in
              if StrictlyGreaterThanOnlyExisting (allocatedResource (ask p))
                   victimsTotalResource
              then failed p w
              else
                let w := preemptVictims finalVictims w in
                let p := withAsk p (MarkTriggeredPreemption (ask p)) in
                let w := notifyRMAllocationReleased w finalVictims in
                {| oResult := Some (newReservedAllocationResult node (ask p));
                   oFinalVictims := finalVictims;
                   oPreemptor := p;
                   oWorld := w |}
        end
    end.

End Preemption.

(** The loop of batchPreemptionChecks: [i] is the loop variable and
    [result] the batches built so far; checks[i:end] is the slice taken from
    the list. Each turn moves [i] forward by [batchSize], so with a positive
    batch size one turn per check is enough. *)
Fixpoint batchLoop {A : Type} (fuel : nat) (checks : list A) (batchSize i : Z)
  (result : list (list A)) : list (list A) :=
  match fuel with
  | O => result
  | S n =>
      if i <? Z.of_nat (length checks) then
        let end_ := Z.min (i + batchSize) (Z.of_nat (length checks)) in
        batchLoop n checks batchSize (i + batchSize)
          (result ++ [take (Z.to_nat (end_ - i)) (drop (Z.to_nat i) checks)])
      else result
  end.

(** batchPreemptionChecks splits predicate checks into groups by batch
    size. *)
Definition batchPreemptionChecks {A : Type} (checks : list A) (batchSize : Z)
  : list (list A) :=
  batchLoop (length checks) checks batchSize 0 [].

Definition GetGuaranteedResource (h : Heap) (qps : option loc) : option Resource :=
  GetGuaranteedResource_rec (length h) h qps.

Definition GetMaxResource (h : Heap) (qps : option loc) : option Resource :=
  GetMaxResource_rec (length h) h qps.

(** The shape GetGuaranteedResource and GetMaxResource share: the
    component-wise minimum of the parent's value and of a field of the
    receiver. *)
Fixpoint tightened (field : QueuePreemptionSnapshot -> option Resource) (fuel : nat)
  (h : Heap) (qps : option loc) : option Resource :=
  match fuel, qps with
  | S n, Some l =>
      match h !! l with
      | Some q => ComponentWiseMin (tightened field n h (Parent q)) (field q)
      | None => Some NewResource
      end
  | _, _ => Some NewResource
  end.

(** ** Notions used by the properties *)

(** The shape AddAllocation and RemoveAllocation share: [f] is applied to
    the allocated resource of the receiver and of its ancestors. *)
Fixpoint updateUsage (f : option Resource -> option Resource) (fuel : nat) (h : Heap)
  (qps : option loc) : Heap :=
  match fuel, qps with
  | S n, Some l =>
      match h !! l with
      | Some q =>
          let h1 := updateUsage f n h (Parent q) in
          match h1 !! l with
          | Some q1 => <[l := withAllocated q1 (f (AllocatedResource q1))]> h1
          | None => h1
          end
      | None => h
      end
  | _, _ => h
  end.

(** The receiver of a method and the snapshots its recursive calls reach,
    nearest first. *)
Fixpoint lineage_rec (fuel : nat) (h : Heap) (qps : option loc) : list loc :=
  match fuel, qps with
  | S n, Some l =>
      match h !! l with
      | Some q => l :: lineage_rec n h (Parent q)
      | None => []
      end
  | _, _ => []
  end.

Definition lineage (h : Heap) (qps : option loc) : list loc :=
  lineage_rec (length h) h qps.

(** Every Parent link points to an older snapshot: a snapshot is built
    after its parent, as Duplicate does. *)
Definition heap_ok (h : Heap) : bool :=
  forallb
    (fun lq : nat * QueuePreemptionSnapshot =>
       match Parent lq.2 with
       | Some p => bool_decide (p < lq.1)%nat
       | None => true
       end)
    (imap pair h).

(** The snapshot at [l] and its ancestors all carry an allocated resource
    (the field is not nil). *)
Definition allocatedSet (h : Heap) (l : loc) : bool :=
  forallb (fun a => bool_decide (is_Some (h !! a ≫= AllocatedResource)))
          (lineage h (Some l)).

(** [q'] is [q] but for its allocated resource. *)
Definition sameButAllocated (q q' : QueuePreemptionSnapshot) : Prop :=
  q' = withAllocated q (AllocatedResource q').

(** The allocated resource of [q'] is that of [q] plus [r], on every
    component; nothing else differs. *)
Definition increasedBy (r : Resource) (q q' : QueuePreemptionSnapshot) : Prop :=
  sameButAllocated q q'
  /\ exists m m', AllocatedResource q = Some m /\ AllocatedResource q' = Some m'
                  /\ forall k, quantity m' k = quantity m k + quantity r k.

(** The allocated resource of [q'] is that of [q] minus [r], on every
    component; nothing else differs. *)
Definition decreasedBy (r : Resource) (q q' : QueuePreemptionSnapshot) : Prop :=
  sameButAllocated q q'
  /\ exists m m', AllocatedResource q = Some m /\ AllocatedResource q' = Some m'
                  /\ forall k, quantity m' k = quantity m k - quantity r k.

(** [q'] has the allocated quantities of [q] and the same other fields. *)
Definition restored (q q' : QueuePreemptionSnapshot) : Prop :=
  sameButAllocated q q'
  /\ Equals (AllocatedResource q') (AllocatedResource q) = true.

(** A mutation of a snapshot tree through one of its snapshots. *)
Inductive Mutation :=
| Added (qps : loc) (alloc : Resource)
| Removed (qps : loc) (alloc : Resource).

Definition target (op : Mutation) : loc :=
  match op with
  | Added l _ => l
  | Removed l _ => l
  end.

Definition mutate (h : Heap) (ops : list Mutation) : Heap :=
  fold_left
    (fun h op =>
       match op with
       | Added l r => AddAllocation h (Some l) r
       | Removed l r => RemoveAllocation h (Some l) r
       end)
    ops h.

(** What is available on a node once the victims of the list are gone. *)
Definition availableAfter (available : Resource) (victims : list Allocation) : Resource :=
  fold_left (fun a v => addInto a (allocatedResource v)) victims available.

(** The component-wise sum of the allocated resources of a list of
    victims. *)
Definition totalOf (victims : list Allocation) : Resource :=
  fold_left (fun a v => Add a (allocatedResource v)) victims NewResource.

(** victimsTotalResource of TryPreemption once the victims of the list have
    been added to it. *)
Definition victimsTotal (victims : list Allocation) : Resource :=
  availableAfter NewResource victims.


(** The guaranteed resources along the branch of the ask queue, in the
    working copy checkPreemptionQueueGuarantees makes of the snapshots. *)
Definition askBranchGuarantees
  (rangeOrder : nat -> forall A : Type, list (string * A) -> list (string * A))
  (p : Preemptor) : list (option Resource) :=
  let '(h, queues) := duplicateQueueSnapshots rangeOrder 1 p in
  (fun l => h !! l ≫= GuaranteedResource) <$> lineage h (queues !! queuePath p).

(** The remaining guarantee of a queue on its own: its guaranteed resource
    minus what it uses, as GetRemainingGuaranteedResource computes it for
    the receiver and for the ask queue. *)
Definition ownRemaining (q : QueuePreemptionSnapshot) : option Resource :=
  SubOnlyExisting (GuaranteedResource q)
    (SubOnlyExisting (AllocatedResource q) (PreemptingResource q)).

(** [h'] has the snapshots of [h] at the same addresses, with possibly
    other allocated resources. *)
Definition usageOnly (h h' : Heap) : Prop :=
  length h' = length h
  /\ forall a q, h !! a = Some q -> exists q', h' !! a = Some q' /\ sameButAllocated q q'.

(** [q'] has the fields of [q], but for the parent link. *)
Definition copied (q q' : QueuePreemptionSnapshot) : Prop :=
  q' = {| Parent := Parent q';
          QueuePath := QueuePath q;
          Leaf := Leaf q;
          AllocatedResource := AllocatedResource q;
          PreemptingResource := PreemptingResource q;
          MaxResource := MaxResource q;
          GuaranteedResource := GuaranteedResource q;
          PotentialVictims := PotentialVictims q;
          AskQueue := AskQueue q |}.

(** [idx] is the position, in [victims], of the first victim whose removal
    makes the ask fit on the node: the ask fits once the victims up to and
    including that one are gone, and does not fit with fewer. *)
Definition firstFitAt (available askResource : Resource) (victims : list Allocation)
  (idx : Z) : Prop :=
  0 <= idx < Z.of_nat (length victims)
  /\ FitIn (Some (availableAfter available (take (Z.to_nat idx + 1) victims)))
           askResource = true
  /\ forall n : nat, (n <= Z.to_nat idx)%nat ->
       FitIn (Some (availableAfter available (take n victims))) askResource = false.

(** The ask fits on the node after no prefix of [victims]. *)
Definition neverFits (available askResource : Resource) (victims : list Allocation)
  : Prop :=
  forall n : nat,
    FitIn (Some (availableAfter available (take n victims))) askResource = false.

(** What the second pass of calculateVictimsByNode maintains. *)
Definition secondPassInvariant (available askResource : Resource) (st : SecondPass)
  : Prop :=
  spAvailable st = availableAfter available (spResults st)
  /\ ((spIndex st = -1 /\ neverFits available askResource (spResults st))
      \/ firstFitAt available askResource (spResults st) (spIndex st)).

(** The order sort.SliceStable leaves a slice in: no element should, by
    [less], come before one that stands earlier. *)
Fixpoint sortedBy {A : Type} (less : A -> A -> bool) (l : list A) : Prop :=
  match l with
  | [] => True
  | x :: rest => Forall (fun y => less y x = false) rest /\ sortedBy less rest
  end.

(** The test of initWorkingState on a node of the iterator, negated: the
    node is schedulable, not reserved for another allocation, and large
    enough for the ask. *)
Definition nodeUsable (p : Preemptor) (node : Node) : bool :=
  negb (negb (IsSchedulable node)
        || (IsReserved node && negb (isReservedForAllocation node (allocationKey (ask p))))
        || negb (FitInNode node (allocatedResource (ask p)))).

(** The body of the first loop of initWorkingState for one potential victim
    of the snapshot [snapshot]. *)
Definition recordVictim (snapshot : loc)
  (acc : gmap string (list Allocation) * gmap string loc) (allocation : Allocation)
  : gmap string (list Allocation) * gmap string loc :=
  let allocations := default [] (acc.1 !! nodeID allocation) in
  (<[nodeID allocation := allocations ++ [allocation]]> acc.1,
   <[allocationKey allocation := snapshot]> acc.2).

(** The body of the walk of initWorkingState over the nodes. *)
Definition visitNode (p : Preemptor)
  (acc : gmap string (list Allocation) * gmap string Resource) (node : Node)
  : gmap string (list Allocation) * gmap string Resource :=
  if negb (IsSchedulable node)
     || (IsReserved node && negb (isReservedForAllocation node (allocationKey (ask p))))
     || negb (FitInNode node (allocatedResource (ask p)))
  then (delete (NodeID node) acc.1, acc.2)
  else (acc.1, <[NodeID node := GetAvailableResource node]> acc.2).

(** The victims whose application runs in the live queue [queue]. *)
Definition victimsOfQueue (FindQueueByAppID : string -> option string) (queue : string)
  (victims : list Allocation) : list Allocation :=
  filter (fun v => FindQueueByAppID (applicationID v) = Some queue) victims.

(** The victims whose application has a live queue. *)
Definition victimsWithQueue (FindQueueByAppID : string -> option string)
  (victims : list Allocation) : list Allocation :=
  filter (fun v => is_Some (FindQueueByAppID (applicationID v))) victims.

(** The snapshots of [h] below the address [b] are those of [h0], and no
    snapshot at [b] or above has its parent below [b]. *)
Definition untouched (b : nat) (h0 h : Heap) : Prop :=
  (forall l q p, (b <= l)%nat -> h !! l = Some q -> Parent q = Some p -> (b <= p)%nat)
  /\ (forall a, (a < b)%nat -> h !! a = h0 !! a).

(** The removals of one queue in the walk of checkPreemptionQueueGuarantees:
    its potential victims, in the order of its list, each taken off the
    snapshot [snapshot] of the queue. *)
Definition removalsFrom (snapshot : loc) (victims : list Allocation) : list Mutation :=
  (fun alloc => Removed snapshot (allocatedResource alloc)) <$> victims.

(** The walk of checkPreemptionQueueGuarantees: queue by queue in the order
    of [queues], the removals of each queue. *)
Definition walkOrder (h : Heap) (queues : list (string * loc)) : list Mutation :=
  queues ≫= fun entry =>
    removalsFrom entry.2 (default [] (PotentialVictims <$> h !! entry.2)).

(** The test of checkPreemptionQueueGuarantees: the queue at [currentQueue]
    has a remaining guarantee, and it is not negative on any component. *)
Definition withinGuarantee (h : Heap) (currentQueue : loc) : Prop :=
  exists r,
    GetRemainingGuaranteedResource h (Some currentQueue) = Some r
    /\ StrictlyGreaterThanOrEquals (Some r) Zero = true.

(** Adding [r] to [m] and taking it off again stays within int64: on every
    component of [r], the quantity of [r] can be negated, and the quantity of
    [m], that of [r] and their sum are quantities. *)
Definition fitsInto (m r : Resource) : bool :=
  bool_decide
    (map_Forall (fun k v => MinInt64 < v <= MaxInt64
                            /\ MinInt64 <= quantity m k <= MaxInt64
                            /\ MinInt64 <= quantity m k + v <= MaxInt64) r).

(** [r] can be added, within int64, to the allocated resource of the
    snapshot at [l] and of each of its ancestors. *)
Definition addsWithin (h : Heap) (l : loc) (r : Resource) : bool :=
  forallb (fun a => match h !! a ≫= AllocatedResource with
                    | Some m => fitsInto m r
                    | None => true
                    end)
          (lineage h (Some l)).

(** ** Scenarios *)

(** A range that visits the keys in increasing order of their encoding. *)
Definition inOrder : nat -> forall A : Type, list (string * A) -> list (string * A) :=
  fun _ _ l => l.

Definition vcore (n : Z) : Resource := {[ "vcore"%string := n ]}.

Definition vcoreMemory (c m : Z) : Resource :=
  <[ "vcore"%string := c ]> {[ "memory"%string := m ]}.

Definition askOf (res : Resource) (triggered : bool) : Allocation :=
  {| allocationKey := "ask"; applicationID := "app-a"; nodeID := "";
     allocatedResource := res; createTime := 0;
     isOriginator := false; allowPreemptSelf := true; allowPreemptOther := true;
     requiredNode := ""; hasTriggeredPreemption := triggered; preemptCheckTime := 0 |}.

Definition victimOf (key node : string) (res : Resource) (created : Z) : Allocation :=
  {| allocationKey := key; applicationID := "app-b"; nodeID := node;
     allocatedResource := res; createTime := created;
     isOriginator := false; allowPreemptSelf := true; allowPreemptOther := false;
     requiredNode := ""; hasTriggeredPreemption := false; preemptCheckTime := 0 |}.

Definition queueOf (parent : option loc) (path : string) (leaf : bool)
  (allocated : Resource) (guaranteed : option Resource) (victims : list Allocation)
  (askQueue : option loc) : QueuePreemptionSnapshot :=
  {| Parent := parent; QueuePath := path; Leaf := leaf;
     AllocatedResource := Some allocated; PreemptingResource := Some ∅;
     MaxResource := None; GuaranteedResource := guaranteed;
     PotentialVictims := victims; AskQueue := askQueue |}.

Definition nodeOf (name : string) (available : Resource) : Node :=
  {| NodeID := name; schedulable := true; reservations := [];
     totalResource := vcoreMemory 16 16; availableResource := available |}.

Definition emptyWorld : World :=
  {| preemptingResource := ∅; preemptedAllocations := []; releasedAllocations := [] |}.

Definition queueOfApp (app : string) : option string :=
  if String.eqb app "app-b" then Some "root.B"%string else None.

(** Scenario S1 of the specification: root and A guaranteed 10 with nothing
    allocated, an ask of 4, node N1 with 8 available and no victims. *)
Module S1.

Definition snapshots : Heap :=
  [ queueOf None "root" false (vcore 0) (Some (vcore 10)) [] (Some 1%nat);
    queueOf (Some 0%nat) "root.A" true (vcore 0) (Some (vcore 10)) [] (Some 1%nat) ].

Definition preemptor : Preemptor :=
  {| queuePath := "root.A"; preemptionDelay := 0; ask := askOf (vcore 4) false;
     iterator := [ nodeOf "N1" (vcore 8) ]; nodesTried := false;
     heap := snapshots;
     allocationsByQueue := <[ "root"%string := 0%nat ]> {[ "root.A"%string := 1%nat ]} |}.

End S1.

(** Scenario S2 of the specification: A guaranteed 5 with nothing
    allocated, its sibling B guaranteed 5 with 7 allocated to V1 (3, on N1)
    and V2 (4, on N2), an ask of 3 into A, nothing available on the nodes. *)
Module S2.

Definition V1 : Allocation := victimOf "V1" "N1" (vcore 3) 10.
Definition V2 : Allocation := victimOf "V2" "N2" (vcore 4) 20.

Definition snapshots : Heap :=
  [ queueOf None "root" false (vcore 7) (Some (vcore 10)) [] (Some 1%nat);
    queueOf (Some 0%nat) "root.A" true (vcore 0) (Some (vcore 5)) [] (Some 1%nat);
    queueOf (Some 0%nat) "root.B" true (vcore 7) (Some (vcore 5)) [V1; V2] (Some 1%nat) ].

Definition preemptor (triggered : bool) : Preemptor :=
  {| queuePath := "root.A"; preemptionDelay := 0; ask := askOf (vcore 3) triggered;
     iterator := [ nodeOf "N1" (vcore 0); nodeOf "N2" (vcore 0) ]; nodesTried := false;
     heap := snapshots;
     allocationsByQueue :=
       <[ "root"%string := 0%nat ]>
         (<[ "root.A"%string := 1%nat ]> {[ "root.B"%string := 2%nat ]}) |}.

End S2.

(** An ask of 4 vcore and 4 memory into A; node N1 has 3 memory available
    and hosts V, the only allocation of B, which holds 5 vcore and 1 memory
    against a guarantee of 1 and 1. *)
Module TwoResources.

Definition V : Allocation := victimOf "V" "N1" (vcoreMemory 5 1) 10.

Definition snapshots : Heap :=
  [ queueOf None "root" false (vcoreMemory 5 1) (Some (vcoreMemory 10 10)) [] (Some 1%nat);
    queueOf (Some 0%nat) "root.A" true (vcoreMemory 0 0) (Some (vcoreMemory 5 5)) []
            (Some 1%nat);
    queueOf (Some 0%nat) "root.B" true (vcoreMemory 5 1) (Some (vcoreMemory 1 1)) [V]
            (Some 1%nat) ].

Definition preemptor : Preemptor :=
  {| queuePath := "root.A"; preemptionDelay := 0; ask := askOf (vcoreMemory 4 4) false;
     iterator := [ nodeOf "N1" (vcoreMemory 0 3) ]; nodesTried := false;
     heap := snapshots;
     allocationsByQueue :=
       <[ "root"%string := 0%nat ]>
         (<[ "root.A"%string := 1%nat ]> {[ "root.B"%string := 2%nat ]}) |}.

End TwoResources.

(** A queue without a guaranteed resource between a root that has one, and
    no askQueue reference, and the ask queue. *)
Module Unguarded.

Definition snapshots : Heap :=
  [ queueOf None "root" false (vcore 4) (Some (vcore 10)) [] None;
    queueOf (Some 0%nat) "root.M" false (vcore 4) None [] (Some 2%nat);
    queueOf (Some 1%nat) "root.M.A" true (vcore 0) (Some (vcore 5)) [] (Some 2%nat) ].

End Unguarded.

(** The tree of S2 without any guaranteed resource. *)
Module NoGuarantee.

Definition snapshots : Heap :=
  [ queueOf None "root" false (vcore 7) None [] (Some 1%nat);
    queueOf (Some 0%nat) "root.A" true (vcore 0) None [] (Some 1%nat);
    queueOf (Some 0%nat) "root.B" true (vcore 7) None [S2.V1; S2.V2] (Some 1%nat) ].

Definition preemptor : Preemptor :=
  {| queuePath := "root.A"; preemptionDelay := 0; ask := askOf (vcore 3) false;
     iterator := [ nodeOf "N1" (vcore 0); nodeOf "N2" (vcore 0) ]; nodesTried := false;
     heap := snapshots;
     allocationsByQueue :=
       <[ "root"%string := 0%nat ]>
         (<[ "root.A"%string := 1%nat ]> {[ "root.B"%string := 2%nat ]}) |}.

End NoGuarantee.

(** The tree of S2 and an ask for a queue that has no snapshot. *)
Module Stray.

Definition preemptor : Preemptor :=
  {| queuePath := "root.C"; preemptionDelay := 0; ask := askOf (vcore 3) false;
     iterator := [ nodeOf "N1" (vcore 0); nodeOf "N2" (vcore 0) ]; nodesTried := false;
     heap := S2.snapshots;
     allocationsByQueue :=
       <[ "root"%string := 0%nat ]>
         (<[ "root.A"%string := 1%nat ]> {[ "root.B"%string := 2%nat ]}) |}.

End Stray.

(** B far above its guarantee: V1 on N1 and V2 on N2 are its potential
    victims, and an ask of 5 goes into A, N1 having 2 available. *)
Module OverGuarantee.

Definition snapshots : Heap :=
  [ queueOf None "root" false (vcore 10) (Some (vcore 10)) [] (Some 1%nat);
    queueOf (Some 0%nat) "root.A" true (vcore 0) (Some (vcore 5)) [] (Some 1%nat);
    queueOf (Some 0%nat) "root.B" true (vcore 10) (Some (vcore 1)) [S2.V1; S2.V2]
            (Some 1%nat) ].

Definition preemptor : Preemptor :=
  {| queuePath := "root.A"; preemptionDelay := 0; ask := askOf (vcore 5) false;
     iterator := [ nodeOf "N1" (vcore 2); nodeOf "N2" (vcore 0) ]; nodesTried := false;
     heap := snapshots;
     allocationsByQueue :=
       <[ "root"%string := 0%nat ]>
         (<[ "root.A"%string := 1%nat ]> {[ "root.B"%string := 2%nat ]}) |}.

End OverGuarantee.

(** A single queue that uses 7 vcore, and the same queue with no allocated
    resource at all. *)
Module Lone.

Definition snapshots : Heap := [ queueOf None "root" true (vcore 7) None [] None ].

Definition unallocated : Heap :=
  [ withAllocated (queueOf None "root" true (vcore 7) None [] None) None ].

End Lone.

(** ** Resource vectors: basic facts *)

Section ResourceFacts.

Implicit Types (a b r : Resource) (k : string).

Lemma quantity_Add a b k : quantity (Add a b) k = quantity a k + quantity b k.
Proof.
  unfold quantity, Add. rewrite lookup_merge.
  destruct (a !! k), (b !! k); simpl; lia.
Qed.

Lemma quantity_empty k : quantity ∅ k = 0.
Proof. unfold quantity. by rewrite lookup_empty. Qed.

Lemma IsEmpty_true (o : option Resource) : IsEmpty o = true <-> orZero o = ∅.
Proof.
  destruct o as [m|]; unfold IsEmpty; simpl; [|done].
  rewrite bool_decide_eq_true. apply map_size_empty_iff.
Qed.

Lemma IsEmpty_false (o : option Resource) :
  IsEmpty o = false <-> exists m, o = Some m /\ m <> ∅.
Proof.
  rewrite <- not_true_iff_false, IsEmpty_true. destruct o as [m|]; simpl.
  - split; [eauto|]. by intros (m' & [= <-] & Hne).
  - split; [done|]. by intros (m' & [=] & _).
Qed.

Lemma IsEmpty_None : IsEmpty None = true.
Proof. reflexivity. Qed.

Lemma IsEmpty_empty : IsEmpty (Some ∅) = true.
Proof. by apply IsEmpty_true. Qed.

Lemma IsEmpty_Some_false (m : Resource) : m <> ∅ -> IsEmpty (Some m) = false.
Proof. intros Hne. apply IsEmpty_false. eauto. Qed.

Lemma IsZero_true (o : option Resource) :
  IsZero o = true <-> forall k v, orZero o !! k = Some v -> v = 0.
Proof. unfold IsZero. rewrite bool_decide_eq_true. reflexivity. Qed.

Lemma FitIn_true (o : option Resource) r :
  FitIn o r = true <->
  forall k v, r !! k = Some v -> v <= Z.max 0 (quantity (orZero o) k).
Proof. unfold FitIn. rewrite bool_decide_eq_true. reflexivity. Qed.

(** The components two vectors share, as StrictlyGreaterThanOnlyExisting
    pairs them. *)
Lemma lookup_common a b k :
  merge (fun x y => match x, y with
                    | Some v, Some val => Some (v, val)
                    | _, _ => None
                    end) a b !! k
  = match a !! k, b !! k with
    | Some v, Some val => Some (v, val)
    | _, _ => None
    end.
Proof. rewrite lookup_merge. by destruct (a !! k), (b !! k). Qed.

(** When the receiver is not StrictlyGreaterThanOnlyExisting than
    [b]: [b] exceeds it on a component both have; or they share a component
    and agree on all they share; or [b] is empty and the receiver has a
    component that is not positive; or the receiver is empty. *)
Lemma StrictlyGreaterThanOnlyExisting_false a b :
  StrictlyGreaterThanOnlyExisting a b = false <->
  (exists k x y, a !! k = Some x /\ b !! k = Some y /\ x < y)
  \/ ((exists k, is_Some (a !! k) /\ is_Some (b !! k))
      /\ forall k x y, a !! k = Some x -> b !! k = Some y -> y = x)
  \/ (b = ∅ /\ exists k x, a !! k = Some x /\ x <= 0)
  \/ a = ∅.
Proof.
  unfold StrictlyGreaterThanOnlyExisting.
  set (common := merge _ a b).
  assert (Hcommon : forall k vs, common !! k = Some vs <->
            a !! k = Some vs.1 /\ b !! k = Some vs.2).
  { intros k [x y]. unfold common. rewrite lookup_common. simpl.
    destruct (a !! k) as [x'|], (b !! k) as [y'|]; split;
      try (intros [[= ?] [= ?]]); try (intros [= ? ?]); subst; try done. }
  destruct (decide (map_Forall (fun _ (vs : Z * Z) => vs.2 <= vs.1) common)) as [Hle|Hgt].
  2: { rewrite bool_decide_eq_false_2 by exact Hgt. simpl. split; [intros _|done].
       apply map_not_Forall in Hgt; [|apply _].
       destruct Hgt as (k & [x y] & Hk & Hlt). apply Hcommon in Hk as [Hx Hy].
       left. exists k, x, y. simpl in *. repeat split; try assumption. lia. }
  rewrite bool_decide_eq_true_2 by exact Hle. simpl.
  assert (Hnoexceed : ~ exists k x y, a !! k = Some x /\ b !! k = Some y /\ x < y).
  { intros (k & x & y & Hx & Hy & Hlt).
    specialize (Hle k (x, y) (proj2 (Hcommon k (x, y)) (conj Hx Hy))). simpl in Hle. lia. }
  destruct (decide (b = ∅)) as [->|Hb].
  - rewrite IsEmpty_empty. simpl.
    destruct (decide (a = ∅)) as [->|Ha].
    + assert (Hc : bool_decide (size common = 0%nat) = true).
      { apply bool_decide_eq_true, map_size_empty_iff, map_eq. intros k.
        unfold common. by rewrite lookup_common, !lookup_empty. }
      rewrite Hc. simpl. split; [by intros _; right; right; right|done].
    + rewrite (IsEmpty_Some_false a Ha).
      simpl. rewrite <- not_true_iff_false, bool_decide_eq_true. split.
      * intros Hpos. right. right. left. split; [reflexivity|].
        apply map_not_Forall in Hpos; [|apply _].
        destruct Hpos as (k & x & Hk & Hx). exists k, x. split; [exact Hk|lia].
      * intros [Hex|[[(k & _ & Hk) _]|[(_ & k & x & Hk & Hx)|Hempty]]] Hpos.
        -- by apply Hnoexceed.
        -- rewrite lookup_empty in Hk. by destruct Hk.
        -- specialize (Hpos k x Hk). simpl in Hpos. lia.
        -- contradiction.
  - rewrite (IsEmpty_Some_false b Hb). simpl.
    destruct (decide (size common = 0%nat)) as [Hc|Hc].
    + rewrite (bool_decide_eq_true_2 _ Hc). simpl.
      apply map_size_empty_iff in Hc.
      assert (Hdisjoint : ~ exists k, is_Some (a !! k) /\ is_Some (b !! k)).
      { intros (k & [x Hx] & [y Hy]).
        pose proof (proj2 (Hcommon k (x, y)) (conj Hx Hy)) as Hk.
        by rewrite Hc, lookup_empty in Hk. }
      rewrite andb_true_r, negb_false_iff, (IsEmpty_true (Some a)). simpl.
      split; [by intros ->; right; right; right|].
      intros [Hex|[[Hsh _]|[[Hbe _]|Hempty]]]; [by destruct Hnoexceed|by destruct Hdisjoint
                                                |contradiction|exact Hempty].
    + rewrite (bool_decide_eq_false_2 _ Hc). simpl.
      rewrite negb_false_iff, bool_decide_eq_true.
      assert (Hshared : exists k, is_Some (a !! k) /\ is_Some (b !! k)).
      { destruct (map_choose common) as (k & [x y] & Hk).
        - intros Hempty. apply Hc. by rewrite Hempty, map_size_empty.
        - apply Hcommon in Hk as [Hx Hy]. exists k. eauto. }
      split.
      * intros Heq. right. left. split; [exact Hshared|].
        intros k x y Hx Hy.
        exact (Heq k (x, y) (proj2 (Hcommon k (x, y)) (conj Hx Hy))).
      * intros [Hex|[[_ Heq]|[[Hbe _]|Hempty]]].
        -- by destruct Hnoexceed.
        -- intros k [x y] Hk. apply Hcommon in Hk as [Hx Hy]. simpl in *. eauto.
        -- contradiction.
        -- destruct Hshared as (k & [x Hx] & _). by rewrite Hempty, lookup_empty in Hx.
Qed.

(** The receiver is StrictlyGreaterThanOnlyExisting than the empty vector
    when it has a component and all its components are positive. *)
Lemma StrictlyGreaterThanOnlyExisting_empty a :
  StrictlyGreaterThanOnlyExisting a ∅ = true <->
  a <> ∅ /\ forall k v, a !! k = Some v -> 0 < v.
Proof.
  rewrite <- not_false_iff_true, StrictlyGreaterThanOnlyExisting_false. split.
  - intros Hnot. split.
    + intros ->. apply Hnot. by right; right; right.
    + intros k v Hk. destruct (decide (0 < v)) as [Hv|Hv]; [exact Hv|].
      exfalso. apply Hnot. right. right. left. split; [reflexivity|].
      exists k, v. split; [exact Hk|lia].
  - intros [Hne Hpos] [(k & x & y & _ & Hy & _)|[[(k & _ & Hk) _]|[(_ & k & x & Hk & Hx)|Hempty]]].
    + by rewrite lookup_empty in Hy.
    + rewrite lookup_empty in Hk. by destruct Hk.
    + specialize (Hpos k x Hk). lia.
    + contradiction.
Qed.

Lemma int64_id (z : Z) : MinInt64 <= z <= MaxInt64 -> int64 z = z.
Proof.
  unfold int64, MinInt64, MaxInt64. intros Hz.
  rewrite Z.mod_small by lia. lia.
Qed.

(** Within int64 [addVal] is the sum and [subVal] the difference. *)
Lemma addVal_exact (x y : Z) :
  MinInt64 <= x <= MaxInt64 -> MinInt64 <= y <= MaxInt64 ->
  MinInt64 <= x + y <= MaxInt64 ->
  addVal x y = x + y.
Proof.
  intros Hx Hy Hxy. unfold addVal. rewrite int64_id by exact Hxy.
  destruct (x + y <? x) eqn:Hlt, (y <? 0) eqn:Hneg; simpl; try reflexivity.
  - apply Z.ltb_lt in Hlt. apply Z.ltb_ge in Hneg. lia.
  - apply Z.ltb_ge in Hlt. apply Z.ltb_lt in Hneg. lia.
Qed.

Lemma subVal_exact (x y : Z) :
  MinInt64 <= x <= MaxInt64 -> MinInt64 < y <= MaxInt64 ->
  MinInt64 <= x - y <= MaxInt64 ->
  subVal x y = x - y.
Proof.
  intros Hx Hy Hxy. unfold subVal.
  assert (Hneg : MinInt64 <= - y <= MaxInt64) by (unfold MinInt64, MaxInt64 in *; lia).
  rewrite int64_id by exact Hneg. rewrite addVal_exact; [lia|exact Hx|exact Hneg|lia].
Qed.

Lemma quantity_addInto a b k :
  quantity (addInto a b) k
  = match b !! k with
    | Some v => addVal (quantity a k) v
    | None => quantity a k
    end.
Proof.
  unfold quantity, addInto. rewrite lookup_merge.
  destruct (a !! k), (b !! k); reflexivity.
Qed.

Lemma quantity_subOutOf a b k :
  quantity (subOutOf a b) k
  = match b !! k with
    | Some v => subVal (quantity a k) v
    | None => quantity a k
    end.
Proof.
  unfold quantity, subOutOf. rewrite lookup_merge.
  destruct (a !! k), (b !! k); reflexivity.
Qed.

Lemma fitsInto_addInto a b k :
  fitsInto a b = true -> quantity (addInto a b) k = quantity a k + quantity b k.
Proof.
  unfold fitsInto. rewrite bool_decide_eq_true. intros Hfit.
  rewrite quantity_addInto.
  assert (Hb : quantity b k = default 0 (b !! k)) by reflexivity.
  destruct (b !! k) as [v|] eqn:Hk; simpl in Hb; rewrite Hb; [|lia].
  destruct (Hfit k v Hk) as (Hv & Ha & Hsum). apply addVal_exact; lia.
Qed.

Lemma fitsInto_subOutOf a b k :
  fitsInto a b = true ->
  quantity (subOutOf (addInto a b) b) k = quantity (addInto a b) k - quantity b k.
Proof.
  intros Hfit. rewrite quantity_subOutOf, (fitsInto_addInto _ _ _ Hfit).
  unfold fitsInto in Hfit. rewrite bool_decide_eq_true in Hfit.
  assert (Hb : quantity b k = default 0 (b !! k)) by reflexivity.
  destruct (b !! k) as [v|] eqn:Hk; simpl in Hb; rewrite Hb; [|lia].
  destruct (Hfit k v Hk) as (Hv & Ha & Hsum). apply subVal_exact; lia.
Qed.

Lemma availableAfter_app available l1 l2 :
  availableAfter available (l1 ++ l2) = availableAfter (availableAfter available l1) l2.
Proof. unfold availableAfter. apply fold_left_app. Qed.

Lemma availableAfter_snoc available l v :
  availableAfter available (l ++ [v])
  = addInto (availableAfter available l) (allocatedResource v).
Proof. by rewrite availableAfter_app. Qed.

End ResourceFacts.

(** ** The precondition gate *)

(** C8. A call of CheckPreconditions that returns true stores the time read
    by UpdatePreemptCheckTime as the ask's preemptCheckTime, and every call
    made on that ask before preemptAttemptFrequency has passed (counted from
    the first call, or from the stored time) returns false. *)
Theorem CheckPreconditions_throttle (p p' : Preemptor) (now later : Z) :
  CheckPreconditions p now later = (true, p') ->
  now <= later ->
  preemptCheckTime (ask p') = later
  /\ forall now2 later2,
      now2 < now + preemptAttemptFrequency
      \/ now2 < preemptCheckTime (ask p') + preemptAttemptFrequency ->
      fst (CheckPreconditions p' now2 later2) = false.
Proof.
  unfold CheckPreconditions. intros H Hclock.
  repeat (match type of H with
          | (if ?c then _ else _) = _ => destruct c eqn:?; [discriminate H|]
          end).
  injection H as <-. simpl. split; [reflexivity|].
  intros now2 later2 Hnear.
  assert (Hlt : (now2 <? later + preemptAttemptFrequency) = true)
    by (apply Z.ltb_lt; lia).
  rewrite Hlt.
  repeat (match goal with |- context [if ?c then _ else _] => destruct c end);
    reflexivity.
Qed.

Lemma CheckPreconditions_throttle_witness :
  CheckPreconditions (S2.preemptor false) 20000000000 20000000001
  = (true, withAsk (S2.preemptor false)
             (UpdatePreemptCheckTime (ask (S2.preemptor false)) 20000000001))
  /\ fst (CheckPreconditions
            (withAsk (S2.preemptor false)
               (UpdatePreemptCheckTime (ask (S2.preemptor false)) 20000000001))
            34999999999 35000000000) = false.
Proof.
  split; [reflexivity|].
  apply (CheckPreconditions_throttle (S2.preemptor false) _ 20000000000 20000000001);
    [reflexivity | lia | left; reflexivity].
Defined.

(** C9, as the code has it. The test of hasTriggeredPreemption is in the
    gate: CheckPreconditions returns false on an ask whose flag is set and
    leaves the ask, and the rest of the preemptor, as they were. *)
Theorem CheckPreconditions_triggered (p : Preemptor) (now later : Z) :
  hasTriggeredPreemption (ask p) = true ->
  CheckPreconditions p now later = (false, p).
Proof.
  intros H. unfold CheckPreconditions. rewrite H.
  destruct (allowPreemptOther (ask p)); reflexivity.
Qed.

Lemma CheckPreconditions_triggered_witness :
  hasTriggeredPreemption (ask (S2.preemptor true)) = true
  /\ CheckPreconditions (S2.preemptor true) 20000000000 20000000001
     = (false, S2.preemptor true).
Proof.
  split; [reflexivity|].
  apply (CheckPreconditions_triggered (S2.preemptor true)); reflexivity.
Defined.

(** C9, as stated, fails: TryPreemption does not look at the flag. On
    scenario S2 with the flag already set it reserves N1 again, marks V1
    preempted and raises the preempting resource of V1's queue. *)
Lemma TryPreemption_ignores_triggered :
  hasTriggeredPreemption (ask (S2.preemptor true)) = true
  /\ TryPreemption inOrder None queueOfApp (S2.preemptor true) emptyWorld
     <> failed (S2.preemptor true) emptyWorld
  /\ oResult (TryPreemption inOrder None queueOfApp (S2.preemptor true) emptyWorld)
     = Some (Reserved "N1" (askOf (vcore 3) true))
  /\ preemptedAllocations
       (oWorld (TryPreemption inOrder None queueOfApp (S2.preemptor true) emptyWorld))
     = ["V1"%string]
  /\ preemptingResource
       (oWorld (TryPreemption inOrder None queueOfApp (S2.preemptor true) emptyWorld))
     !! "root.B"%string = Some (vcore 3).
Proof.
  split; [reflexivity|]. split.
  - intros H. apply (f_equal oResult) in H. vm_compute in H. discriminate H.
  - repeat split; vm_compute; reflexivity.
Qed.

(** ** Queries on a snapshot *)

Lemma GetPreemptableResource_rec_positive (fuel : nat) (h : Heap) :
  forall (qps : option loc) (r : Resource),
    GetPreemptableResource_rec fuel h qps = Some r ->
    forall k v, r !! k = Some v -> 0 < v.
Proof.
  induction fuel as [|n IH]; intros qps r Hr k v Hk; [discriminate Hr|].
  destruct qps as [l|]; [|discriminate Hr]. simpl in Hr.
  destruct (h !! l) as [q|]; [|discriminate Hr].
  destruct (IsEmpty (AllocatedResource q)); [discriminate Hr|].
  destruct (SubOnlyExisting (SubOnlyExisting (AllocatedResource q) (PreemptingResource q))
              (GuaranteedResource q)) as [actual|]; simpl in Hr.
  2: { destruct (IsEmpty None); discriminate Hr. }
  set (over := filter (fun kv : string * Z => 0 < kv.2) actual) in *.
  assert (Hover : forall k v, over !! k = Some v -> 0 < v).
  { intros k' v' H'. apply map_lookup_filter_Some in H'. exact (proj2 H'). }
  destruct (IsEmpty (Some over)).
  - injection Hr as <-. eauto.
  - destruct (GetPreemptableResource_rec n h (Parent q)) as [pr|] eqn:Hparent; simpl in Hr.
    + injection Hr as <-. rewrite map_lookup_imap in Hk.
      destruct (over !! k) as [u|] eqn:Hu; simpl in Hk; [|discriminate Hk].
      injection Hk as <-. specialize (Hover k u Hu).
      destruct (pr !! k) as [w|] eqn:Hw; [|exact Hover].
      specialize (IH _ _ Hparent k w Hw). lia.
    + injection Hr as <-. eauto.
Qed.

(** C7. Whenever GetPreemptableResource returns a vector (not nil), every
    component present in it is strictly positive. *)
Theorem GetPreemptableResource_positive (h : Heap) (qps : option loc) (r : Resource)
  (k : string) (v : Z) :
  GetPreemptableResource h qps = Some r ->
  r !! k = Some v ->
  0 < v.
Proof.
  intros Hr Hk. exact (GetPreemptableResource_rec_positive _ h qps r Hr k v Hk).
Qed.

Lemma GetPreemptableResource_positive_witness :
  GetPreemptableResource S2.snapshots (Some 2%nat) = Some (vcore 2)
  /\ vcore 2 !! "vcore"%string = Some 2
  /\ 0 < 2.
Proof.
  split; [vm_compute; reflexivity|]. split; [vm_compute; reflexivity|].
  apply (GetPreemptableResource_positive S2.snapshots (Some 2%nat) (vcore 2) "vcore" 2);
    vm_compute; reflexivity.
Defined.

(** C4, as the code has it. An ancestor of the ask queue returns nil when,
    besides the ask queue, the ancestor itself still has a non-empty
    remaining guarantee of its own, and it is not the ask queue. *)
Theorem GetRemainingGuaranteedResource_ancestor_nil (h : Heap) (l a : loc)
  (q aq : QueuePreemptionSnapshot) :
  h !! l = Some q ->
  AskQueue q = Some a ->
  h !! a = Some aq ->
  QueuePath aq <> QueuePath q ->
  IsEmpty (ownRemaining q) = false ->
  String.prefix (QueuePath q) (QueuePath aq) = true ->
  IsEmpty (ownRemaining aq) = false ->
  GetRemainingGuaranteedResource h (Some l) = None.
Proof.
  intros Hl Ha Haq Hpath Hown Hprefix Hask.
  unfold GetRemainingGuaranteedResource.
  destruct (length h) as [|n] eqn:Hlen.
  { apply lookup_lt_Some in Hl. lia. }
  simpl. rewrite Hl, Ha. simpl. rewrite Haq.
  unfold remainingGuaranteedOf, ownRemaining, Clone in *.
  destruct (IsEmpty (GetRemainingGuaranteedResource_rec n h (Parent q))
            && IsEmpty (GuaranteedResource q)); [reflexivity|].
  apply String.eqb_neq in Hpath. rewrite Hpath, Hown, Hprefix, Hask. reflexivity.
Qed.

Lemma GetRemainingGuaranteedResource_ancestor_nil_witness :
  GetRemainingGuaranteedResource S2.snapshots (Some 0%nat) = None.
Proof.
  apply (GetRemainingGuaranteedResource_ancestor_nil S2.snapshots 0%nat 1%nat
           (queueOf None "root" false (vcore 7) (Some (vcore 10)) [] (Some 1%nat))
           (queueOf (Some 0%nat) "root.A" true (vcore 0) (Some (vcore 5)) [] (Some 1%nat)));
    try (vm_compute; reflexivity).
  vm_compute. discriminate.
Defined.

(** C4, as stated, fails, at the ask queue itself and at a queue without a
    guarantee of its own. On S2 the ask queue root.A has its askQueue
    reference set, its path starts with its own path and its remaining
    guarantee is not empty, and it returns its own remaining guarantee. In
    the second tree root.M has no guaranteed resource, its askQueue is
    root.M.A, whose path starts with root.M and whose remaining guarantee is
    not empty, and it returns what its parent has left. *)
Lemma GetRemainingGuaranteedResource_not_nil :
  (S2.snapshots !! 1%nat
   = Some (queueOf (Some 0%nat) "root.A" true (vcore 0) (Some (vcore 5)) [] (Some 1%nat))
   /\ String.prefix "root.A" "root.A" = true
   /\ IsEmpty (ownRemaining
                 (queueOf (Some 0%nat) "root.A" true (vcore 0) (Some (vcore 5)) []
                          (Some 1%nat))) = false
   /\ GetRemainingGuaranteedResource S2.snapshots (Some 1%nat) = Some (vcore 5))
  /\ (Unguarded.snapshots !! 1%nat
      = Some (queueOf (Some 0%nat) "root.M" false (vcore 4) None [] (Some 2%nat))
      /\ Unguarded.snapshots !! 2%nat
         = Some (queueOf (Some 1%nat) "root.M.A" true (vcore 0) (Some (vcore 5)) []
                         (Some 2%nat))
      /\ String.prefix "root.M" "root.M.A" = true
      /\ IsEmpty (ownRemaining
                    (queueOf (Some 1%nat) "root.M.A" true (vcore 0) (Some (vcore 5)) []
                             (Some 2%nat))) = false
      /\ GetRemainingGuaranteedResource Unguarded.snapshots (Some 1%nat)
         = Some (vcore 6)).
Proof. repeat split; vm_compute; reflexivity. Qed.

(** ** The per-node victim calculator *)

Section PerNode.

Variable rangeOrder : nat -> forall A : Type, list (string * A) -> list (string * A).

Lemma secondPassInvariant_keep available askResource st h :
  secondPassInvariant available askResource st ->
  secondPassInvariant available askResource
    {| spHeap := h; spAvailable := spAvailable st;
       spResults := spResults st; spIndex := spIndex st |}.
Proof. intros H. exact H. Qed.

Lemma secondPassInvariant_append available askResource st h victim :
  secondPassInvariant available askResource st ->
  secondPassInvariant available askResource
    {| spHeap := h;
       spAvailable := addInto (spAvailable st) (allocatedResource victim);
       spResults := spResults st ++ [victim];
       spIndex :=
         if FitIn (Some (addInto (spAvailable st) (allocatedResource victim))) askResource
            && (spIndex st <? 0)
         then Z.of_nat (length (spResults st)) else spIndex st |}.
Proof.
  intros [Havail Hidx]. unfold secondPassInvariant. simpl.
  assert (Hnew : addInto (spAvailable st) (allocatedResource victim)
                 = availableAfter available (spResults st ++ [victim])).
  { by rewrite availableAfter_snoc, Havail. }
  split; [exact Hnew|].
  assert (Hshort : forall n : nat, (n <= length (spResults st))%nat ->
            take n (spResults st ++ [victim]) = take n (spResults st)).
  { intros n Hn. by apply take_app_le. }
  destruct Hidx as [[Hminus Hnever] | (Hrange & Hfit & Hless)].
  - rewrite Hminus. simpl (-1 <? 0). rewrite andb_true_r.
    destruct (FitIn _ askResource) eqn:Hfit.
    + right. split; [|split].
      * rewrite length_app. simpl. lia.
      * rewrite Nat2Z.id, take_ge by (rewrite length_app; simpl; lia).
        by rewrite <- Hnew.
      * intros n Hn. rewrite Nat2Z.id in Hn. rewrite Hshort by exact Hn. apply Hnever.
    + left. split; [reflexivity|]. intros n.
      destruct (decide (n <= length (spResults st))%nat) as [Hn|Hn].
      * rewrite Hshort by exact Hn. apply Hnever.
      * rewrite take_ge by (rewrite length_app; simpl; lia). by rewrite <- Hnew.
  - assert (Hpos : (spIndex st <? 0) = false) by (apply Z.ltb_ge; lia).
    rewrite Hpos, andb_false_r. right. split; [|split].
    + rewrite length_app. simpl. lia.
    + rewrite Hshort by lia. exact Hfit.
    + intros n Hn. rewrite Hshort by lia. apply Hless, Hn.
Qed.

Lemma secondPass_invariant p ws snap available :
  forall head st,
    secondPassInvariant available (allocatedResource (ask p)) st ->
    secondPassInvariant available (allocatedResource (ask p))
      (secondPass p ws snap head st).
Proof.
  induction head as [|victim rest IH]; intros st Hst; simpl; [exact Hst|].
  destruct (snapshotOfVictim ws (spHeap st) snap victim) as [queueSnapshot|];
    [|by apply IH].
  destruct (keepsQueueOverGuarantee _ _); apply IH.
  - by apply secondPassInvariant_append.
  - by apply secondPassInvariant_keep.
Qed.

(** C3, as the code has it. When calculateVictimsByNode returns a
    non-negative index with a victim list, the index lies in
    [0, len(victims) - 1] and is the position of the victim that first makes
    the ask fit: with the allocated resources of the first index + 1 victims
    added to the node's available the ask fits, and with those of any
    shorter prefix, the empty one included, it does not. *)
Theorem calculateVictimsByNode_index (p : Preemptor) (ws : WorkingState)
  (nodeAvailable : Resource) (potentialVictims victims : list Allocation) (idx : Z) :
  calculateVictimsByNode rangeOrder p ws nodeAvailable potentialVictims
  = (idx, Some victims) ->
  0 <= idx ->
  firstFitAt nodeAvailable (allocatedResource (ask p)) victims idx.
Proof.
  unfold calculateVictimsByNode. intros H Hidx.
  destruct (FitIn (Some nodeAvailable) (allocatedResource (ask p))) eqn:Hfast.
  { injection H as <- _. lia. }
  destruct (duplicateQueueSnapshots rangeOrder 3 p) as [h1 snap1].
  destruct (snap1 !! queuePath p) as [askQueue|]; [|discriminate H].
  destruct (bool_decide _); [discriminate H|].
  destruct (duplicateQueueSnapshots rangeOrder 4 p) as [h2 snap2].
  destruct (snap2 !! queuePath p) as [askQueue2|]; [|discriminate H].
  match type of H with
  | context [secondPass p ws snap2 ?head ?st0] =>
      pose proof (secondPass_invariant p ws snap2 nodeAvailable head st0) as Hinv;
      destruct (secondPass p ws snap2 head st0) as [h3 available results index]
  end.
  simpl in H. destruct (index <? 0) eqn:Hneg; [discriminate H|].
  injection H as <- <-.
  destruct Hinv as [_ [[Hminus _] | Hfirst]].
  - split; [reflexivity|]. left. split; [reflexivity|].
    intros n. simpl. rewrite take_nil. exact Hfast.
  - simpl in Hminus. apply Z.ltb_ge in Hneg. lia.
  - exact Hfirst.
Qed.

End PerNode.

Lemma calculateVictimsByNode_index_witness :
  calculateVictimsByNode inOrder (S2.preemptor false)
    (initWorkingState inOrder (S2.preemptor false)) (vcore 0) [S2.V1]
  = (0, Some [S2.V1])
  /\ firstFitAt (vcore 0) (vcore 3) [S2.V1] 0.
Proof.
  split; [vm_compute; reflexivity|].
  apply (calculateVictimsByNode_index inOrder (S2.preemptor false)
           (initWorkingState inOrder (S2.preemptor false)) (vcore 0) [S2.V1] [S2.V1] 0);
    [vm_compute; reflexivity | lia].
Defined.

(** C3, as stated, fails: on node N1 of scenario S2 the calculator returns
    index 0 with the list [V1]; the ask does not fit with the first 0
    victims gone, it fits once V1 is gone. *)
Lemma calculateVictimsByNode_index_not_prefix_length :
  calculateVictimsByNode inOrder (S2.preemptor false)
    (initWorkingState inOrder (S2.preemptor false)) (vcore 0) [S2.V1]
  = (0, Some [S2.V1])
  /\ FitIn (Some (availableAfter (vcore 0) (take 0 [S2.V1])))
           (allocatedResource (ask (S2.preemptor false))) = false
  /\ FitIn (Some (availableAfter (vcore 0) (take 1 [S2.V1])))
           (allocatedResource (ask (S2.preemptor false))) = true.
Proof. repeat split; vm_compute; reflexivity. Qed.

(** ** Mutations of a snapshot tree *)

Lemma AddAllocation_rec_updateUsage (r : Resource) (fuel : nat) :
  forall h qps,
    AddAllocation_rec fuel h qps r = updateUsage (fun a => AddTo a r) fuel h qps.
Proof.
  induction fuel as [|n IH]; intros h qps; [reflexivity|].
  destruct qps as [l|]; [|reflexivity]. simpl.
  destruct (h !! l); [|reflexivity]. by rewrite IH.
Qed.

Lemma RemoveAllocation_rec_updateUsage (r : Resource) (fuel : nat) :
  forall h qps,
    RemoveAllocation_rec fuel h qps r = updateUsage (fun a => SubFrom a r) fuel h qps.
Proof.
  induction fuel as [|n IH]; intros h qps; [reflexivity|].
  destruct qps as [l|]; [|reflexivity]. simpl.
  destruct (h !! l); [|reflexivity]. by rewrite IH.
Qed.

Lemma sameButAllocated_refl q : sameButAllocated q q.
Proof. unfold sameButAllocated. by destruct q. Qed.

Lemma sameButAllocated_trans q1 q2 q3 :
  sameButAllocated q1 q2 -> sameButAllocated q2 q3 -> sameButAllocated q1 q3.
Proof.
  unfold sameButAllocated. intros H12 H23. rewrite H23. rewrite H12 at 1. reflexivity.
Qed.

Lemma sameButAllocated_withAllocated q x : sameButAllocated q (withAllocated q x).
Proof. reflexivity. Qed.

Lemma sameButAllocated_Parent q q' : sameButAllocated q q' -> Parent q' = Parent q.
Proof. intros ->. reflexivity. Qed.

Lemma usageOnly_refl h : usageOnly h h.
Proof. split; [reflexivity|]. intros a q Ha. exists q. eauto using sameButAllocated_refl. Qed.

Lemma usageOnly_trans h1 h2 h3 : usageOnly h1 h2 -> usageOnly h2 h3 -> usageOnly h1 h3.
Proof.
  intros [Hlen12 H12] [Hlen23 H23]. split; [congruence|].
  intros a q1 Ha. destruct (H12 a q1 Ha) as (q2 & Ha2 & Hq2).
  destruct (H23 a q2 Ha2) as (q3 & Ha3 & Hq3).
  exists q3. eauto using sameButAllocated_trans.
Qed.

Lemma usageOnly_insert (h : Heap) l q x :
  h !! l = Some q -> usageOnly h (<[l := withAllocated q x]> h).
Proof.
  intros Hl. split; [apply length_insert|].
  intros a qa Ha. destruct (decide (a = l)) as [->|Hne].
  - rewrite list_lookup_insert_eq by (by eapply lookup_lt_Some).
    exists (withAllocated q x). split; [reflexivity|].
    assert (qa = q) as -> by congruence. reflexivity.
  - rewrite list_lookup_insert_ne by congruence.
    exists qa. eauto using sameButAllocated_refl.
Qed.

Lemma usageOnly_lookup_None (h h' : Heap) a :
  usageOnly h h' -> h !! a = None -> h' !! a = None.
Proof.
  intros [Hlen _] Ha. apply lookup_ge_None. apply lookup_ge_None in Ha. lia.
Qed.

Lemma updateUsage_usageOnly f (fuel : nat) :
  forall h qps, usageOnly h (updateUsage f fuel h qps).
Proof.
  induction fuel as [|n IH]; intros h qps; [apply usageOnly_refl|].
  destruct qps as [l|]; [|apply usageOnly_refl]. simpl.
  destruct (h !! l) as [q|]; [|apply usageOnly_refl].
  specialize (IH h (Parent q)).
  destruct (updateUsage f n h (Parent q) !! l) as [q1|] eqn:Hl1; [|exact IH].
  eapply usageOnly_trans; [exact IH|]. by apply usageOnly_insert.
Qed.

(** A mutation that enters a region closed under the Parent links leaves
    the snapshots outside the region as they are. *)
Lemma updateUsage_frame (P : loc -> Prop) f (fuel : nat) :
  forall (h : Heap) (qps : option loc),
    (forall l q p, P l -> h !! l = Some q -> Parent q = Some p -> P p) ->
    (forall l, qps = Some l -> P l) ->
    forall a, ~ P a -> updateUsage f fuel h qps !! a = h !! a.
Proof.
  induction fuel as [|n IH]; intros h qps Hclosed Hin a Ha; [reflexivity|].
  destruct qps as [l|]; [|reflexivity]. simpl.
  destruct (h !! l) as [q|] eqn:Hl; [|reflexivity].
  assert (Hparent : updateUsage f n h (Parent q) !! a = h !! a).
  { apply IH; [exact Hclosed| |exact Ha].
    intros p Hp. eapply Hclosed; eauto. }
  destruct (updateUsage f n h (Parent q) !! l) as [q1|]; [|exact Hparent].
  rewrite list_lookup_insert_ne; [exact Hparent|].
  intros ->. apply Ha, Hin. reflexivity.
Qed.

Lemma heap_ok_spec (h : Heap) :
  heap_ok h = true <->
  forall l q p, h !! l = Some q -> Parent q = Some p -> (p < l)%nat.
Proof.
  unfold heap_ok. rewrite forallb_forall. split.
  - intros H l q p Hl Hp.
    specialize (H (l, q)). simpl in H. rewrite Hp in H.
    eapply bool_decide_eq_true_1, H.
    apply list_elem_of_In, elem_of_lookup_imap. eauto.
  - intros H [l q] Hin. simpl.
    apply list_elem_of_In, elem_of_lookup_imap in Hin.
    destruct Hin as (i & x & Heq & Hi). injection Heq as -> ->.
    destruct (Parent x) as [p|] eqn:Hp; [|reflexivity].
    apply bool_decide_eq_true. eauto.
Qed.

Lemma usageOnly_heap_ok h h' : usageOnly h h' -> heap_ok h = true -> heap_ok h' = true.
Proof.
  intros Hu. rewrite !heap_ok_spec. intros Hok l q' p Hl Hp.
  destruct (h !! l) as [q|] eqn:Hq.
  - destruct (proj2 Hu l q Hq) as (q'' & Hl' & Hsame).
    assert (q'' = q') as -> by congruence.
    apply sameButAllocated_Parent in Hsame. eapply Hok; [exact Hq|congruence].
  - rewrite (usageOnly_lookup_None _ _ _ Hu Hq) in Hl. discriminate Hl.
Qed.

Lemma lineage_rec_usageOnly h h' (fuel : nat) :
  usageOnly h h' -> forall qps, lineage_rec fuel h' qps = lineage_rec fuel h qps.
Proof.
  intros Hu. induction fuel as [|n IH]; intros qps; [reflexivity|].
  destruct qps as [l|]; [|reflexivity]. cbn [lineage_rec].
  destruct (h !! l) as [q|] eqn:Hq.
  - destruct (proj2 Hu l q Hq) as (q' & -> & Hsame).
    by rewrite IH, (sameButAllocated_Parent _ _ Hsame).
  - by rewrite (usageOnly_lookup_None _ _ _ Hu Hq).
Qed.

Lemma lineage_rec_bound (h : Heap) :
  heap_ok h = true ->
  forall (fuel : nat) l a, a ∈ lineage_rec fuel h (Some l) -> (a <= l)%nat.
Proof.
  rewrite heap_ok_spec. intros Hok.
  induction fuel as [|n IH]; intros l a Ha; [by apply elem_of_nil in Ha|].
  simpl in Ha. destruct (h !! l) as [q|] eqn:Hq; [|by apply elem_of_nil in Ha].
  apply elem_of_cons in Ha as [->|Ha]; [lia|].
  destruct (Parent q) as [p|] eqn:Hp.
  - specialize (IH p a Ha). specialize (Hok l q p Hq Hp). lia.
  - destruct n; by apply elem_of_nil in Ha.
Qed.

(** The lineage holds the receiver and is closed under the Parent links:
    the fuel the callers pass reaches every ancestor. *)
Lemma lineage_closed (h : Heap) :
  heap_ok h = true ->
  forall (fuel : nat) l a q p,
    (l < fuel)%nat ->
    a ∈ lineage_rec fuel h (Some l) ->
    h !! a = Some q -> Parent q = Some p ->
    p ∈ lineage_rec fuel h (Some l).
Proof.
  intros Hok. pose proof (proj1 (heap_ok_spec h) Hok) as Hlt.
  induction fuel as [|n IH]; intros l a q p Hfuel Ha Hq Hp; [lia|].
  simpl in Ha |- *. destruct (h !! l) as [ql|] eqn:Hl; [|by apply elem_of_nil in Ha].
  apply elem_of_cons. right.
  apply elem_of_cons in Ha as [->|Ha].
  - assert (ql = q) as -> by congruence. rewrite Hp.
    specialize (Hlt l q p Hl Hp).
    destruct n as [|n]; [lia|]. simpl.
    destruct (lookup_lt_is_Some_2 h p) as [qp ->];
      [apply lookup_lt_Some in Hl; lia|].
    apply elem_of_cons. by left.
  - destruct (Parent ql) as [pl|] eqn:Hpl.
    + specialize (Hlt l ql pl Hl Hpl). eapply IH; eauto. lia.
    + destruct n; by apply elem_of_nil in Ha.
Qed.

Lemma updateUsage_lookup f (h : Heap) :
  heap_ok h = true ->
  forall (fuel : nat) qps a,
    updateUsage f fuel h qps !! a
    = if bool_decide (a ∈ lineage_rec fuel h qps)
      then (fun q => withAllocated q (f (AllocatedResource q))) <$> h !! a
      else h !! a.
Proof.
  intros Hok. pose proof (proj1 (heap_ok_spec h) Hok) as Hlt.
  induction fuel as [|n IH]; intros qps a.
  { cbn [updateUsage lineage_rec].
    rewrite bool_decide_eq_false_2; [reflexivity|]. destruct qps; apply not_elem_of_nil. }
  destruct qps as [l|].
  2: { cbn [updateUsage lineage_rec].
       rewrite bool_decide_eq_false_2; [reflexivity|apply not_elem_of_nil]. }
  cbn [updateUsage lineage_rec]. destruct (h !! l) as [q|] eqn:Hl.
  2: { rewrite bool_decide_eq_false_2; [reflexivity|apply not_elem_of_nil]. }
  assert (Hnotin : l ∉ lineage_rec n h (Parent q)).
  { destruct (Parent q) as [p|] eqn:Hp.
    - intros Hin. apply (lineage_rec_bound h Hok) in Hin.
      specialize (Hlt l q p Hl Hp). lia.
    - destruct n; apply not_elem_of_nil. }
  pose proof (IH (Parent q) l) as Hself.
  rewrite bool_decide_eq_false_2 in Hself by exact Hnotin.
  rewrite Hself, Hl.
  destruct (decide (a = l)) as [->|Hne].
  - rewrite list_lookup_insert_eq.
    + rewrite bool_decide_eq_true_2 by (apply elem_of_cons; by left).
      by rewrite Hl.
    + rewrite (proj1 (updateUsage_usageOnly f n h (Parent q))).
      by eapply lookup_lt_Some.
  - rewrite list_lookup_insert_ne by congruence. rewrite IH.
    destruct (decide (a ∈ lineage_rec n h (Parent q))) as [Hin|Hin].
    + rewrite !bool_decide_eq_true_2; [reflexivity| |exact Hin].
      apply elem_of_cons. by right.
    + rewrite !bool_decide_eq_false_2; [reflexivity| |exact Hin].
      intros [?|?]%elem_of_cons; congruence.
Qed.

Lemma Equals_true (a b : Resource) :
  Equals (Some a) (Some b) = true <-> forall k, quantity a k = quantity b k.
Proof.
  unfold Equals. rewrite bool_decide_eq_true. split.
  - intros [Hab Hba] k. unfold quantity at 1.
    destruct (a !! k) as [v|] eqn:Ha; simpl; [exact (Hab k v Ha)|].
    unfold quantity. destruct (b !! k) as [w|] eqn:Hb; simpl; [|reflexivity].
    specialize (Hba k w Hb). unfold quantity in Hba. rewrite Ha in Hba. simpl in Hba. lia.
  - intros Hq. split; intros k v Hk.
    + specialize (Hq k). unfold quantity at 1 in Hq. rewrite Hk in Hq. exact Hq.
    + specialize (Hq k). unfold quantity at 2 in Hq. rewrite Hk in Hq. simpl in Hq. lia.
Qed.

Lemma Equals_refl (o : option Resource) : Equals o o = true.
Proof. destruct o as [a|]; [|reflexivity]. by apply Equals_true. Qed.

Lemma Equals_SubFrom_AddTo (m r : Resource) :
  fitsInto m r = true ->
  Equals (SubFrom (AddTo (Some m) r) r) (Some m) = true.
Proof.
  intros Hfit. simpl. apply Equals_true. intros k.
  rewrite (fitsInto_subOutOf _ _ _ Hfit), (fitsInto_addInto _ _ _ Hfit). lia.
Qed.

Lemma allocatedSet_lookup (h : Heap) l a q :
  allocatedSet h l = true -> a ∈ lineage h (Some l) -> h !! a = Some q ->
  exists m, AllocatedResource q = Some m.
Proof.
  unfold allocatedSet. rewrite forallb_forall. intros Hall Ha Hq.
  specialize (Hall a (proj1 (list_elem_of_In _ _) Ha)).
  apply bool_decide_eq_true_1 in Hall. rewrite Hq in Hall. exact Hall.
Qed.

Lemma addsWithin_lookup (h : Heap) l r a q m :
  addsWithin h l r = true -> a ∈ lineage h (Some l) -> h !! a = Some q ->
  AllocatedResource q = Some m -> fitsInto m r = true.
Proof.
  unfold addsWithin. rewrite forallb_forall. intros Hall Ha Hq Hm.
  specialize (Hall a (proj1 (list_elem_of_In _ _) Ha)).
  rewrite Hq in Hall. simpl in Hall. by rewrite Hm in Hall.
Qed.

(** C5, as the code has it. As long as the sums stay within int64 and the
    snapshots on the branch carry an allocated resource, AddAllocation(r) on
    a snapshot increases the allocated resource of that snapshot and of
    every ancestor by exactly r, on every component, and changes nothing
    else; RemoveAllocation(r) then decreases the same allocated resources by
    exactly r and, like every RemoveAllocation, changes nothing else; and
    RemoveAllocation(r) after AddAllocation(r) gives back to every snapshot
    the quantities it had. The lineage is the snapshot with all its
    ancestors. *)
Theorem AddAllocation_RemoveAllocation (h : Heap) (l : loc) (r : Resource) :
  heap_ok h = true ->
  allocatedSet h l = true ->
  addsWithin h l r = true ->
  ((l < length h)%nat -> l ∈ lineage h (Some l))
  /\ (forall a q p, a ∈ lineage h (Some l) -> h !! a = Some q -> Parent q = Some p ->
        p ∈ lineage h (Some l))
  /\ (forall a q, a ∈ lineage h (Some l) -> h !! a = Some q ->
     exists q', AddAllocation h (Some l) r !! a = Some q' /\ increasedBy r q q')
  /\ (forall a, a ∉ lineage h (Some l) -> AddAllocation h (Some l) r !! a = h !! a)
  /\ (forall a q, a ∈ lineage h (Some l) -> AddAllocation h (Some l) r !! a = Some q ->
        exists q', RemoveAllocation (AddAllocation h (Some l) r) (Some l) r !! a = Some q'
                   /\ decreasedBy r q q')
  /\ (forall a, a ∉ lineage h (Some l) -> RemoveAllocation h (Some l) r !! a = h !! a)
  /\ (forall a q, h !! a = Some q ->
        exists q', RemoveAllocation (AddAllocation h (Some l) r) (Some l) r !! a = Some q'
                   /\ restored q q').
Proof.
  intros Hok Hset Hfits.
  unfold AddAllocation, RemoveAllocation, lineage in *.
  split; [|split; [|split; [|split; [|split; [|split]]]]].
  - intros Hl. destruct (lookup_lt_is_Some_2 h l Hl) as [q Hq].
    destruct (length h) as [|n]; [lia|]. cbn [lineage_rec].
    rewrite Hq. apply elem_of_cons. by left.
  - intros a q p Ha Hq Hp.
    destruct (decide (l < length h)%nat) as [Hl|Hl].
    + by eapply lineage_closed.
    + pose proof (lookup_ge_None_2 h l ltac:(lia)) as Hnone.
      destruct (length h) as [|n]; [by apply elem_of_nil in Ha|]. cbn [lineage_rec] in Ha.
      rewrite Hnone in Ha. by apply elem_of_nil in Ha.
  - intros a q Ha Hq. rewrite AddAllocation_rec_updateUsage, updateUsage_lookup by exact Hok.
    rewrite bool_decide_eq_true_2, Hq by exact Ha. eexists. split; [reflexivity|].
    split; [reflexivity|].
    destruct (allocatedSet_lookup h l a q Hset Ha Hq) as [m Hm].
    exists m, (addInto m r). simpl. rewrite Hm. split; [reflexivity|].
    split; [reflexivity|]. intros k. apply fitsInto_addInto.
    by eapply (addsWithin_lookup h l r a q m).
  - intros a Ha. rewrite AddAllocation_rec_updateUsage, updateUsage_lookup by exact Hok.
    by rewrite bool_decide_eq_false_2.
  - intros a q1 Ha.
    rewrite AddAllocation_rec_updateUsage.
    pose proof (updateUsage_usageOnly (fun x => AddTo x r) (length h) h (Some l)) as Hu.
    set (added := updateUsage (fun x => AddTo x r) (length h) h (Some l)) in *.
    intros Hq1.
    rewrite RemoveAllocation_rec_updateUsage,
      updateUsage_lookup by (by eapply usageOnly_heap_ok).
    rewrite (proj1 Hu), (lineage_rec_usageOnly h added _ Hu).
    rewrite bool_decide_eq_true_2, Hq1 by exact Ha. eexists. split; [reflexivity|].
    split; [reflexivity|].
    unfold added in Hq1. rewrite updateUsage_lookup in Hq1 by exact Hok.
    rewrite bool_decide_eq_true_2 in Hq1 by exact Ha.
    destruct (h !! a) as [q|] eqn:Hq; [|discriminate Hq1]. injection Hq1 as <-.
    destruct (allocatedSet_lookup h l a q Hset Ha Hq) as [m Hm].
    pose proof (addsWithin_lookup h l r a q m Hfits Ha Hq Hm) as Hfit.
    exists (addInto m r), (subOutOf (addInto m r) r). simpl. rewrite Hm.
    split; [reflexivity|]. split; [reflexivity|]. intros k.
    by apply fitsInto_subOutOf.
  - intros a Ha. rewrite RemoveAllocation_rec_updateUsage, updateUsage_lookup by exact Hok.
    by rewrite bool_decide_eq_false_2.
  - intros a q Hq.
    rewrite AddAllocation_rec_updateUsage.
    pose proof (updateUsage_usageOnly (fun x => AddTo x r) (length h) h (Some l)) as Hu.
    set (added := updateUsage (fun x => AddTo x r) (length h) h (Some l)) in *.
    rewrite RemoveAllocation_rec_updateUsage,
      updateUsage_lookup by (by eapply usageOnly_heap_ok).
    rewrite (proj1 Hu), (lineage_rec_usageOnly h added _ Hu).
    unfold added. rewrite updateUsage_lookup by exact Hok.
    destruct (bool_decide (a ∈ lineage_rec (length h) h (Some l))) eqn:Ha; rewrite Hq; simpl.
    + apply bool_decide_eq_true in Ha.
      eexists. split; [reflexivity|]. split; [reflexivity|]. simpl.
      destruct (allocatedSet_lookup h l a q Hset Ha Hq) as [m Hm]. rewrite Hm.
      apply Equals_SubFrom_AddTo. by eapply (addsWithin_lookup h l r a q m).
    + exists q. split; [reflexivity|].
      split; [apply sameButAllocated_refl|apply Equals_refl].
Qed.

Lemma AddAllocation_RemoveAllocation_witness :
  heap_ok S2.snapshots = true
  /\ allocatedSet S2.snapshots 2%nat = true
  /\ addsWithin S2.snapshots 2%nat (vcore 3) = true
  /\ lineage S2.snapshots (Some 2%nat) = [2%nat; 0%nat]
  /\ (forall a q, S2.snapshots !! a = Some q ->
        exists q', RemoveAllocation (AddAllocation S2.snapshots (Some 2%nat) (vcore 3))
                     (Some 2%nat) (vcore 3) !! a = Some q'
                   /\ restored q q').
Proof.
  split; [reflexivity|]. split; [reflexivity|]. split; [vm_compute; reflexivity|].
  split; [reflexivity|].
  apply (AddAllocation_RemoveAllocation S2.snapshots 2%nat (vcore 3));
    vm_compute; reflexivity.
Defined.

(** C5, as stated, fails where a sum leaves int64 and where a snapshot has
    no allocated resource. A queue that uses 7 vcore is given the largest
    quantity: its usage becomes the largest quantity, not 7 more than it, and
    taking the same quantity off again leaves 0, not 7. A queue whose
    allocated resource is nil keeps it nil when 3 vcore are added. *)
Lemma AddAllocation_RemoveAllocation_saturates :
  (AllocatedResource <$> Lone.snapshots !! 0%nat = Some (Some (vcore 7))
   /\ AllocatedResource <$> AddAllocation Lone.snapshots (Some 0%nat) (vcore MaxInt64) !! 0%nat
      = Some (Some (vcore MaxInt64))
   /\ AllocatedResource
        <$> RemoveAllocation (AddAllocation Lone.snapshots (Some 0%nat) (vcore MaxInt64))
              (Some 0%nat) (vcore MaxInt64) !! 0%nat
      = Some (Some (vcore 0)))
  /\ (AllocatedResource <$> Lone.unallocated !! 0%nat = Some None
      /\ AllocatedResource <$> AddAllocation Lone.unallocated (Some 0%nat) (vcore 3) !! 0%nat
         = Some None).
Proof. repeat split; vm_compute; reflexivity. Qed.

(** ** Duplication of a snapshot tree *)

Lemma copied_trans q1 q2 q3 : copied q1 q2 -> copied q2 q3 -> copied q1 q3.
Proof.
  unfold copied. intros H12 H23. rewrite H23. rewrite H12 at 1 2 3 4 5 6 7 8.
  reflexivity.
Qed.

(** What a call of Duplicate adds to the heap: the heap grows at its end,
    every new snapshot has the fields of a snapshot that was there, and,
    when the map holds only addresses from [b] on, so do the new map, the
    result, and the parent links of the new snapshots. *)
Lemma Duplicate_rec_spec (b : nat) (fuel : nat) :
  forall (h : Heap) (copy : gmap string loc) (qps : option loc) h' copy' res,
    Duplicate_rec fuel h copy qps = (h', copy', res) ->
    (b <= length h)%nat ->
    (forall k v, copy !! k = Some v -> (b <= v)%nat) ->
    exists new,
      h' = h ++ new
      /\ Forall (fun q' => (forall p, Parent q' = Some p -> (b <= p)%nat)
                           /\ exists q, q ∈ h /\ copied q q') new
      /\ (forall k v, copy' !! k = Some v -> (b <= v)%nat)
      /\ (forall x, res = Some x -> (b <= x)%nat).
Proof.
  induction fuel as [|n IH]; intros h copy qps h' copy' res H Hb Hcopy.
  { injection H as <- <- <-. exists []. rewrite app_nil_r. repeat split; eauto. discriminate. }
  destruct qps as [l|].
  2: { injection H as <- <- <-. exists []. rewrite app_nil_r.
       repeat split; eauto. discriminate. }
  cbn [Duplicate_rec] in H. destruct (h !! l) as [q|] eqn:Hl.
  2: { injection H as <- <- <-. exists []. rewrite app_nil_r.
       repeat split; eauto. discriminate. }
  destruct (copy !! QueuePath q) as [existing|] eqn:Hexisting.
  { injection H as <- <- <-. exists []. rewrite app_nil_r.
    repeat split; eauto. intros x [= <-]. eauto. }
  assert (Hq : q ∈ h) by (eapply list_elem_of_lookup_2; exact Hl).
  destruct (Parent q) as [pl|] eqn:Hp.
  - destruct (Duplicate_rec n h copy (Some pl)) as [[h1 copy1] res1] eqn:E1.
    destruct (Duplicate_rec n h1 copy1 (Some pl)) as [[h2 copy2] parent] eqn:E2.
    injection H as <- <- <-.
    destruct (IH _ _ _ _ _ _ E1 Hb Hcopy) as (new1 & -> & Hnew1 & Hcopy1 & _).
    assert (Hb1 : (b <= length (h ++ new1))%nat) by (rewrite length_app; lia).
    destruct (IH _ _ _ _ _ _ E2 Hb1 Hcopy1) as (new2 & -> & Hnew2 & Hcopy2 & Hparent).
    exists (new1 ++ new2 ++ [ {| Parent := parent;
                                 QueuePath := QueuePath q;
                                 Leaf := Leaf q;
                                 AllocatedResource := Clone (AllocatedResource q);
                                 PreemptingResource := Clone (PreemptingResource q);
                                 MaxResource := Clone (MaxResource q);
                                 GuaranteedResource := Clone (GuaranteedResource q);
                                 PotentialVictims := PotentialVictims q;
                                 AskQueue := AskQueue q |} ]).
    split; [by rewrite <- !app_assoc|]. split; [|split].
    + apply Forall_app. split; [exact Hnew1|]. apply Forall_app. split.
      * eapply Forall_impl; [exact Hnew2|]. intros q' [Hpar (q0 & Hq0 & Hcp)].
        split; [exact Hpar|].
        apply elem_of_app in Hq0 as [Hq0|Hq0]; [eauto|].
        rewrite Forall_forall in Hnew1. destruct (Hnew1 q0 Hq0) as [_ (q1 & Hq1 & Hcp1)].
        exists q1. eauto using copied_trans.
      * apply Forall_singleton. split; [exact Hparent|]. exists q. split; [exact Hq|].
        reflexivity.
    + intros k v Hk. apply lookup_insert_Some in Hk as [[_ <-]|[_ Hk]]; [|eauto].
      rewrite !length_app. lia.
    + intros x [= <-]. rewrite !length_app. lia.
  - injection H as <- <- <-.
    exists [ {| Parent := None;
                QueuePath := QueuePath q;
                Leaf := Leaf q;
                AllocatedResource := Clone (AllocatedResource q);
                PreemptingResource := Clone (PreemptingResource q);
                MaxResource := Clone (MaxResource q);
                GuaranteedResource := Clone (GuaranteedResource q);
                PotentialVictims := PotentialVictims q;
                AskQueue := AskQueue q |} ].
    split; [reflexivity|]. split; [|split].
    + apply Forall_singleton. split; [discriminate|]. exists q. split; [exact Hq|].
      reflexivity.
    + intros k v Hk. apply lookup_insert_Some in Hk as [[_ <-]|[_ Hk]]; [lia|eauto].
    + intros x [= <-]. lia.
Qed.

Lemma duplicateAll_spec (b : nat) (snapshots : list loc) :
  forall (h : Heap) (cache : gmap string loc) h' cache',
    duplicateAll h cache snapshots = (h', cache') ->
    (b <= length h)%nat ->
    (forall k v, cache !! k = Some v -> (b <= v)%nat) ->
    exists new,
      h' = h ++ new
      /\ Forall (fun q' => (forall p, Parent q' = Some p -> (b <= p)%nat)
                           /\ exists q, q ∈ h /\ copied q q') new
      /\ (forall k v, cache' !! k = Some v -> (b <= v)%nat).
Proof.
  unfold duplicateAll.
  induction snapshots as [|snapshot rest IH]; intros h cache h' cache' H Hb Hcache.
  { injection H as <- <-. exists []. rewrite app_nil_r. eauto. }
  cbn [fold_left fst snd] in H.
  destruct (Duplicate h cache (Some snapshot)) as [[h1 cache1] res1] eqn:E1.
  destruct (Duplicate_rec_spec b _ _ _ _ _ _ _ E1 Hb Hcache)
    as (new1 & -> & Hnew1 & Hcache1 & _).
  assert (Hb1 : (b <= length (h ++ new1))%nat) by (rewrite length_app; lia).
  destruct (IH _ _ _ _ H Hb1 Hcache1) as (new2 & -> & Hnew2 & Hcache2).
  exists (new1 ++ new2). split; [by rewrite app_assoc|]. split; [|exact Hcache2].
  apply Forall_app. split; [exact Hnew1|].
  eapply Forall_impl; [exact Hnew2|]. intros q' [Hpar (q0 & Hq0 & Hcp)].
  split; [exact Hpar|].
  apply elem_of_app in Hq0 as [Hq0|Hq0]; [eauto|].
  rewrite Forall_forall in Hnew1. destruct (Hnew1 q0 Hq0) as [_ (q1 & Hq1 & Hcp1)].
  exists q1. eauto using copied_trans.
Qed.

Lemma usageOnly_closed (P : loc -> Prop) (h h' : Heap) :
  usageOnly h h' ->
  (forall l q p, P l -> h !! l = Some q -> Parent q = Some p -> P p) ->
  forall l q p, P l -> h' !! l = Some q -> Parent q = Some p -> P p.
Proof.
  intros Hu Hclosed l q' p Hl Hq' Hp.
  destruct (h !! l) as [q|] eqn:Hq.
  - destruct (proj2 Hu l q Hq) as (q'' & Hq'' & Hsame).
    assert (q'' = q') as -> by congruence.
    apply sameButAllocated_Parent in Hsame. eapply Hclosed; eauto. congruence.
  - rewrite (usageOnly_lookup_None _ _ _ Hu Hq) in Hq'. discriminate Hq'.
Qed.

Lemma mutate_frame (P : loc -> Prop) (ops : list Mutation) :
  forall h : Heap,
    (forall l q p, P l -> h !! l = Some q -> Parent q = Some p -> P p) ->
    (forall op, op ∈ ops -> P (target op)) ->
    forall a, ~ P a -> mutate h ops !! a = h !! a.
Proof.
  unfold mutate. induction ops as [|op ops IH]; intros h Hclosed Hops a Ha; [reflexivity|].
  cbn [fold_left].
  assert (Hop : P (target op)) by (apply Hops, elem_of_cons; by left).
  assert (Hrest : forall op', op' ∈ ops -> P (target op'))
    by (intros op' Hin; apply Hops, elem_of_cons; by right).
  destruct op as [l r|l r]; unfold AddAllocation, RemoveAllocation;
    rewrite ?AddAllocation_rec_updateUsage, ?RemoveAllocation_rec_updateUsage;
    (rewrite IH;
     [apply (updateUsage_frame P); [exact Hclosed|by intros ? [= <-]|exact Ha]
     |eapply usageOnly_closed; [apply updateUsage_usageOnly|exact Hclosed]
     |exact Hrest
     |exact Ha]).
Qed.

(** C6. Duplicating snapshots of a tree into a fresh map builds new
    snapshots only, each with the fields of a snapshot of the tree, and the
    two trees are independent: any sequence of AddAllocation and
    RemoveAllocation applied to snapshots of the duplicate leaves every
    snapshot of the original as it was, so its four resource fields too, and
    any such sequence applied to snapshots of the original leaves every
    snapshot of the duplicate as it was. *)
Theorem Duplicate_independent (h : Heap) (snapshots : list loc) (h' : Heap)
  (cache : gmap string loc) (ops : list Mutation) :
  heap_ok h = true ->
  duplicateAll h ∅ snapshots = (h', cache) ->
  (forall k v, cache !! k = Some v -> (length h <= v)%nat)
  /\ (forall a q', (length h <= a)%nat -> h' !! a = Some q' ->
        exists q, q ∈ h /\ copied q q')
  /\ ((forall op, op ∈ ops -> (length h <= target op)%nat) ->
      forall a q, h !! a = Some q -> mutate h' ops !! a = Some q)
  /\ ((forall op, op ∈ ops -> (target op < length h)%nat) ->
      forall a, (length h <= a)%nat -> mutate h' ops !! a = h' !! a).
Proof.
  intros Hok Hdup. pose proof (proj1 (heap_ok_spec h) Hok) as Hlt.
  destruct (duplicateAll_spec (length h) snapshots h ∅ h' cache Hdup)
    as (new & -> & Hnew & Hcache); [lia|intros k v Hk; by rewrite lookup_empty in Hk|].
  rewrite Forall_forall in Hnew.
  split; [exact Hcache|]. split; [|split].
  - intros a q' Ha Hq'. rewrite lookup_app_r in Hq' by exact Ha.
    apply list_elem_of_lookup_2 in Hq'. exact (proj2 (Hnew q' Hq')).
  - intros Hops a q Hq.
    rewrite (mutate_frame (fun l => (length h <= l)%nat)).
    + by apply lookup_app_l_Some.
    + intros l ql p Hl Hql Hp. rewrite lookup_app_r in Hql by exact Hl.
      apply list_elem_of_lookup_2 in Hql. exact (proj1 (Hnew ql Hql) p Hp).
    + exact Hops.
    + apply lookup_lt_Some in Hq. lia.
  - intros Hops a Ha.
    apply (mutate_frame (fun l => (l < length h)%nat)).
    + intros l ql p Hl Hql Hp. rewrite lookup_app_l in Hql by exact Hl.
      specialize (Hlt l ql p Hql Hp). lia.
    + exact Hops.
    + lia.
Qed.

Lemma Duplicate_independent_witness :
  heap_ok S2.snapshots = true
  /\ (forall a q, S2.snapshots !! a = Some q ->
        mutate (fst (duplicateAll S2.snapshots ∅ [0; 1; 2]%nat))
               [Added 4%nat (vcore 3); Removed 5%nat (vcore 1)] !! a = Some q).
Proof.
  split; [reflexivity|].
  refine (proj1 (proj2 (proj2
            (Duplicate_independent S2.snapshots [0; 1; 2]%nat
               (fst (duplicateAll S2.snapshots ∅ [0; 1; 2]%nat))
               (snd (duplicateAll S2.snapshots ∅ [0; 1; 2]%nat))
               [Added 4%nat (vcore 3); Removed 5%nat (vcore 1)] _ _))) _).
  - reflexivity.
  - vm_compute. reflexivity.
  - intros op Hop. repeat (apply elem_of_cons in Hop as [->|Hop]; [simpl; lia|]).
    by apply elem_of_nil in Hop.
Defined.

(** ** The feasibility check *)

Lemma usageOnly_GuaranteedResource (h h' : Heap) l :
  usageOnly h h' ->
  h' !! l ≫= GuaranteedResource = h !! l ≫= GuaranteedResource.
Proof.
  intros Hu. destruct (h !! l) as [q|] eqn:Hq.
  - destruct (proj2 Hu l q Hq) as (q' & -> & ->). reflexivity.
  - by rewrite (usageOnly_lookup_None _ _ _ Hu Hq).
Qed.

(** A queue whose branch defines no guaranteed resource has no remaining
    guarantee, whatever is allocated. *)
Lemma GetRemainingGuaranteedResource_rec_no_guarantee (h : Heap) (fuel : nat) :
  forall qps,
    Forall (fun g => IsEmpty g = true)
           ((fun l => h !! l ≫= GuaranteedResource) <$> lineage_rec fuel h qps) ->
    GetRemainingGuaranteedResource_rec fuel h qps = None.
Proof.
  induction fuel as [|n IH]; intros qps Hall; [reflexivity|].
  destruct qps as [l|]; [|reflexivity].
  cbn [GetRemainingGuaranteedResource_rec lineage_rec] in *.
  destruct (h !! l) as [q|] eqn:Hq; [|reflexivity].
  rewrite fmap_cons, Hq in Hall. apply Forall_cons in Hall as [Hown Hparents].
  rewrite (IH _ Hparents). unfold remainingGuaranteedOf.
  simpl in Hown. by rewrite IsEmpty_None, Hown.
Qed.

Lemma GetRemainingGuaranteedResource_usageOnly_no_guarantee (h h' : Heap) qps :
  Forall (fun g => IsEmpty g = true)
         ((fun l => h !! l ≫= GuaranteedResource) <$> lineage h qps) ->
  usageOnly h h' ->
  GetRemainingGuaranteedResource h' qps = None.
Proof.
  intros Hall Hu. apply GetRemainingGuaranteedResource_rec_no_guarantee.
  rewrite (proj1 Hu), (lineage_rec_usageOnly h h' _ Hu).
  unfold lineage in Hall. rewrite Forall_fmap in Hall |- *.
  eapply Forall_impl; [exact Hall|]. intros l Hl. simpl in *.
  by rewrite (usageOnly_GuaranteedResource h h' l Hu).
Qed.

Lemma AddAllocation_usageOnly h qps r : usageOnly h (AddAllocation h qps r).
Proof.
  unfold AddAllocation. rewrite AddAllocation_rec_updateUsage. apply updateUsage_usageOnly.
Qed.

Lemma RemoveAllocation_usageOnly h qps r : usageOnly h (RemoveAllocation h qps r).
Proof.
  unfold RemoveAllocation. rewrite RemoveAllocation_rec_updateUsage.
  apply updateUsage_usageOnly.
Qed.

Lemma removeUntilGuaranteed_no_guarantee (h0 : Heap) (currentQueue snapshot : loc) :
  (forall h, usageOnly h0 h -> GetRemainingGuaranteedResource h (Some currentQueue) = None) ->
  forall victims h,
    usageOnly h0 h ->
    snd (removeUntilGuaranteed h currentQueue snapshot victims) = false
    /\ usageOnly h0 (fst (removeUntilGuaranteed h currentQueue snapshot victims)).
Proof.
  intros Hnil. induction victims as [|alloc rest IH]; intros h Hu; [by split|].
  cbn [removeUntilGuaranteed].
  assert (Hu1 : usageOnly h0 (RemoveAllocation h (Some snapshot) (allocatedResource alloc)))
    by (eapply usageOnly_trans; [exact Hu|apply RemoveAllocation_usageOnly]).
  rewrite (Hnil _ Hu1).
  rewrite bool_decide_eq_false_2 by (intros [? ?]; discriminate).
  cbn [andb]. by apply IH.
Qed.

Lemma removeFromQueues_no_guarantee (h0 : Heap) (currentQueue : loc) :
  (forall h, usageOnly h0 h -> GetRemainingGuaranteedResource h (Some currentQueue) = None) ->
  forall queues h,
    usageOnly h0 h -> removeFromQueues h currentQueue queues = false.
Proof.
  intros Hnil. induction queues as [|entry rest IH]; intros h Hu; [reflexivity|].
  cbn [removeFromQueues].
  destruct (removeUntilGuaranteed_no_guarantee h0 currentQueue entry.2 Hnil
              (default [] (PotentialVictims <$> h !! entry.2)) h Hu) as [Hok Hu1].
  destruct (removeUntilGuaranteed h currentQueue entry.2 _) as [h1 ok].
  simpl in Hok, Hu1. subst ok. by apply IH.
Qed.

Section Orchestrator.

Variable rangeOrder : nat -> forall A : Type, list (string * A) -> list (string * A).
Variable rmCallback :
  option (list si.PreemptionPredicatesArgs -> option check.predicateCheckResult).
Variable FindQueueByAppID : string -> option string.

Lemma checkPreemptionQueueGuarantees_no_guarantee (p : Preemptor) :
  forallb IsEmpty (askBranchGuarantees rangeOrder p) = true ->
  checkPreemptionQueueGuarantees rangeOrder p = false.
Proof.
  unfold askBranchGuarantees, checkPreemptionQueueGuarantees.
  destruct (duplicateQueueSnapshots rangeOrder 1 p) as [h queues].
  intros Hall. destruct (queues !! queuePath p) as [currentQueue|]; [|reflexivity].
  rewrite forallb_forall in Hall.
  apply (removeFromQueues_no_guarantee h); [|apply AddAllocation_usageOnly].
  intros h1 Hu. apply (GetRemainingGuaranteedResource_usageOnly_no_guarantee h); [|exact Hu].
  apply Forall_forall. intros g Hg. apply Hall, list_elem_of_In, Hg.
Qed.

(** C10. When no snapshot on the branch of the ask queue (the ask queue and
    its ancestors, in the working copy of the snapshots) defines a
    guaranteed resource, the guaranteed resource of each being nil or
    without any component, TryPreemption returns (nil, false) and commits
    nothing. A guaranteed resource with a component, be it zero, is a
    guarantee that is defined, and is not covered. *)
Theorem TryPreemption_no_guarantee (p : Preemptor) (w : World) :
  forallb IsEmpty (askBranchGuarantees rangeOrder p) = true ->
  TryPreemption rangeOrder rmCallback FindQueueByAppID p w = failed p w.
Proof.
  intros Hall. unfold TryPreemption.
  by rewrite (checkPreemptionQueueGuarantees_no_guarantee p Hall).
Qed.

End Orchestrator.

Lemma TryPreemption_no_guarantee_witness :
  forallb IsEmpty (askBranchGuarantees inOrder NoGuarantee.preemptor) = true
  /\ TryPreemption inOrder None queueOfApp NoGuarantee.preemptor emptyWorld
     = failed NoGuarantee.preemptor emptyWorld.
Proof.
  split; [vm_compute; reflexivity|].
  apply (TryPreemption_no_guarantee inOrder None queueOfApp NoGuarantee.preemptor emptyWorld).
  vm_compute. reflexivity.
Defined.

(** ** Scenario S1 *)

(** Without potential victims the feasibility check has nothing to remove
    and fails. *)
Lemma removeFromQueues_no_victims (currentQueue : loc) :
  forall queues (h : Heap),
    (forall a q, h !! a = Some q -> PotentialVictims q = []) ->
    removeFromQueues h currentQueue queues = false.
Proof.
  induction queues as [|entry rest IH]; intros h Hnone; [reflexivity|].
  cbn [removeFromQueues].
  assert (Hv : default [] (PotentialVictims <$> h !! entry.2) = []).
  { destruct (h !! entry.2) as [q|] eqn:Hq; [|reflexivity]. simpl. eauto. }
  rewrite Hv. cbn [removeUntilGuaranteed]. by apply IH.
Qed.

Section NoVictims.

Variable rangeOrder : nat -> forall A : Type, list (string * A) -> list (string * A).
Variable rmCallback :
  option (list si.PreemptionPredicatesArgs -> option check.predicateCheckResult).
Variable FindQueueByAppID : string -> option string.

Lemma checkPreemptionQueueGuarantees_no_victims (p : Preemptor) :
  (forall q, q ∈ heap p -> PotentialVictims q = []) ->
  checkPreemptionQueueGuarantees rangeOrder p = false.
Proof.
  intros Hnone. unfold checkPreemptionQueueGuarantees, duplicateQueueSnapshots.
  destruct (duplicateAll (heap p) ∅ _) as [h queues] eqn:Hdup.
  destruct (duplicateAll_spec 0 _ _ _ _ _ Hdup) as (new & -> & Hnew & _);
    [lia|intros; lia|].
  destruct (queues !! queuePath p) as [currentQueue|]; [|reflexivity].
  apply removeFromQueues_no_victims. intros a q' Hq'.
  pose proof (AddAllocation_usageOnly (heap p ++ new) (Some currentQueue)
                (allocatedResource (ask p))) as Hu.
  destruct ((heap p ++ new) !! a) as [q|] eqn:Hq.
  2: { rewrite (usageOnly_lookup_None _ _ _ Hu Hq) in Hq'. discriminate Hq'. }
  destruct (proj2 Hu a q Hq) as (q'' & Hq'' & Hsame).
  assert (q'' = q') as -> by congruence. rewrite Hsame. simpl.
  apply list_elem_of_lookup_2, elem_of_app in Hq as [Hq|Hq]; [eauto|].
  rewrite Forall_forall in Hnew. destruct (Hnew q Hq) as [_ (q0 & Hq0 & ->)].
  simpl. eauto.
Qed.

(** C2, as the code has it. On scenario S1 the per-node calculator returns
    (-1, empty list) for N1, and TryPreemption returns (nil, false): with no
    potential victim to remove the feasibility check fails; no victim is
    marked preempted and the world is left as it was, whatever the order of
    the ranges and the predicate oracle. *)
Theorem S1_no_preemption (w : World) :
  nodeAvailableMap (initWorkingState rangeOrder S1.preemptor) !! "N1"%string
  = Some (vcore 8)
  /\ calculateVictimsByNode rangeOrder S1.preemptor
       (initWorkingState rangeOrder S1.preemptor) (vcore 8) []
     = (-1, Some [])
  /\ TryPreemption rangeOrder rmCallback FindQueueByAppID S1.preemptor w
     = failed S1.preemptor w
  /\ oFinalVictims (TryPreemption rangeOrder rmCallback FindQueueByAppID S1.preemptor w)
     = []
  /\ oWorld (TryPreemption rangeOrder rmCallback FindQueueByAppID S1.preemptor w) = w.
Proof.
  assert (Hfail : TryPreemption rangeOrder rmCallback FindQueueByAppID S1.preemptor w
                  = failed S1.preemptor w).
  { unfold TryPreemption. rewrite checkPreemptionQueueGuarantees_no_victims; [reflexivity|].
    intros q Hq. unfold S1.preemptor, S1.snapshots in Hq. simpl in Hq.
    repeat (apply elem_of_cons in Hq as [->|Hq]; [reflexivity|]).
    by apply elem_of_nil in Hq. }
  split; [|split; [|split; [exact Hfail|by rewrite Hfail]]].
  - unfold initWorkingState.
    destruct (fold_left _ (range rangeOrder 0 (allocationsByQueue S1.preemptor)) (∅, ∅))
      as [byNode byAlloc].
    vm_compute. reflexivity.
  - unfold calculateVictimsByNode.
    assert (Hfit : FitIn (Some (vcore 8)) (allocatedResource (ask S1.preemptor)) = true)
      by (vm_compute; reflexivity).
    by rewrite Hfit.
Qed.

End NoVictims.

(** C2, as stated, fails: on scenario S1 the per-node calculator returns
    (-1, empty list) but TryPreemption returns (nil, false), not a reserved
    allocation for N1. *)
Lemma S1_not_reserved :
  calculateVictimsByNode inOrder S1.preemptor (initWorkingState inOrder S1.preemptor)
    (vcore 8) []
  = (-1, Some [])
  /\ oResult (TryPreemption inOrder None queueOfApp S1.preemptor emptyWorld) = None
  /\ oResult (TryPreemption inOrder None queueOfApp S1.preemptor emptyWorld)
     <> Some (Reserved "N1" (ask S1.preemptor)).
Proof.
  split; [vm_compute; reflexivity|]. split; [vm_compute; reflexivity|].
  vm_compute. discriminate.
Qed.

(** ** Where the victims come from *)

Lemma fold_left_invariant {A B : Type} (P : A -> Prop) (Q : B -> Prop)
  (f : A -> B -> A) (l : list B) :
  (forall a b, P a -> Q b -> P (f a b)) ->
  Forall Q l -> forall a, P a -> P (fold_left f l a).
Proof.
  intros Hstep Hl. induction Hl as [|b l Hb _ IH]; intros a Ha; [exact Ha|].
  simpl. apply IH, Hstep; assumption.
Qed.

(** A result that populateVictims leaves successful carries a prefix of the
    victims recorded for its node. *)
Lemma populateVictims_success (pcr : option check.predicateCheckResult)
  (victimsByNode : gmap string (list Allocation)) (r : check.predicateCheckResult) :
  populateVictims pcr victimsByNode = Some r -> check.success r = true ->
  exists r0 l,
    pcr = Some r0
    /\ check.nodeID r = check.nodeID r0
    /\ check.allocationKey r = check.allocationKey r0
    /\ victimsByNode !! check.nodeID r0 = Some l
    /\ check.index r0 < Z.of_nat (length l)
    /\ check.victims r = Some (take (Z.to_nat (check.index r0 + 1)) l).
Proof.
  destruct pcr as [r0|]; [|discriminate]. simpl.
  destruct (check.success r0).
  - destruct (victimsByNode !! check.nodeID r0) as [l|] eqn:Hl.
    + destruct (Z.of_nat (length l) <=? check.index r0) eqn:Hidx.
      * intros [= <-]. discriminate.
      * intros [= <-] _. apply Z.leb_gt in Hidx. exists r0, l. by repeat split.
    + intros [= <-]. discriminate.
  - intros [= <-]. discriminate.
Qed.

Section Provenance.

Variable rangeOrder : nat -> forall A : Type, list (string * A) -> list (string * A).
Variable rmCallback :
  option (list si.PreemptionPredicatesArgs -> option check.predicateCheckResult).

(** Any property of allocations, such as having no negative quantity. *)
Variable Good : Allocation -> Prop.

Lemma insertStable_Forall (less : Allocation -> Allocation -> bool) x l :
  Good x -> Forall Good l -> Forall Good (insertStable less x l).
Proof.
  intros Hx Hl. induction Hl as [|y l Hy Hl IH]; simpl.
  - by apply Forall_singleton.
  - destruct (less y x); repeat constructor; assumption.
Qed.

Lemma SliceStable_Forall (less : Allocation -> Allocation -> bool) l :
  Forall Good l -> Forall Good (SliceStable less l).
Proof.
  unfold SliceStable. intros Hl. induction Hl as [|x l Hx Hl IH]; simpl.
  - constructor.
  - by apply insertStable_Forall.
Qed.

Lemma firstPass_Forall p ws snap askQueue :
  forall potentialVictims st,
    Forall Good potentialVictims ->
    Forall Good (fpHead st) -> Forall Good (fpTail st) ->
    Forall Good (fpHead (firstPass p ws snap askQueue potentialVictims st))
    /\ Forall Good (fpTail (firstPass p ws snap askQueue potentialVictims st)).
Proof.
  induction potentialVictims as [|victim rest IH]; intros st Hall Hhead Htail;
    [by split|].
  apply Forall_cons in Hall as [Hv Hrest]. cbn [firstPass].
  destruct (snapshotOfVictim ws (fpHeap st) snap victim); [|by apply IH].
  repeat (match goal with
          | |- context [if ?c then _ else _] => destruct c
          end);
    first [ by split
          | apply IH; simpl; try assumption; apply Forall_app; split;
            try assumption; by apply Forall_singleton ].
Qed.

Lemma secondPass_Forall p ws snap :
  forall head st,
    Forall Good head -> Forall Good (spResults st) ->
    Forall Good (spResults (secondPass p ws snap head st)).
Proof.
  induction head as [|victim rest IH]; intros st Hall Hres; [exact Hres|].
  apply Forall_cons in Hall as [Hv Hrest]. cbn [secondPass].
  destruct (snapshotOfVictim ws (spHeap st) snap victim); [|by apply IH].
  destruct (keepsQueueOverGuarantee _ _); apply IH; simpl; try assumption.
  apply Forall_app. split; [assumption|by apply Forall_singleton].
Qed.

Lemma additionalVictims_Forall ws snap askQueue :
  forall potentialVictims st,
    Forall Good potentialVictims -> Forall Good (tuVictims st) ->
    Forall Good (tuVictims (additionalVictims ws snap askQueue potentialVictims st)).
Proof.
  induction potentialVictims as [|victim rest IH]; intros st Hall Hres; [exact Hres|].
  apply Forall_cons in Hall as [Hv Hrest]. cbn [additionalVictims].
  destruct (snapshotOfVictim ws (tuHeap st) snap victim); [|by apply IH].
  repeat (match goal with
          | |- context [if ?c then _ else _] => destruct c
          end);
    first [ assumption
          | apply IH; simpl; try assumption; apply Forall_app; split;
            try assumption; by apply Forall_singleton ].
Qed.

Lemma calculateVictimsByNode_Forall p ws nodeAvailable potentialVictims idx victims :
  Forall Good potentialVictims ->
  calculateVictimsByNode rangeOrder p ws nodeAvailable potentialVictims
  = (idx, Some victims) ->
  Forall Good victims.
Proof.
  intros Hall. unfold calculateVictimsByNode.
  destruct (FitIn _ _). { intros [= _ <-]. constructor. }
  destruct (duplicateQueueSnapshots rangeOrder 3 p) as [h1 snap1].
  destruct (snap1 !! queuePath p) as [askQueue|]; [|discriminate].
  destruct (bool_decide _); [discriminate|].
  destruct (duplicateQueueSnapshots rangeOrder 4 p) as [h2 snap2].
  destruct (snap2 !! queuePath p) as [askQueue2|]; [|discriminate].
  destruct (_ <? 0); [discriminate|]. intros [= _ <-].
  apply secondPass_Forall; [|constructor].
  match goal with
  | |- context [firstPass p ws snap1 askQueue potentialVictims ?st0] =>
      destruct (firstPass_Forall p ws snap1 askQueue potentialVictims st0 Hall)
        as [Hhead Htail]; [constructor|constructor|]
  end.
  by apply Forall_app.
Qed.

Variable p : Preemptor.

Hypothesis potentialVictimsGood :
  forall q, q ∈ heap p -> Forall Good (PotentialVictims q).

Lemma PotentialVictims_Forall (l : loc) :
  Forall Good (default [] (PotentialVictims <$> heap p !! l)).
Proof.
  destruct (heap p !! l) as [q|] eqn:Hq; simpl; [|constructor].
  apply potentialVictimsGood. by eapply list_elem_of_lookup_2.
Qed.

Lemma initWorkingState_Forall :
  map_Forall (fun _ l => Forall Good l)
             (allocationsByNode (initWorkingState rangeOrder p)).
Proof.
  unfold initWorkingState.
  match goal with
  | |- context [fold_left ?f (range rangeOrder 0 (allocationsByQueue p)) (∅, ∅)] =>
      assert (Hfirst : map_Forall (fun _ l => Forall Good l)
                         (fst (fold_left f (range rangeOrder 0 (allocationsByQueue p))
                                 (∅, ∅))))
  end.
  { apply (fold_left_invariant
             (fun acc : gmap string (list Allocation) * gmap string loc =>
                map_Forall (fun _ l => Forall Good l) acc.1)
             (fun _ => True)).
    - intros acc entry Hacc _.
      apply (fold_left_invariant
               (fun acc : gmap string (list Allocation) * gmap string loc =>
                  map_Forall (fun _ l => Forall Good l) acc.1) Good);
        [|apply PotentialVictims_Forall|exact Hacc].
      intros acc' allocation Hacc' Hgood. simpl.
      apply map_Forall_insert_2; [|exact Hacc'].
      apply Forall_app. split; [|by apply Forall_singleton].
      destruct (acc'.1 !! nodeID allocation) as [l|] eqn:Hl; simpl; [|constructor].
      exact (Hacc' _ _ Hl).
    - apply Forall_forall. intros; exact I.
    - apply map_Forall_empty. }
  destruct (fold_left _ (range rangeOrder 0 (allocationsByQueue p)) (∅, ∅))
    as [byNode byAlloc]. simpl in Hfirst.
  match goal with
  | |- context [fold_left ?f (iterator p) (byNode, ∅)] =>
      assert (Hsecond : map_Forall (fun _ l => Forall Good l)
                          (fst (fold_left f (iterator p) (byNode, ∅))))
  end.
  { apply (fold_left_invariant
             (fun acc : gmap string (list Allocation) * gmap string Resource =>
                map_Forall (fun _ l => Forall Good l) acc.1)
             (fun _ => True)); [|apply Forall_forall; intros; exact I|exact Hfirst].
    intros acc node Hacc _.
    destruct (_ || _); simpl; [by apply map_Forall_delete|exact Hacc]. }
  destruct (fold_left _ (iterator p) (byNode, ∅)) as [byNode2 available].
  simpl in *. unfold sortVictimsForPreemption.
  intros k l Hl. apply lookup_fmap_Some in Hl as (l0 & <- & Hl0).
  apply SliceStable_Forall. exact (Hsecond _ _ Hl0).
Qed.

Lemma tryNodes_Forall node victims :
  tryNodes rangeOrder rmCallback p (initWorkingState rangeOrder p) = Some (node, victims) ->
  Forall Good (default [] victims).
Proof.
  unfold tryNodes.
  match goal with
  | |- context [fold_left ?f ?entries ([], ∅)] =>
      assert (Hby : map_Forall (fun _ vs => Forall Good vs)
                      (snd (fold_left f entries ([], ∅))));
      [|destruct (fold_left f entries ([], ∅)) as [predicateChecks victimsByNode]]
  end.
  { apply (fold_left_invariant
             (fun acc : list si.PreemptionPredicatesArgs * gmap string (list Allocation) =>
                map_Forall (fun _ l => Forall Good l) acc.2)
             (fun _ => True)); [|apply Forall_forall; intros; exact I|apply map_Forall_empty].
    intros acc entry Hacc _.
    destruct (calculateVictimsByNode _ _ _ _ _) as [idx [vs|]] eqn:Hcalc; [|exact Hacc].
    assert (Hvs : Forall Good vs).
    { eapply calculateVictimsByNode_Forall; [|exact Hcalc].
      destruct (allocationsByNode _ !! entry.1) as [l|] eqn:Hl; simpl; [|constructor].
      exact (initWorkingState_Forall _ _ Hl). }
    destruct (_ || _); simpl; by apply map_Forall_insert_2. }
  simpl in Hby. unfold checkPreemptionPredicates.
  assert (Hpop : forall pcr r,
             populateVictims pcr victimsByNode = Some r -> check.success r = true ->
             Forall Good (default [] (check.victims r))).
  { intros pcr r Hr Hs.
    destruct (populateVictims_success _ _ _ Hr Hs) as (r0 & l & _ & Hnode & _ & Hl & _ & ->).
    simpl. apply Forall_take. rewrite ?Hnode. exact (Hby _ _ Hl). }
  destruct (bool_decide _); [discriminate|].
  destruct rmCallback as [plugin|].
  - destruct (populateVictims _ victimsByNode) as [r|] eqn:Hr; [|discriminate].
    destruct (check.success r) eqn:Hs; [|discriminate].
    intros [= <- <-]. eapply Hpop; eauto.
  - destruct (SliceStable checkLess predicateChecks) as [|chk rest]; [discriminate|].
    destruct (populateVictims _ victimsByNode) as [r|] eqn:Hr; [|discriminate].
    destruct (check.success r) eqn:Hs; [|discriminate].
    intros [= <- <-]. eapply Hpop; eauto.
Qed.

Lemma calculateAdditionalVictims_Forall ws nodeVictims extraVictims :
  calculateAdditionalVictims rangeOrder p ws nodeVictims = Some extraVictims ->
  Forall Good extraVictims.
Proof.
  unfold calculateAdditionalVictims.
  destruct (duplicateQueueSnapshots rangeOrder 5 p) as [h snap].
  destruct (snap !! queuePath p) as [askQueue|]; [|discriminate].
  destruct (removeNodeVictims ws snap nodeVictims h ∅) as [h1 seen].
  destruct (_ && _); [|discriminate]. intros [= <-].
  apply additionalVictims_Forall; [|constructor].
  apply SliceStable_Forall.
  apply (fold_left_invariant (Forall Good) (fun _ => True));
    [|apply Forall_forall; intros; exact I|constructor].
  intros acc entry Hacc _.
  apply (fold_left_invariant (Forall Good) Good);
    [|apply PotentialVictims_Forall|exact Hacc].
  intros acc' victim Hacc' Hgood. destruct (bool_decide _); [exact Hacc'|].
  apply Forall_app. split; [exact Hacc'|by apply Forall_singleton].
Qed.

End Provenance.

(** ** The shortfall guard *)




Section ShortfallGuard.

Variable rangeOrder : nat -> forall A : Type, list (string * A) -> list (string * A).
Variable rmCallback :
  option (list si.PreemptionPredicatesArgs -> option check.predicateCheckResult).
Variable FindQueueByAppID : string -> option string.


End ShortfallGuard.



(** The sum of the final victims alone can stay short under the comparison
    of the loop itself, which also counts the victims it does not keep. With
    an ask of 4 vcore and 4 memory and victims of 4 vcore, of 1 memory and
    of 3 memory, the second victim is not kept (the total, 4 vcore, agrees
    with the ask on the component they share) and the third is; the loop
    ends with a total that equals the ask, while the ask is still strictly
    greater than the sum of the first and the third victim. *)
Lemma collectFinalVictims_counts_unkept :
  let v1 := victimOf "V1" "N1" (vcore 4) 10 in
  let v2 := victimOf "V2" "N1" {[ "memory"%string := 1 ]} 20 in
  let v3 := victimOf "V3" "N1" {[ "memory"%string := 3 ]} 30 in
  collectFinalVictims false "N1" (vcoreMemory 4 4) [v1; v2; v3] NewResource []
  = (vcoreMemory 4 4, [v1; v3])
  /\ StrictlyGreaterThanOnlyExisting (vcoreMemory 4 4) (victimsTotal [v1; v2; v3]) = false
  /\ StrictlyGreaterThanOnlyExisting (vcoreMemory 4 4) (victimsTotal [v1; v3]) = true.
Proof. repeat split; vm_compute; reflexivity. Qed.

(** ** The fuel of the recursive methods

    Every method follows the Parent links of its receiver. When every
    Parent link points to an older snapshot, any fuel above the address of
    the receiver gives the same result: the size of the heap, which the
    callers pass, is enough. *)

Lemma lineage_rec_fuel (h : Heap) :
  heap_ok h = true ->
  forall (n m : nat) l, (l < n)%nat -> (l < m)%nat ->
    lineage_rec n h (Some l) = lineage_rec m h (Some l).
Proof.
  rewrite heap_ok_spec. intros Hok.
  induction n as [|n IH]; intros m l Hn Hm; [lia|].
  destruct m as [|m]; [lia|]. cbn [lineage_rec].
  destruct (h !! l) as [q|] eqn:Hq; [|reflexivity]. f_equal.
  destruct (Parent q) as [p|] eqn:Hp.
  - specialize (Hok l q p Hq Hp). apply IH; lia.
  - by destruct n, m.
Qed.

Lemma GetRemainingGuaranteedResource_rec_fuel (h : Heap) :
  heap_ok h = true ->
  forall (n m : nat) l, (l < n)%nat -> (l < m)%nat ->
    GetRemainingGuaranteedResource_rec n h (Some l)
    = GetRemainingGuaranteedResource_rec m h (Some l).
Proof.
  rewrite heap_ok_spec. intros Hok.
  induction n as [|n IH]; intros m l Hn Hm; [lia|].
  destruct m as [|m]; [lia|]. cbn [GetRemainingGuaranteedResource_rec].
  destruct (h !! l) as [q|] eqn:Hq; [|reflexivity]. f_equal.
  destruct (Parent q) as [p|] eqn:Hp.
  - specialize (Hok l q p Hq Hp). apply IH; lia.
  - by destruct n, m.
Qed.

Lemma GetPreemptableResource_rec_fuel (h : Heap) :
  heap_ok h = true ->
  forall (n m : nat) l, (l < n)%nat -> (l < m)%nat ->
    GetPreemptableResource_rec n h (Some l) = GetPreemptableResource_rec m h (Some l).
Proof.
  rewrite heap_ok_spec. intros Hok.
  induction n as [|n IH]; intros m l Hn Hm; [lia|].
  destruct m as [|m]; [lia|]. cbn [GetPreemptableResource_rec].
  destruct (h !! l) as [q|] eqn:Hq; [|reflexivity].
  assert (Hparent : GetPreemptableResource_rec n h (Parent q)
                    = GetPreemptableResource_rec m h (Parent q)).
  { destruct (Parent q) as [p|] eqn:Hp.
    - specialize (Hok l q p Hq Hp). apply IH; lia.
    - by destruct n, m. }
  by rewrite Hparent.
Qed.

Lemma updateUsage_fuel f (h : Heap) :
  heap_ok h = true ->
  forall (n m : nat) l, (l < n)%nat -> (l < m)%nat ->
    updateUsage f n h (Some l) = updateUsage f m h (Some l).
Proof.
  rewrite heap_ok_spec. intros Hok.
  induction n as [|n IH]; intros m l Hn Hm; [lia|].
  destruct m as [|m]; [lia|]. cbn [updateUsage].
  destruct (h !! l) as [q|] eqn:Hq; [|reflexivity].
  assert (Hparent : updateUsage f n h (Parent q) = updateUsage f m h (Parent q)).
  { destruct (Parent q) as [p|] eqn:Hp.
    - specialize (Hok l q p Hq Hp). apply IH; lia.
    - by destruct n, m. }
  by rewrite Hparent.
Qed.

Lemma AddAllocation_rec_fuel (h : Heap) (r : Resource) :
  heap_ok h = true ->
  forall (n m : nat) l, (l < n)%nat -> (l < m)%nat ->
    AddAllocation_rec n h (Some l) r = AddAllocation_rec m h (Some l) r.
Proof.
  intros Hok n m l Hn Hm. rewrite !AddAllocation_rec_updateUsage.
  by apply updateUsage_fuel.
Qed.

Lemma RemoveAllocation_rec_fuel (h : Heap) (r : Resource) :
  heap_ok h = true ->
  forall (n m : nat) l, (l < n)%nat -> (l < m)%nat ->
    RemoveAllocation_rec n h (Some l) r = RemoveAllocation_rec m h (Some l) r.
Proof.
  intros Hok n m l Hn Hm. rewrite !RemoveAllocation_rec_updateUsage.
  by apply updateUsage_fuel.
Qed.

Lemma Duplicate_rec_fuel :
  forall (n m : nat) (h : Heap) (copy : gmap string loc) l,
    (forall a q p, (a <= l)%nat -> h !! a = Some q -> Parent q = Some p -> (p < a)%nat) ->
    (l < n)%nat -> (l < m)%nat ->
    Duplicate_rec n h copy (Some l) = Duplicate_rec m h copy (Some l).
Proof.
  induction n as [|n IH]; intros m h copy l Hok Hn Hm; [lia|].
  destruct m as [|m]; [lia|]. cbn [Duplicate_rec].
  destruct (h !! l) as [q|] eqn:Hq; [|reflexivity].
  destruct (copy !! QueuePath q); [reflexivity|].
  destruct (Parent q) as [p|] eqn:Hp; [|reflexivity].
  pose proof (Hok l q p (le_n l) Hq Hp) as Hlt.
  assert (Hbelow : forall a q0 p0, (a <= p)%nat -> h !! a = Some q0 ->
                     Parent q0 = Some p0 -> (p0 < a)%nat)
    by (intros a q0 p0 Ha; apply Hok; lia).
  rewrite <- (IH m h copy p Hbelow) by lia.
  destruct (Duplicate_rec n h copy (Some p)) as [[h1 copy1] res1] eqn:E1.
  destruct (Duplicate_rec_spec 0 _ _ _ _ _ _ _ E1) as (new1 & -> & _);
    [lia|intros; lia|].
  rewrite <- (IH m (h ++ new1) copy1 p); [reflexivity| |lia|lia].
  intros a q0 p0 Ha Hq0. apply Hbelow; [exact Ha|].
  rewrite lookup_app_l in Hq0; [exact Hq0|]. apply lookup_lt_Some in Hq. lia.
Qed.

(** Duplicate keeps the heap in that shape: the parent of a new snapshot is
    taken from the map, which holds snapshots built before it. So the
    working copies of the preemptor are reached with enough fuel too. *)
Lemma Duplicate_rec_heap_ok (fuel : nat) :
  forall (h : Heap) (copy : gmap string loc) (qps : option loc) h' copy' res,
    Duplicate_rec fuel h copy qps = (h', copy', res) ->
    heap_ok h = true ->
    (forall k v, copy !! k = Some v -> (v < length h)%nat) ->
    heap_ok h' = true
    /\ (forall k v, copy' !! k = Some v -> (v < length h')%nat)
    /\ (forall x, res = Some x -> (x < length h')%nat).
Proof.
  induction fuel as [|n IH]; intros h copy qps h' copy' res H Hok Hcopy.
  { injection H as <- <- <-. repeat split; eauto. discriminate. }
  destruct qps as [l|].
  2: { injection H as <- <- <-. repeat split; eauto. discriminate. }
  cbn [Duplicate_rec] in H. destruct (h !! l) as [q|] eqn:Hl.
  2: { injection H as <- <- <-. repeat split; eauto. discriminate. }
  destruct (copy !! QueuePath q) as [existing|] eqn:Hexisting.
  { injection H as <- <- <-. repeat split; eauto. intros x [= <-]. eauto. }
  assert (Hgrow : forall (h2 : Heap) (copy2 : gmap string loc) parent snapshot,
             heap_ok h2 = true ->
             (forall k v, copy2 !! k = Some v -> (v < length h2)%nat) ->
             (forall x, parent = Some x -> (x < length h2)%nat) ->
             Parent snapshot = parent ->
             heap_ok (h2 ++ [snapshot]) = true
             /\ (forall k v, <[QueuePath q := length h2]> copy2 !! k = Some v ->
                   (v < length (h2 ++ [snapshot]))%nat)
             /\ (forall x, Some (length h2) = Some x ->
                   (x < length (h2 ++ [snapshot]))%nat)).
  { intros h2 copy2 parent snapshot Hok2 Hcopy2 Hparent Hsnap.
    rewrite length_app. simpl. split; [|split].
    - apply heap_ok_spec. intros a qa pa Ha Hpa.
      destruct (decide (a < length h2)%nat) as [Hlt|Hge].
      + rewrite lookup_app_l in Ha by exact Hlt.
        exact (proj1 (heap_ok_spec h2) Hok2 a qa pa Ha Hpa).
      + pose proof (lookup_lt_Some _ _ _ Ha) as Hbound.
        rewrite length_app in Hbound. simpl in Hbound.
        assert (a = length h2) as -> by lia.
        rewrite lookup_app_r, Nat.sub_diag in Ha by lia.
        injection Ha as <-. apply Hparent. congruence.
    - intros k v Hk. apply lookup_insert_Some in Hk as [[_ <-]|[_ Hk]]; [lia|].
      specialize (Hcopy2 k v Hk). lia.
    - intros x [= <-]. lia. }
  destruct (Parent q) as [pl|] eqn:Hp.
  - destruct (Duplicate_rec n h copy (Some pl)) as [[h1 copy1] res1] eqn:E1.
    destruct (Duplicate_rec n h1 copy1 (Some pl)) as [[h2 copy2] parent] eqn:E2.
    injection H as <- <- <-.
    destruct (IH _ _ _ _ _ _ E1 Hok Hcopy) as (Hok1 & Hcopy1 & _).
    destruct (IH _ _ _ _ _ _ E2 Hok1 Hcopy1) as (Hok2 & Hcopy2 & Hparent).
    by apply (Hgrow h2 copy2 parent).
  - injection H as <- <- <-.
    apply (Hgrow h copy None); [exact Hok|exact Hcopy|discriminate|reflexivity].
Qed.

Lemma duplicateAll_heap_ok (snapshots : list loc) (h h' : Heap)
  (cache' : gmap string loc) :
  duplicateAll h ∅ snapshots = (h', cache') ->
  heap_ok h = true ->
  heap_ok h' = true /\ (forall k v, cache' !! k = Some v -> (v < length h')%nat).
Proof.
  unfold duplicateAll.
  assert (Hgen : forall (ls : list loc) (h0 : Heap) (cache0 : gmap string loc),
             heap_ok h0 = true ->
             (forall k v, cache0 !! k = Some v -> (v < length h0)%nat) ->
             let out := fold_left
                          (fun (acc : Heap * gmap string loc) (snapshot : loc) =>
                             let '(h1, cache1, _) :=
                               Duplicate acc.1 acc.2 (Some snapshot) in
                             (h1, cache1))
                          ls (h0, cache0) in
             heap_ok out.1 = true
             /\ (forall k v, out.2 !! k = Some v -> (v < length out.1)%nat)).
  { induction ls as [|snapshot rest IH]; intros h0 cache0 Hok0 Hcache0; [by split|].
    cbn [fold_left fst snd].
    destruct (Duplicate h0 cache0 (Some snapshot)) as [[h1 cache1] res1] eqn:E1.
    destruct (Duplicate_rec_heap_ok _ _ _ _ _ _ _ E1 Hok0 Hcache0) as (Hok1 & Hcache1 & _).
    by apply IH. }
  intros H Hok. specialize (Hgen snapshots h ∅ Hok).
  rewrite H in Hgen. apply Hgen. intros k v Hk. by rewrite lookup_empty in Hk.
Qed.

(** ** A tree without guarantees

    The branch of the ask queue has no guaranteed resource, in the sense of
    [askBranchGuarantees], as soon as no snapshot the preemptor was given
    has one. *)
Lemma askBranchGuarantees_empty
  (rangeOrder : nat -> forall A : Type, list (string * A) -> list (string * A))
  (p : Preemptor) :
  (forall q, q ∈ heap p -> IsEmpty (GuaranteedResource q) = true) ->
  forallb IsEmpty (askBranchGuarantees rangeOrder p) = true.
Proof.
  intros Hnone. unfold askBranchGuarantees, duplicateQueueSnapshots.
  destruct (duplicateAll (heap p) ∅ _) as [h queues] eqn:Hdup.
  destruct (duplicateAll_spec 0 _ _ _ _ _ Hdup) as (new & -> & Hnew & _);
    [lia|intros; lia|].
  apply forallb_forall. intros g Hg.
  apply list_elem_of_In, list_elem_of_fmap in Hg as (l & -> & _).
  destruct ((heap p ++ new) !! l) as [q|] eqn:Hq; simpl; [|apply IsEmpty_None].
  apply list_elem_of_lookup_2, elem_of_app in Hq as [Hq|Hq]; [eauto|].
  rewrite Forall_forall in Hnew. destruct (Hnew q Hq) as [_ (q0 & Hq0 & ->)].
  simpl. eauto.
Qed.

(** ** The batches of predicate checks *)

Lemma batchLoop_spec {A : Type} (checks : list A) (batchSize : Z) :
  0 < batchSize ->
  forall (fuel : nat) (i : Z) (result : list (list A)),
    0 <= i ->
    Z.of_nat (length checks) - i <= Z.of_nat fuel ->
    exists batches,
      batchLoop fuel checks batchSize i result = result ++ batches
      /\ concat batches = drop (Z.to_nat i) checks
      /\ Forall (fun batch => (0 < length batch)%nat
                              /\ Z.of_nat (length batch) <= batchSize) batches
      /\ Z.of_nat (length batches) * batchSize
         < Z.max 0 (Z.of_nat (length checks) - i) + batchSize
      /\ Z.max 0 (Z.of_nat (length checks) - i)
         <= Z.of_nat (length batches) * batchSize.
Proof.
  intros Hsize. induction fuel as [|n IH]; intros i result Hi Hfuel.
  - exists []. rewrite app_nil_r. simpl. split; [reflexivity|].
    split; [rewrite drop_ge; [reflexivity|lia]|].
    split; [constructor|lia].
  - cbn [batchLoop]. destruct (i <? Z.of_nat (length checks)) eqn:Hlt.
    + apply Z.ltb_lt in Hlt.
      set (batch := take (Z.to_nat (Z.min (i + batchSize) (Z.of_nat (length checks)) - i))
                         (drop (Z.to_nat i) checks)).
      destruct (IH (i + batchSize) (result ++ [batch])) as (rest & -> & Hcat & Hall & Hup & Hlo);
        [lia|lia|].
      exists (batch :: rest). rewrite <- app_assoc. split; [reflexivity|].
      assert (Hlen : length batch
                     = Z.to_nat (Z.min (i + batchSize) (Z.of_nat (length checks)) - i)).
      { unfold batch. rewrite length_take, length_drop. lia. }
      split; [|split; [|split]].
      * simpl. rewrite Hcat. unfold batch.
        destruct (Z_le_gt_dec (i + batchSize) (Z.of_nat (length checks))) as [Hle|Hgt].
        -- rewrite Z.min_l by lia.
           replace (Z.to_nat (i + batchSize))
             with (Z.to_nat i + Z.to_nat (i + batchSize - i))%nat by lia.
           rewrite <- drop_drop. apply take_drop.
        -- rewrite Z.min_r by lia.
           rewrite (drop_ge checks (Z.to_nat (i + batchSize))) by lia.
           rewrite app_nil_r. apply take_ge. rewrite length_drop. lia.
      * constructor; [|exact Hall]. rewrite Hlen. lia.
      * rewrite length_cons, Nat2Z.inj_succ.
        assert (Hrest : 0 <= Z.of_nat (length rest)) by lia.
        rewrite (Z.max_r 0 (Z.of_nat (length checks) - i)) by lia.
        destruct (Z_le_gt_dec (i + batchSize) (Z.of_nat (length checks))) as [Hle|Hgt].
        -- rewrite Z.max_r in Hup by lia. lia.
        -- rewrite Z.max_l in Hup by lia.
           assert (Z.of_nat (length rest) = 0) as -> by nia. lia.
      * rewrite length_cons, Nat2Z.inj_succ. lia.
    + apply Z.ltb_ge in Hlt. exists []. rewrite app_nil_r. simpl.
      split; [reflexivity|]. split; [rewrite drop_ge; [reflexivity|lia]|].
      split; [constructor|lia].
Qed.

(** X1. With a positive batch size, batchPreemptionChecks cuts the checks
    into consecutive batches: put end to end the batches give the checks
    back, in order; no batch is empty and none is longer than the batch
    size; and there are as few batches as that allows (the number of checks
    divided by the batch size, rounded up). *)
Theorem batchPreemptionChecks_partition {A : Type} (checks : list A) (batchSize : Z) :
  0 < batchSize ->
  concat (batchPreemptionChecks checks batchSize) = checks
  /\ Forall (fun batch => (0 < length batch)%nat
                          /\ Z.of_nat (length batch) <= batchSize)
            (batchPreemptionChecks checks batchSize)
  /\ Z.of_nat (length (batchPreemptionChecks checks batchSize))
     = (Z.of_nat (length checks) + batchSize - 1) / batchSize.
Proof.
  intros Hsize. unfold batchPreemptionChecks.
  destruct (batchLoop_spec checks batchSize Hsize (length checks) 0 [])
    as (batches & -> & Hcat & Hall & Hup & Hlo); [lia|lia|].
  simpl. split; [exact Hcat|]. split; [exact Hall|].
  rewrite Z.sub_0_r, Z.max_r in Hup, Hlo by lia.
  apply Z.div_unique_pos with
    (r := Z.of_nat (length checks) + batchSize - 1
          - Z.of_nat (length batches) * batchSize); lia.
Qed.

Lemma batchPreemptionChecks_partition_witness :
  batchPreemptionChecks [1; 2; 3; 4; 5; 6; 7] 3 = [[1; 2; 3]; [4; 5; 6]; [7]]
  /\ concat (batchPreemptionChecks [1; 2; 3; 4; 5; 6; 7] 3) = [1; 2; 3; 4; 5; 6; 7].
Proof.
  split; [reflexivity|].
  apply (batchPreemptionChecks_partition [1; 2; 3; 4; 5; 6; 7] 3). lia.
Defined.

(** ** The order of the victims *)

Lemma compareAllocationLess_true (a b : Allocation) :
  compareAllocationLess a b = true <->
  scoreAllocation a < scoreAllocation b
  \/ (scoreAllocation a = scoreAllocation b /\ createTime b < createTime a).
Proof.
  unfold compareAllocationLess.
  destruct (scoreAllocation a =? scoreAllocation b) eqn:Heq; simpl.
  - apply Z.eqb_eq in Heq. rewrite Z.ltb_lt. lia.
  - apply Z.eqb_neq in Heq. rewrite Z.ltb_lt. lia.
Qed.

Lemma compareAllocationLess_false (a b : Allocation) :
  compareAllocationLess a b = false <->
  scoreAllocation b < scoreAllocation a
  \/ (scoreAllocation a = scoreAllocation b /\ createTime a <= createTime b).
Proof.
  rewrite <- not_true_iff_false, compareAllocationLess_true. lia.
Qed.

Lemma victimLess_compareAllocationLess (a b : Allocation) :
  victimLess a b = compareAllocationLess a b.
Proof.
  unfold victimLess, compareAllocationLess, scoreAllocation.
  destruct (allowPreemptSelf a), (allowPreemptSelf b),
    (isOriginator a), (isOriginator b); reflexivity.
Qed.

(** X2. The two orders of the preemptor are one: the comparison
    sortVictimsForPreemption sorts the victims of a node with and
    compareAllocationLess, which orders the additional victims by score,
    agree on every pair of allocations. *)
Theorem sortVictimsForPreemption_order_is_compareAllocationLess (a b : Allocation) :
  victimLess a b = compareAllocationLess a b.
Proof. apply victimLess_compareAllocationLess. Qed.

(** X3. compareAllocationLess is a strict weak order, as sort.SliceStable
    requires: no allocation comes before itself, the relation is transitive,
    and so is its negation ("does not come before"). It puts first the
    allocations that allow their own preemption, among those the ones that
    are not originators, and among those the newest. *)
Theorem compareAllocationLess_strict_weak_order (a b c : Allocation) :
  compareAllocationLess a a = false
  /\ (compareAllocationLess a b = true -> compareAllocationLess b c = true ->
      compareAllocationLess a c = true)
  /\ (compareAllocationLess a b = false -> compareAllocationLess b c = false ->
      compareAllocationLess a c = false)
  /\ (allowPreemptSelf a = true -> allowPreemptSelf b = false ->
      compareAllocationLess a b = true)
  /\ (allowPreemptSelf a = allowPreemptSelf b -> isOriginator a = false ->
      isOriginator b = true -> compareAllocationLess a b = true)
  /\ (allowPreemptSelf a = allowPreemptSelf b -> isOriginator a = isOriginator b ->
      compareAllocationLess a b = bool_decide (createTime b < createTime a)).
Proof.
  split; [apply compareAllocationLess_false; lia|].
  split; [rewrite !compareAllocationLess_true; lia|].
  split; [rewrite !compareAllocationLess_false; lia|].
  split; [|split].
  - intros Ha Hb. apply compareAllocationLess_true. left.
    unfold scoreAllocation. rewrite Ha, Hb.
    destruct (isOriginator a), (isOriginator b); reflexivity.
  - intros Hself Ha Hb. apply compareAllocationLess_true. left.
    unfold scoreAllocation. rewrite Hself, Ha, Hb.
    destruct (allowPreemptSelf b); reflexivity.
  - intros Hself Horig. unfold compareAllocationLess, scoreAllocation.
    rewrite Hself, Horig, Z.eqb_refl. simpl.
    destruct (createTime b <? createTime a) eqn:Hlt.
    + apply Z.ltb_lt in Hlt. by rewrite bool_decide_eq_true_2.
    + apply Z.ltb_ge in Hlt. rewrite bool_decide_eq_false_2; [reflexivity|lia].
Qed.

Lemma insertStable_Permutation {A : Type} (less : A -> A -> bool) (x : A) (l : list A) :
  insertStable less x l ≡ₚ x :: l.
Proof.
  induction l as [|y l IH]; simpl; [reflexivity|].
  destruct (less y x); [|reflexivity].
  rewrite IH. apply Permutation_swap.
Qed.

Lemma SliceStable_Permutation {A : Type} (less : A -> A -> bool) (l : list A) :
  SliceStable less l ≡ₚ l.
Proof.
  unfold SliceStable. induction l as [|x l IH]; simpl; [reflexivity|].
  by rewrite insertStable_Permutation, IH.
Qed.

Section Sorting.

Context {A : Type} (less : A -> A -> bool).

Hypothesis less_asymmetric : forall x y, less x y = true -> less y x = false.
Hypothesis less_negatively_transitive :
  forall x y z, less x y = false -> less y z = false -> less x z = false.

Lemma insertStable_sortedBy (x : A) (l : list A) :
  sortedBy less l -> sortedBy less (insertStable less x l).
Proof.
  induction l as [|y l IH]; intros Hsorted; simpl.
  - split; [constructor|exact I].
  - destruct Hsorted as [Hy Hl]. destruct (less y x) eqn:Hyx.
    + split; [|by apply IH].
      rewrite insertStable_Permutation. constructor; [|exact Hy].
      by apply less_asymmetric.
    + split; [|by split].
      constructor; [exact Hyx|].
      eapply Forall_impl; [exact Hy|]. intros z Hz. simpl in Hz.
      by eapply less_negatively_transitive.
Qed.

Lemma SliceStable_sortedBy (l : list A) : sortedBy less (SliceStable less l).
Proof.
  unfold SliceStable. induction l as [|x l IH]; simpl; [exact I|].
  by apply insertStable_sortedBy.
Qed.

End Sorting.

Lemma victimLess_asymmetric (a b : Allocation) :
  victimLess a b = true -> victimLess b a = false.
Proof.
  rewrite !victimLess_compareAllocationLess, compareAllocationLess_true,
    compareAllocationLess_false. lia.
Qed.

Lemma victimLess_negatively_transitive (a b c : Allocation) :
  victimLess a b = false -> victimLess b c = false -> victimLess a c = false.
Proof.
  rewrite !victimLess_compareAllocationLess, !compareAllocationLess_false. lia.
Qed.

(** X4. sortVictimsForPreemption keeps the nodes and, on each node, the
    same victims; it leaves each list in order: no victim should come before
    one that stands earlier in the list, and in particular the victims that
    allow their own preemption all stand before those that do not. *)
Theorem sortVictimsForPreemption_sorted (allocationsByNode : gmap string (list Allocation))
  (node : string) :
  match sortVictimsForPreemption allocationsByNode !! node with
  | None => allocationsByNode !! node = None
  | Some sorted =>
      exists allocations,
        allocationsByNode !! node = Some allocations
        /\ sorted ≡ₚ allocations
        /\ sortedBy victimLess sorted
        /\ forall i j x y,
             (i < j)%nat -> sorted !! i = Some x -> sorted !! j = Some y ->
             victimLess y x = false
             /\ (allowPreemptSelf y = true -> allowPreemptSelf x = true)
  end.
Proof.
  unfold sortVictimsForPreemption. rewrite lookup_fmap.
  destruct (allocationsByNode !! node) as [allocations|]; simpl; [|reflexivity].
  exists allocations. split; [reflexivity|].
  split; [apply SliceStable_Permutation|].
  pose proof (SliceStable_sortedBy victimLess victimLess_asymmetric
                victimLess_negatively_transitive allocations) as Hsorted.
  split; [exact Hsorted|].
  generalize dependent (SliceStable victimLess allocations).
  intros sorted Hsorted i j x y Hij Hi Hj.
  assert (Hless : victimLess y x = false).
  { revert i j Hij Hi Hj. induction sorted as [|z rest IH]; intros i j Hij Hi Hj.
    - by rewrite lookup_nil in Hi.
    - destruct Hsorted as [Hz Hrest]. destruct j as [|j]; [lia|]. simpl in Hj.
      destruct i as [|i]; simpl in Hi.
      + injection Hi as ->. rewrite Forall_forall in Hz.
        apply Hz. by eapply list_elem_of_lookup_2.
      + apply (IH Hrest i j); [lia|assumption|assumption]. }
  split; [exact Hless|].
  intros Hy. unfold victimLess in Hless. rewrite Hy in Hless. simpl in Hless.
  destruct (allowPreemptSelf x); [reflexivity|discriminate Hless].
Qed.

(** ** The map of the duplicated snapshots *)

(** One call of Duplicate on a snapshot: the result is what the map holds
    for the path of the snapshot afterwards; it is either the entry that was
    there, and nothing changed, or a new snapshot at the end of the heap with
    the fields of the receiver. *)
Lemma Duplicate_rec_result (n : nat) (h : Heap) (copy : gmap string loc) (l : loc)
  (q : QueuePreemptionSnapshot) h' copy' res :
  Duplicate_rec (S n) h copy (Some l) = (h', copy', res) ->
  h !! l = Some q ->
  (exists new, h' = h ++ new)
  /\ copy' !! QueuePath q = res
  /\ ((exists x, copy !! QueuePath q = Some x /\ res = Some x /\ h' = h /\ copy' = copy)
      \/ (copy !! QueuePath q = None
          /\ exists l' q', res = Some l' /\ (length h <= l')%nat
                           /\ h' !! l' = Some q' /\ copied q q'
                           /\ (Parent q = None -> Parent q' = None))).
Proof.
  intros H Hl.
  destruct (Duplicate_rec_spec 0 _ _ _ _ _ _ _ H) as (new & Hnew & _); [lia|intros; lia|].
  split; [eauto|].
  cbn [Duplicate_rec] in H. rewrite Hl in H.
  destruct (copy !! QueuePath q) as [existing|] eqn:Hexisting.
  { injection H as <- <- <-. split; [exact Hexisting|]. left. eauto. }
  assert (Hlast : forall (h2 : Heap) (copy2 : gmap string loc) parent snapshot,
             (length h <= length h2)%nat ->
             copied q snapshot -> Parent snapshot = parent ->
             (Parent q = None -> parent = None) ->
             <[QueuePath q := length h2]> copy2 !! QueuePath q = Some (length h2)
             /\ ((exists x, None = Some x /\ Some (length h2) = Some x
                            /\ h2 ++ [snapshot] = h
                            /\ <[QueuePath q := length h2]> copy2 = copy)
                 \/ (@None loc = None
                     /\ exists l' q', Some (length h2) = Some l' /\ (length h <= l')%nat
                                      /\ (h2 ++ [snapshot]) !! l' = Some q' /\ copied q q'
                                      /\ (Parent q = None -> Parent q' = None)))).
  { intros h2 copy2 parent snapshot Hlen Hcp Hpar Hroot.
    split; [apply lookup_insert_eq|]. right. split; [reflexivity|].
    exists (length h2), snapshot. split; [reflexivity|]. split; [exact Hlen|].
    split; [by rewrite lookup_app_r, Nat.sub_diag|]. split; [exact Hcp|].
    intros Hq. rewrite Hpar. by apply Hroot. }
  destruct (Parent q) as [pl|] eqn:Hp.
  - destruct (Duplicate_rec n h copy (Some pl)) as [[h1 copy1] res1] eqn:E1.
    destruct (Duplicate_rec n h1 copy1 (Some pl)) as [[h2 copy2] parent] eqn:E2.
    injection H as <- <- <-.
    destruct (Duplicate_rec_spec 0 _ _ _ _ _ _ _ E1) as (new1 & -> & _);
      [lia|intros; lia|].
    destruct (Duplicate_rec_spec 0 _ _ _ _ _ _ _ E2) as (new2 & -> & _);
      [lia|intros; lia|].
    apply (Hlast _ copy2 parent); [rewrite !length_app; lia|reflexivity|reflexivity|].
    discriminate.
  - injection H as <- <- <-.
    apply (Hlast h copy None); [lia|reflexivity|reflexivity|reflexivity].
Qed.

(** X5. Duplicate is idempotent: a snapshot duplicated into the map is
    registered there under its queue path, and duplicating it again into the
    same map returns the same snapshot and changes neither the map nor the
    heap. *)
Theorem Duplicate_idempotent (h : Heap) (copy : gmap string loc) (l : loc)
  (q : QueuePreemptionSnapshot) h' copy' res :
  Duplicate h copy (Some l) = (h', copy', res) ->
  h !! l = Some q ->
  is_Some res
  /\ copy' !! QueuePath q = res
  /\ Duplicate h' copy' (Some l) = (h', copy', res).
Proof.
  unfold Duplicate. intros H Hl.
  destruct (length h) as [|n] eqn:Hlen; [apply lookup_lt_Some in Hl; lia|].
  destruct (Duplicate_rec_result n h copy l q h' copy' res H Hl)
    as ((new & ->) & Hres & Hcases).
  assert (Hsome : is_Some res).
  { destruct Hcases as [(x & _ & -> & _)|(_ & l' & q' & -> & _)]; eauto. }
  split; [exact Hsome|]. split; [exact Hres|].
  destruct Hsome as [x ->].
  rewrite length_app, Hlen. cbn [Nat.add Duplicate_rec].
  rewrite (lookup_app_l_Some _ _ _ _ Hl), Hres. reflexivity.
Qed.

Lemma Duplicate_idempotent_witness :
  S2.snapshots !! 2%nat
  = Some (queueOf (Some 0%nat) "root.B" true (vcore 7) (Some (vcore 5)) [S2.V1; S2.V2]
                  (Some 1%nat))
  /\ snd (Duplicate S2.snapshots ∅ (Some 2%nat)) = Some 4%nat
  /\ Duplicate (fst (fst (Duplicate S2.snapshots ∅ (Some 2%nat))))
       (snd (fst (Duplicate S2.snapshots ∅ (Some 2%nat)))) (Some 2%nat)
     = Duplicate S2.snapshots ∅ (Some 2%nat).
Proof.
  split; [reflexivity|]. split; [vm_compute; reflexivity|].
  destruct (Duplicate S2.snapshots ∅ (Some 2%nat)) as [[h' copy'] res] eqn:E.
  eapply (Duplicate_idempotent S2.snapshots ∅ 2%nat _ h' copy' res E).
  reflexivity.
Defined.

(** What a call of Duplicate does to the map: the entries that were there
    stay as they are; every entry still points to a snapshot whose queue path
    is its key; and every key is the path of a snapshot of the heap. *)
Lemma Duplicate_rec_map (fuel : nat) :
  forall (h : Heap) (copy : gmap string loc) (qps : option loc) h' copy' res,
    Duplicate_rec fuel h copy qps = (h', copy', res) ->
    (forall k v, copy !! k = Some v -> copy' !! k = Some v)
    /\ ((forall k v, copy !! k = Some v ->
           exists q', h !! v = Some q' /\ QueuePath q' = k) ->
        forall k v, copy' !! k = Some v ->
          exists q', h' !! v = Some q' /\ QueuePath q' = k)
    /\ (forall k, is_Some (copy' !! k) ->
          is_Some (copy !! k) \/ exists q, q ∈ h /\ QueuePath q = k).
Proof.
  induction fuel as [|n IH]; intros h copy qps h' copy' res H.
  { injection H as <- <- <-. eauto. }
  destruct qps as [l|]; [|injection H as <- <- <-; eauto].
  cbn [Duplicate_rec] in H. destruct (h !! l) as [q|] eqn:Hl;
    [|injection H as <- <- <-; eauto].
  destruct (copy !! QueuePath q) as [existing|] eqn:Hexisting;
    [injection H as <- <- <-; eauto|].
  assert (Hq : q ∈ h) by (by eapply list_elem_of_lookup_2).
  assert (Hrec : exists h2 copy2 parent,
             match Parent q with
             | Some _ =>
                 let '(h1, copy1, _) := Duplicate_rec n h copy (Parent q) in
                 Duplicate_rec n h1 copy1 (Parent q)
             | None => (h, copy, None)
             end = (h2, copy2, parent)
             /\ h' = h2 ++ [ {| Parent := parent;
                                QueuePath := QueuePath q;
                                Leaf := Leaf q;
                                AllocatedResource := Clone (AllocatedResource q);
                                PreemptingResource := Clone (PreemptingResource q);
                                MaxResource := Clone (MaxResource q);
                                GuaranteedResource := Clone (GuaranteedResource q);
                                PotentialVictims := PotentialVictims q;
                                AskQueue := AskQueue q |} ]
             /\ copy' = <[QueuePath q := length h2]> copy2).
  { destruct (Parent q) as [pl|].
    - destruct (Duplicate_rec n h copy (Some pl)) as [[h1 copy1] res1].
      destruct (Duplicate_rec n h1 copy1 (Some pl)) as [[h2 copy2] parent].
      injection H as <- <- <-. eauto 10.
    - injection H as <- <- <-. eauto 10. }
  destruct Hrec as (h2 & copy2 & parent & Hrec & -> & ->). clear H.
  assert (Hparents :
            (exists new, h2 = h ++ new
                         /\ Forall (fun q' => exists q0, q0 ∈ h /\ copied q0 q') new)
            /\ (forall k v, copy !! k = Some v -> copy2 !! k = Some v)
            /\ ((forall k v, copy !! k = Some v ->
                   exists q', h !! v = Some q' /\ QueuePath q' = k) ->
                forall k v, copy2 !! k = Some v ->
                  exists q', h2 !! v = Some q' /\ QueuePath q' = k)
            /\ (forall k, is_Some (copy2 !! k) ->
                  is_Some (copy !! k) \/ exists q0, q0 ∈ h /\ QueuePath q0 = k)).
  { destruct (Parent q) as [pl|].
    - destruct (Duplicate_rec n h copy (Some pl)) as [[h1 copy1] res1] eqn:E1.
      destruct (Duplicate_rec_spec 0 _ _ _ _ _ _ _ E1) as (new1 & -> & Hnew1 & _);
        [lia|intros; lia|].
      destruct (Duplicate_rec_spec 0 _ _ _ _ _ _ _ Hrec) as (new2 & -> & Hnew2 & _);
        [lia|intros; lia|].
      destruct (IH _ _ _ _ _ _ E1) as (Hmono1 & Hkeyed1 & Hkeys1).
      destruct (IH _ _ _ _ _ _ Hrec) as (Hmono2 & Hkeyed2 & Hkeys2).
      assert (Hfrom : forall q', q' ∈ new1 -> exists q0, q0 ∈ h /\ copied q0 q').
      { intros q' Hq'. rewrite Forall_forall in Hnew1. exact (proj2 (Hnew1 q' Hq')). }
      split; [|split; [|split]].
      + exists (new1 ++ new2). split; [by rewrite app_assoc|].
        apply Forall_app. split; [apply Forall_forall; exact Hfrom|].
        eapply Forall_impl; [exact Hnew2|]. intros q' [_ (q0 & Hq0 & Hcp)].
        apply elem_of_app in Hq0 as [Hq0|Hq0]; [eauto|].
        destruct (Hfrom q0 Hq0) as (q1 & Hq1 & Hcp1). eauto using copied_trans.
      + eauto.
      + eauto.
      + intros k Hk. destruct (Hkeys2 k Hk) as [Hk1|(q0 & Hq0 & Hpath)]; [eauto|].
        right. apply elem_of_app in Hq0 as [Hq0|Hq0]; [eauto|].
        destruct (Hfrom q0 Hq0) as (q1 & Hq1 & Hcp1).
        exists q1. split; [exact Hq1|]. rewrite <- Hpath, Hcp1. reflexivity.
    - injection Hrec as <- <- <-. split; [|eauto].
      exists []. by rewrite app_nil_r. }
  destruct Hparents as ((new & -> & _) & Hmono & Hkeyed & Hkeys).
  split; [|split].
  - intros k v Hk. rewrite lookup_insert_ne; [eauto|]. intros <-. congruence.
  - intros Hcopy k v Hk. apply lookup_insert_Some in Hk as [[<- <-]|[_ Hk]].
    + eexists. split; [by rewrite lookup_app_r, Nat.sub_diag|reflexivity].
    + destruct (Hkeyed Hcopy k v Hk) as (q' & Hq' & Hpath).
      exists q'. split; [by apply lookup_app_l_Some|exact Hpath].
  - intros k Hk. destruct (decide (k = QueuePath q)) as [->|Hne]; [eauto|].
    rewrite lookup_insert_ne in Hk by congruence. eauto.
Qed.

(** X6. Duplicate only adds: the snapshots of the heap stay where they are,
    an entry the map already had is never replaced, and every entry of the
    map, old or new, points to a snapshot whose queue path is its key. *)
Theorem Duplicate_only_adds (h : Heap) (copy : gmap string loc) (qps : option loc)
  h' copy' res :
  Duplicate h copy qps = (h', copy', res) ->
  (forall k v, copy !! k = Some v -> exists q', h !! v = Some q' /\ QueuePath q' = k) ->
  (forall a q, h !! a = Some q -> h' !! a = Some q)
  /\ (forall k v, copy !! k = Some v -> copy' !! k = Some v)
  /\ (forall k v, copy' !! k = Some v -> exists q', h' !! v = Some q' /\ QueuePath q' = k).
Proof.
  unfold Duplicate. intros H Hkeyed.
  destruct (Duplicate_rec_spec 0 _ _ _ _ _ _ _ H) as (new & -> & _); [lia|intros; lia|].
  destruct (Duplicate_rec_map _ _ _ _ _ _ _ H) as (Hmono & Hkeyed' & _).
  split; [|split; [exact Hmono|by apply Hkeyed']].
  intros a q Ha. by apply lookup_app_l_Some.
Qed.

Lemma Duplicate_only_adds_witness :
  (forall k v, (∅ : gmap string loc) !! k = Some v ->
     exists q', S2.snapshots !! v = Some q' /\ QueuePath q' = k)
  /\ forall k v, snd (fst (Duplicate S2.snapshots ∅ (Some 2%nat))) !! k = Some v ->
       exists q', fst (fst (Duplicate S2.snapshots ∅ (Some 2%nat))) !! v = Some q'
                  /\ QueuePath q' = k.
Proof.
  assert (Hkeyed : forall k v, (∅ : gmap string loc) !! k = Some v ->
            exists q', S2.snapshots !! v = Some q' /\ QueuePath q' = k).
  { intros k v Hk. by rewrite lookup_empty in Hk. }
  split; [exact Hkeyed|].
  destruct (Duplicate S2.snapshots ∅ (Some 2%nat)) as [[h' copy'] res] eqn:E.
  apply (Duplicate_only_adds S2.snapshots ∅ (Some 2%nat) h' copy' res E Hkeyed).
Defined.

(** X7. The duplicate of a snapshot hangs under the duplicate of its
    parent: when the parent has another queue path, the Parent link of the
    new snapshot is the snapshot the map holds for the parent's path; the
    duplicate of a root is a root. *)
Theorem Duplicate_parent (h : Heap) (copy : gmap string loc) (l : loc)
  (q : QueuePreemptionSnapshot) h' copy' res :
  Duplicate h copy (Some l) = (h', copy', res) ->
  h !! l = Some q ->
  copy !! QueuePath q = None ->
  exists l' q',
    res = Some l' /\ h' !! l' = Some q' /\ copied q q'
    /\ (Parent q = None -> Parent q' = None)
    /\ (forall pl qp, Parent q = Some pl -> h !! pl = Some qp ->
          QueuePath qp <> QueuePath q ->
          is_Some (Parent q') /\ Parent q' = copy' !! QueuePath qp).
Proof.
  unfold Duplicate. intros H Hl Hfresh.
  destruct (length h) as [|n] eqn:Hlen; [apply lookup_lt_Some in Hl; lia|].
  destruct (Duplicate_rec_result n h copy l q h' copy' res H Hl)
    as (_ & _ & [(x & Hx & _)|(_ & l' & q' & -> & Hl' & Hq' & Hcp & Hroot)]);
    [congruence|].
  exists l', q'. split; [reflexivity|]. split; [exact Hq'|]. split; [exact Hcp|].
  split; [exact Hroot|].
  intros pl qp Hp Hqp Hpath.
  cbn [Duplicate_rec] in H. rewrite Hl, Hfresh, Hp in H.
  destruct n as [|n].
  { assert (l <> pl) by (intros ->; congruence).
    apply lookup_lt_Some in Hl, Hqp. lia. }
  destruct (Duplicate_rec (S n) h copy (Some pl)) as [[h1 copy1] res1] eqn:E1.
  destruct (Duplicate_rec_result n h copy pl qp h1 copy1 res1 E1 Hqp)
    as ((new1 & ->) & Hres1 & Hcases1).
  assert (Hsome1 : is_Some res1).
  { destruct Hcases1 as [(x & _ & -> & _)|(_ & x & qx & -> & _)]; eauto. }
  destruct Hsome1 as [x ->].
  cbn [Duplicate_rec] in H.
  rewrite (lookup_app_l_Some _ _ _ _ Hqp), Hres1 in H.
  injection H as <- <- <-.
  rewrite lookup_app_r, Nat.sub_diag in Hq' by lia. injection Hq' as <-. simpl.
  split; [eauto|]. rewrite lookup_insert_ne by congruence. by rewrite Hres1.
Qed.

Lemma Duplicate_parent_witness :
  exists l' q',
    snd (Duplicate S2.snapshots ∅ (Some 2%nat)) = Some l'
    /\ fst (fst (Duplicate S2.snapshots ∅ (Some 2%nat))) !! l' = Some q'
    /\ Parent q' = snd (fst (Duplicate S2.snapshots ∅ (Some 2%nat))) !! "root"%string.
Proof.
  destruct (Duplicate S2.snapshots ∅ (Some 2%nat)) as [[h' copy'] res] eqn:E.
  destruct (Duplicate_parent S2.snapshots ∅ 2%nat
              (queueOf (Some 0%nat) "root.B" true (vcore 7) (Some (vcore 5))
                       [S2.V1; S2.V2] (Some 1%nat))
              h' copy' res E eq_refl eq_refl)
    as (l' & q' & Hres & Hq' & _ & _ & Hparent).
  exists l', q'. split; [exact Hres|]. split; [exact Hq'|].
  refine (proj2 (Hparent 0%nat
                   (queueOf None "root" false (vcore 7) (Some (vcore 10)) [] (Some 1%nat))
                   eq_refl eq_refl _)).
  vm_compute. discriminate.
Defined.

Lemma duplicateAll_map (snapshots : list loc) :
  forall (h : Heap) (cache : gmap string loc) h' cache',
    duplicateAll h cache snapshots = (h', cache') ->
    (forall a q, h !! a = Some q -> h' !! a = Some q)
    /\ (forall k v, cache !! k = Some v -> cache' !! k = Some v)
    /\ ((forall k v, cache !! k = Some v ->
           exists q', h !! v = Some q' /\ QueuePath q' = k) ->
        forall k v, cache' !! k = Some v ->
          exists q', h' !! v = Some q' /\ QueuePath q' = k)
    /\ (forall k, is_Some (cache' !! k) ->
          is_Some (cache !! k) \/ exists q, q ∈ h /\ QueuePath q = k)
    /\ (forall l q, l ∈ snapshots -> h !! l = Some q ->
          is_Some (cache' !! QueuePath q)).
Proof.
  unfold duplicateAll.
  induction snapshots as [|snapshot rest IH]; intros h cache h' cache' H.
  { injection H as <- <-. repeat split; eauto. intros l q Hl. by apply elem_of_nil in Hl. }
  cbn [fold_left fst snd] in H.
  destruct (Duplicate h cache (Some snapshot)) as [[h1 cache1] res1] eqn:E1.
  destruct (Duplicate_rec_spec 0 _ _ _ _ _ _ _ E1) as (new1 & -> & Hnew1 & _);
    [lia|intros; lia|].
  destruct (Duplicate_rec_map _ _ _ _ _ _ _ E1) as (Hmono1 & Hkeyed1 & Hkeys1).
  destruct (IH _ _ _ _ H) as (Hheap & Hmono & Hkeyed & Hkeys & Hreg).
  split; [|split; [|split; [|split]]].
  - intros a q Ha. by apply Hheap, lookup_app_l_Some.
  - eauto.
  - eauto.
  - intros k Hk. destruct (Hkeys k Hk) as [Hk1|(q0 & Hq0 & Hpath)]; [eauto|].
    right. apply elem_of_app in Hq0 as [Hq0|Hq0]; [eauto|].
    rewrite Forall_forall in Hnew1. destruct (Hnew1 q0 Hq0) as [_ (q1 & Hq1 & Hcp1)].
    exists q1. split; [exact Hq1|]. rewrite <- Hpath, Hcp1. reflexivity.
  - intros l q Hl Hq. apply elem_of_cons in Hl as [->|Hl].
    + unfold Duplicate in E1.
      destruct (length h) as [|n] eqn:Hlen; [apply lookup_lt_Some in Hq; lia|].
      destruct (Duplicate_rec_result n h cache snapshot q _ _ _ E1 Hq)
        as (_ & Hres & Hcases).
      assert (Hsome : is_Some (cache1 !! QueuePath q)).
      { rewrite Hres.
        destruct Hcases as [(x & _ & -> & _)|(_ & x & qx & -> & _)]; eauto. }
      destruct Hsome as [x Hx]. eauto.
    + eapply Hreg; [exact Hl|]. by apply lookup_app_l_Some.
Qed.

(** X8. The loop of duplicateQueueSnapshots, started on an empty map,
    registers every snapshot it is given under its queue path; every entry
    of the map it returns points to a new snapshot, one built by the loop,
    whose queue path is the key; and the snapshots the preemptor was given
    stay where they are. *)
Theorem duplicateAll_registers (h : Heap) (snapshots : list loc) (h' : Heap)
  (cache : gmap string loc) :
  duplicateAll h ∅ snapshots = (h', cache) ->
  (forall l q, l ∈ snapshots -> h !! l = Some q -> is_Some (cache !! QueuePath q))
  /\ (forall k v, cache !! k = Some v ->
        (length h <= v)%nat /\ exists q', h' !! v = Some q' /\ QueuePath q' = k)
  /\ (forall k, is_Some (cache !! k) -> exists q, q ∈ h /\ QueuePath q = k)
  /\ (forall a q, h !! a = Some q -> h' !! a = Some q).
Proof.
  intros H.
  destruct (duplicateAll_map _ _ _ _ _ H) as (Hheap & _ & Hkeyed & Hkeys & Hreg).
  destruct (duplicateAll_spec (length h) _ _ _ _ _ H) as (_ & _ & _ & Hfresh);
    [lia|intros k v Hk; by rewrite lookup_empty in Hk|].
  split; [exact Hreg|]. split; [|split; [|exact Hheap]].
  - intros k v Hk. split; [eauto|]. apply Hkeyed; [|exact Hk].
    intros k' v' Hk'. by rewrite lookup_empty in Hk'.
  - intros k Hk. destruct (Hkeys k Hk) as [[x Hx]|Hq]; [|exact Hq].
    by rewrite lookup_empty in Hx.
Qed.

Lemma duplicateAll_registers_witness :
  is_Some (snd (duplicateAll S2.snapshots ∅ [2%nat]) !! "root.B"%string)
  /\ is_Some (snd (duplicateAll S2.snapshots ∅ [2%nat]) !! "root"%string).
Proof.
  destruct (duplicateAll S2.snapshots ∅ [2%nat]) as [h' cache] eqn:E.
  destruct (duplicateAll_registers S2.snapshots [2%nat] h' cache E)
    as (Hreg & Hkeyed & _ & _).
  split.
  - apply (Hreg 2%nat (queueOf (Some 0%nat) "root.B" true (vcore 7) (Some (vcore 5))
                               [S2.V1; S2.V2] (Some 1%nat)));
      [apply elem_of_cons; by left|reflexivity].
  - injection E as <- <-. vm_compute. eauto.
Defined.

Section UnknownQueue.

Variable rangeOrder : nat -> forall A : Type, list (string * A) -> list (string * A).
Variable rmCallback :
  option (list si.PreemptionPredicatesArgs -> option check.predicateCheckResult).
Variable FindQueueByAppID : string -> option string.

Lemma duplicateQueueSnapshots_unknown_queue (site : nat) (p : Preemptor) :
  (forall q, q ∈ heap p -> QueuePath q <> queuePath p) ->
  snd (duplicateQueueSnapshots rangeOrder site p) !! queuePath p = None.
Proof.
  intros Hunknown. unfold duplicateQueueSnapshots.
  destruct (duplicateAll (heap p) ∅ _) as [h cache] eqn:Hdup. simpl.
  destruct (duplicateAll_map _ _ _ _ _ Hdup) as (_ & _ & _ & Hkeys & _).
  destruct (cache !! queuePath p) as [x|] eqn:Hx; [|reflexivity].
  destruct (Hkeys (queuePath p)) as [[y Hy]|(q & Hq & Hpath)]; [eauto| |].
  - by rewrite lookup_empty in Hy.
  - by destruct (Hunknown q Hq).
Qed.

(** X9. When no snapshot the preemptor was given has the queue path of the
    ask, the path is missing from every working copy and every step gives
    up: TryPreemption returns (nil, false) and leaves the world as it was,
    calculateAdditionalVictims returns (nil, false), and
    calculateVictimsByNode returns (-1, nil) for a node the ask does not
    already fit on. *)
Theorem TryPreemption_unknown_queue (p : Preemptor) (w : World) :
  (forall q, q ∈ heap p -> QueuePath q <> queuePath p) ->
  TryPreemption rangeOrder rmCallback FindQueueByAppID p w = failed p w
  /\ (forall ws nodeVictims,
        calculateAdditionalVictims rangeOrder p ws nodeVictims = None)
  /\ (forall ws nodeAvailable potentialVictims,
        FitIn (Some nodeAvailable) (allocatedResource (ask p)) = false ->
        calculateVictimsByNode rangeOrder p ws nodeAvailable potentialVictims
        = (-1, None)).
Proof.
  intros Hunknown. split; [|split].
  - unfold TryPreemption, checkPreemptionQueueGuarantees.
    pose proof (duplicateQueueSnapshots_unknown_queue 1 p Hunknown) as Hnone.
    destruct (duplicateQueueSnapshots rangeOrder 1 p) as [h queues].
    simpl in Hnone. by rewrite Hnone.
  - intros ws nodeVictims. unfold calculateAdditionalVictims.
    pose proof (duplicateQueueSnapshots_unknown_queue 5 p Hunknown) as Hnone.
    destruct (duplicateQueueSnapshots rangeOrder 5 p) as [h queues].
    simpl in Hnone. by rewrite Hnone.
  - intros ws nodeAvailable potentialVictims Hfit. unfold calculateVictimsByNode.
    rewrite Hfit.
    pose proof (duplicateQueueSnapshots_unknown_queue 3 p Hunknown) as Hnone.
    destruct (duplicateQueueSnapshots rangeOrder 3 p) as [h queues].
    simpl in Hnone. by rewrite Hnone.
Qed.

End UnknownQueue.

Lemma TryPreemption_unknown_queue_witness :
  TryPreemption inOrder None queueOfApp Stray.preemptor emptyWorld
  = failed Stray.preemptor emptyWorld.
Proof.
  apply (TryPreemption_unknown_queue inOrder None queueOfApp Stray.preemptor emptyWorld).
  intros q Hq. unfold Stray.preemptor, S2.snapshots in Hq. simpl in Hq.
  repeat (apply elem_of_cons in Hq as [->|Hq]; [vm_compute; discriminate|]).
  by apply elem_of_nil in Hq.
Defined.

(** ** Effective guarantee and maximum *)

Lemma GetGuaranteedResource_rec_tightened (fuel : nat) (h : Heap) :
  forall qps, GetGuaranteedResource_rec fuel h qps = tightened GuaranteedResource fuel h qps.
Proof.
  induction fuel as [|n IH]; intros qps; [reflexivity|].
  destruct qps as [l|]; [|reflexivity]. simpl. destruct (h !! l); [|reflexivity].
  by rewrite IH.
Qed.

Lemma GetMaxResource_rec_tightened (fuel : nat) (h : Heap) :
  forall qps, GetMaxResource_rec fuel h qps = tightened MaxResource fuel h qps.
Proof.
  induction fuel as [|n IH]; intros qps; [reflexivity|].
  destruct qps as [l|]; [|reflexivity]. simpl. destruct (h !! l); [|reflexivity].
  by rewrite IH.
Qed.

Lemma ComponentWiseMin_le_left (pe : Resource) (o : option Resource) k w :
  pe !! k = Some w ->
  exists e v, ComponentWiseMin (Some pe) o = Some e /\ e !! k = Some v /\ v <= w.
Proof.
  intros Hk. destruct o as [g|]; simpl.
  - exists (union_with (fun x y => Some (Z.min x y)) pe g),
      (match g !! k with Some b => Z.min w b | None => w end).
    split; [reflexivity|]. rewrite lookup_union_with, Hk.
    destruct (g !! k) as [b|]; simpl; (split; [reflexivity|lia]).
  - exists pe, w. repeat split; [exact Hk|lia].
Qed.

Lemma ComponentWiseMin_le_right (pe g : Resource) k w :
  g !! k = Some w ->
  exists e v, ComponentWiseMin (Some pe) (Some g) = Some e /\ e !! k = Some v /\ v <= w.
Proof.
  intros Hk. simpl.
  exists (union_with (fun x y => Some (Z.min x y)) pe g),
    (match pe !! k with Some a => Z.min a w | None => w end).
  split; [reflexivity|]. rewrite lookup_union_with, Hk.
  destruct (pe !! k) as [a|]; simpl; (split; [reflexivity|lia]).
Qed.

Lemma tightened_le field (h : Heap) (fuel : nat) :
  forall qps,
    (exists e, tightened field fuel h qps = Some e)
    /\ forall a qa g k w,
         a ∈ lineage_rec fuel h qps -> h !! a = Some qa ->
         field qa = Some g -> g !! k = Some w ->
         exists e v, tightened field fuel h qps = Some e /\ e !! k = Some v /\ v <= w.
Proof.
  induction fuel as [|n IH]; intros qps.
  { simpl. split; [eauto|]. intros a qa g k w Ha. destruct qps; by apply elem_of_nil in Ha. }
  destruct qps as [l|].
  2: { simpl. split; [eauto|]. intros a qa g k w Ha. by apply elem_of_nil in Ha. }
  cbn [tightened lineage_rec]. destruct (h !! l) as [q|] eqn:Hq.
  2: { split; [eauto|]. intros a qa g k w Ha. by apply elem_of_nil in Ha. }
  destruct (IH (Parent q)) as [[pe Hpe] Hparent]. rewrite Hpe.
  split; [destruct (field q); simpl; eauto|].
  intros a qa g k w Ha Hqa Hg Hk. apply elem_of_cons in Ha as [->|Ha].
  - assert (qa = q) as -> by congruence. rewrite Hg.
    by apply ComponentWiseMin_le_right.
  - destruct (Hparent a qa g k w Ha Hqa Hg Hk) as (e & v & He & Hv & Hle).
    assert (e = pe) as -> by congruence.
    destruct (ComponentWiseMin_le_left pe (field q) k v Hv) as (e' & v' & He' & Hv' & Hle').
    exists e', v'. repeat split; [exact He'|exact Hv'|lia].
Qed.

(** X10. Guarantees and maxima tighten downward: the value
    GetGuaranteedResource returns is never nil, whatever the snapshot, and on
    every component for which the snapshot or one of its ancestors defines a
    guaranteed resource it has that component, with at most that guaranteed
    quantity; the same holds of GetMaxResource and the maximum resources. *)
Theorem GetGuaranteedResource_GetMaxResource_tighten (h : Heap) (qps : option loc) :
  (exists e, GetGuaranteedResource h qps = Some e)
  /\ (exists e, GetMaxResource h qps = Some e)
  /\ forall a qa k,
       a ∈ lineage h qps ->
       h !! a = Some qa ->
       (forall g w, GuaranteedResource qa = Some g -> g !! k = Some w ->
          exists e v,
            GetGuaranteedResource h qps = Some e /\ e !! k = Some v /\ v <= w)
       /\ (forall m w, MaxResource qa = Some m -> m !! k = Some w ->
             exists e v, GetMaxResource h qps = Some e /\ e !! k = Some v /\ v <= w).
Proof.
  unfold GetGuaranteedResource, GetMaxResource, lineage in *.
  rewrite GetGuaranteedResource_rec_tightened, GetMaxResource_rec_tightened.
  split; [apply tightened_le|]. split; [apply tightened_le|].
  intros a qa k Ha Hqa.
  split; intros g w Hg Hk; eapply tightened_le; eauto.
Qed.

Lemma GetGuaranteedResource_GetMaxResource_tighten_witness :
  (exists e, GetGuaranteedResource S2.snapshots (Some 2%nat) = Some e)
  /\ exists e v, GetGuaranteedResource S2.snapshots (Some 2%nat) = Some e
                 /\ e !! "vcore"%string = Some v /\ v <= 10.
Proof.
  split; [apply (GetGuaranteedResource_GetMaxResource_tighten S2.snapshots (Some 2%nat))|].
  refine (proj1 (proj2 (proj2 (GetGuaranteedResource_GetMaxResource_tighten S2.snapshots
                                 (Some 2%nat)))
                   0%nat
                   (queueOf None "root" false (vcore 7) (Some (vcore 10)) [] (Some 1%nat))
                   "vcore" _ _) (vcore 10) 10 _ _).
  - vm_compute. apply elem_of_cons. right. apply elem_of_cons. by left.
  - reflexivity.
  - reflexivity.
  - vm_compute. reflexivity.
Defined.

(** ** What a queue can give up *)

Lemma GetPreemptableResource_rec_bound (n : nat) (h : Heap) (l : loc)
  (q : QueuePreemptionSnapshot) :
  h !! l = Some q ->
  (GetPreemptableResource_rec (S n) h (Some l) = None <->
   IsEmpty (AllocatedResource q) = true)
  /\ forall r k v,
       GetPreemptableResource_rec (S n) h (Some l) = Some r -> r !! k = Some v ->
       (exists allocated a,
          AllocatedResource q = Some allocated /\ allocated !! k = Some a
          /\ v <= a - quantity (orZero (PreemptingResource q)) k
                  - quantity (orZero (GuaranteedResource q)) k)
       /\ forall pr w,
            GetPreemptableResource_rec n h (Parent q) = Some pr -> pr !! k = Some w ->
            v <= w.
Proof.
  intros Hl. cbn [GetPreemptableResource_rec]. rewrite Hl.
  destruct (IsEmpty (AllocatedResource q)) eqn:Hempty.
  { split; [tauto|]. intros r k v Hr. discriminate Hr. }
  destruct (AllocatedResource q) as [allocated|] eqn:Halloc;
    [|by rewrite IsEmpty_None in Hempty].
  cbn [SubOnlyExisting fmap option_fmap option_map].
  match goal with
  | |- context [filter ?P ?m] => set (over := filter P m)
  end.
  assert (Hover : forall k v, over !! k = Some v ->
            exists a, allocated !! k = Some a
                      /\ v <= a - quantity (orZero (PreemptingResource q)) k
                              - quantity (orZero (GuaranteedResource q)) k).
  { intros k v Hk. apply map_lookup_filter_Some in Hk as [Hk _].
    rewrite !map_lookup_imap in Hk.
    destruct (allocated !! k) as [a|]; simpl in Hk; [|discriminate Hk].
    injection Hk as <-. exists a. split; [reflexivity|lia]. }
  split.
  - split; [|discriminate].
    destruct (IsEmpty (Some over)); [discriminate|].
    destruct (GetPreemptableResource_rec n h (Parent q)); discriminate.
  - intros r k v Hr Hk. destruct (IsEmpty (Some over)) eqn:Hnone.
    + injection Hr as <-.
      pose proof (proj1 (IsEmpty_true (Some over)) Hnone) as Hzero. simpl in Hzero.
      by rewrite Hzero, lookup_empty in Hk.
    + destruct (GetPreemptableResource_rec n h (Parent q)) as [pr|] eqn:Hparent;
        simpl in Hr; injection Hr as <-.
      * rewrite map_lookup_imap in Hk.
        destruct (over !! k) as [u|] eqn:Hu; simpl in Hk; [|discriminate Hk].
        injection Hk as <-. destruct (Hover k u Hu) as (a & Ha & Hle).
        split.
        -- exists allocated, a. repeat split; [exact Ha|].
           destruct (pr !! k); lia.
        -- intros pr' w [= <-] Hw. rewrite Hw. lia.
      * destruct (Hover k v Hk) as (a & Ha & Hle).
        split; [exists allocated, a; by repeat split|]. intros pr w Hpr. discriminate Hpr.
Qed.

(** X11. GetPreemptableResource returns nil for a snapshot exactly when
    its allocated resource is empty, that is nil or without any component (a
    component that is zero is still a component). Otherwise every component
    it returns is
    bounded by what the queue uses above its guarantee (allocated minus
    preempting minus guaranteed, on a component that is allocated) and by the
    same component of what its parent can give up, when the parent has it. *)
Theorem GetPreemptableResource_bound (h : Heap) (l : loc) (q : QueuePreemptionSnapshot) :
  heap_ok h = true ->
  h !! l = Some q ->
  (GetPreemptableResource h (Some l) = None <-> IsEmpty (AllocatedResource q) = true)
  /\ forall r k v,
       GetPreemptableResource h (Some l) = Some r -> r !! k = Some v ->
       (exists allocated a,
          AllocatedResource q = Some allocated /\ allocated !! k = Some a
          /\ v <= a - quantity (orZero (PreemptingResource q)) k
                  - quantity (orZero (GuaranteedResource q)) k)
       /\ forall pr w,
            GetPreemptableResource h (Parent q) = Some pr -> pr !! k = Some w ->
            v <= w.
Proof.
  intros Hok Hl. unfold GetPreemptableResource.
  destruct (length h) as [|n] eqn:Hlen; [apply lookup_lt_Some in Hl; lia|].
  destruct (GetPreemptableResource_rec_bound n h l q Hl) as [Hnil Hbound].
  split; [exact Hnil|].
  intros r k v Hr Hk. destruct (Hbound r k v Hr Hk) as [Hown Hparent].
  split; [exact Hown|].
  intros pr w Hpr Hw. apply (Hparent pr w); [|exact Hw].
  destruct (Parent q) as [pl|] eqn:Hp; [|by destruct n].
  pose proof (proj1 (heap_ok_spec h) Hok l q pl Hl Hp) as Hlt.
  apply lookup_lt_Some in Hl.
  rewrite <- Hpr. apply GetPreemptableResource_rec_fuel; [exact Hok|lia|lia].
Qed.

Lemma GetPreemptableResource_bound_witness :
  GetPreemptableResource S2.snapshots (Some 2%nat) = Some (vcore 2)
  /\ exists allocated a,
       Some (vcore 7) = Some allocated /\ allocated !! "vcore"%string = Some a
       /\ 2 <= a - quantity (orZero (Some ∅)) "vcore"
               - quantity (orZero (Some (vcore 5))) "vcore".
Proof.
  split; [vm_compute; reflexivity|].
  refine (proj1 (proj2 (GetPreemptableResource_bound S2.snapshots 2%nat
                          (queueOf (Some 0%nat) "root.B" true (vcore 7) (Some (vcore 5))
                                   [S2.V1; S2.V2] (Some 1%nat)) _ _)
                   (vcore 2) "vcore" 2 _ _)); vm_compute; reflexivity.
Defined.

(** ** The working state *)

Section WorkingStateFacts.

Variable rangeOrder : nat -> forall A : Type, list (string * A) -> list (string * A).
Variable p : Preemptor.

Lemma initWorkingState_loops :
  let first :=
    fold_left
      (fun acc (entry : string * loc) =>
         fold_left (recordVictim entry.2)
                   (default [] (PotentialVictims <$> heap p !! entry.2)) acc)
      (range rangeOrder 0 (allocationsByQueue p)) (∅, ∅) in
  let second := fold_left (visitNode p) (iterator p) (first.1, ∅) in
  initWorkingState rangeOrder p
  = {| queueByAlloc := first.2;
       allocationsByNode := sortVictimsForPreemption second.1;
       nodeAvailableMap := second.2 |}.
Proof.
  unfold initWorkingState, recordVictim, visitNode. simpl.
  destruct (fold_left _ (range rangeOrder 0 (allocationsByQueue p)) (∅, ∅))
    as [byNode byAlloc]. simpl.
  destruct (fold_left _ (iterator p) (byNode, ∅)) as [byNode2 available].
  reflexivity.
Qed.

(** What the first loop keeps: a victim is filed under its node, its key is
    known to queueByAlloc, and it is a potential victim of a snapshot;
    queueByAlloc sends a key to a snapshot that lists a victim with that
    key. *)
Definition grouped (acc : gmap string (list Allocation) * gmap string loc) : Prop :=
  (forall k l v, acc.1 !! k = Some l -> v ∈ l ->
     nodeID v = k /\ is_Some (acc.2 !! allocationKey v)
     /\ exists q, q ∈ heap p /\ v ∈ PotentialVictims q)
  /\ (forall key a, acc.2 !! key = Some a ->
        exists q v, heap p !! a = Some q /\ v ∈ PotentialVictims q
                    /\ allocationKey v = key).

Lemma recordVictim_grouped (snapshot : loc) (q : QueuePreemptionSnapshot) acc allocation :
  heap p !! snapshot = Some q -> allocation ∈ PotentialVictims q ->
  grouped acc -> grouped (recordVictim snapshot acc allocation).
Proof.
  intros Hq Hin [Hnode Halloc]. unfold recordVictim. split; simpl.
  - intros k l v Hk Hv.
    assert (Hkeep : forall key, is_Some (acc.2 !! key) ->
              is_Some (<[allocationKey allocation := snapshot]> acc.2 !! key)).
    { intros key Hkey. destruct (decide (allocationKey allocation = key)) as [<-|Hne].
      - rewrite lookup_insert_eq. eauto.
      - by rewrite lookup_insert_ne. }
    apply lookup_insert_Some in Hk as [[<- <-]|[Hne Hk]].
    + apply elem_of_app in Hv as [Hv|Hv].
      * destruct (acc.1 !! nodeID allocation) as [l0|] eqn:Hl0; simpl in Hv;
          [|by apply elem_of_nil in Hv].
        destruct (Hnode _ _ _ Hl0 Hv) as (Hid & Hkey & Hfrom). eauto.
      * apply elem_of_cons in Hv as [->|Hv]; [|by apply elem_of_nil in Hv].
        split; [reflexivity|]. split; [rewrite lookup_insert_eq; eauto|].
        exists q. split; [by eapply list_elem_of_lookup_2|exact Hin].
    + destruct (Hnode _ _ _ Hk Hv) as (Hid & Hkey & Hfrom). eauto.
  - intros key a Hkey. apply lookup_insert_Some in Hkey as [[<- <-]|[_ Hkey]]; eauto.
Qed.

Lemma grouped_empty : grouped (∅, ∅).
Proof.
  split; simpl.
  - intros k l v Hx. by rewrite lookup_empty in Hx.
  - intros key a Hx. by rewrite lookup_empty in Hx.
Qed.

Lemma first_loop_grouped (entries : list (string * loc)) :
  forall acc,
    grouped acc ->
    grouped (fold_left
               (fun acc (entry : string * loc) =>
                  fold_left (recordVictim entry.2)
                            (default [] (PotentialVictims <$> heap p !! entry.2)) acc)
               entries acc).
Proof.
  induction entries as [|entry rest IH]; intros acc Hacc; [exact Hacc|].
  cbn [fold_left]. apply IH.
  destruct (heap p !! entry.2) as [q|] eqn:Hq; simpl; [|exact Hacc].
  assert (Hsub : forall vs, (forall v, v ∈ vs -> v ∈ PotentialVictims q) ->
            forall acc0, grouped acc0 -> grouped (fold_left (recordVictim entry.2) vs acc0)).
  { induction vs as [|v vs IHvs]; intros Hvs acc0 Hacc0; [exact Hacc0|].
    cbn [fold_left]. apply IHvs.
    - intros v' Hv'. apply Hvs, elem_of_cons. by right.
    - eapply recordVictim_grouped; [exact Hq| |exact Hacc0].
      apply Hvs, elem_of_cons. by left. }
  by apply Hsub.
Qed.

(** What the walk over the nodes keeps: lists are only dropped, a node is
    recorded as available only if the iterator showed it usable, and the
    list of a node shown unusable is gone. *)
Lemma second_loop_nodes (nodes : list Node) :
  forall acc : gmap string (list Allocation) * gmap string Resource,
    let out := fold_left (visitNode p) nodes acc in
    (forall k l, out.1 !! k = Some l -> acc.1 !! k = Some l)
    /\ (forall k r, out.2 !! k = Some r ->
          acc.2 !! k = Some r
          \/ exists node, node ∈ nodes /\ NodeID node = k /\ nodeUsable p node = true
                          /\ r = GetAvailableResource node)
    /\ (forall k, is_Some (acc.2 !! k) -> is_Some (out.2 !! k))
    /\ (forall node, node ∈ nodes -> nodeUsable p node = false ->
          out.1 !! NodeID node = None)
    /\ (forall node, node ∈ nodes -> nodeUsable p node = true ->
          is_Some (out.2 !! NodeID node)).
Proof.
  induction nodes as [|node rest IH]; intros acc; simpl.
  { repeat split; eauto; intros node Hn; by apply elem_of_nil in Hn. }
  destruct (IH (visitNode p acc node)) as (Hkept & Hfrom & Hmono & Hgone & Hthere).
  assert (Hstep1 : forall k l, (visitNode p acc node).1 !! k = Some l -> acc.1 !! k = Some l).
  { intros k l. unfold visitNode. destruct (_ || _); simpl; [|done].
    intros Hk. by apply lookup_delete_Some in Hk as [_ Hk]. }
  split; [eauto|]. split; [|split; [|split]].
  - intros k r Hk. destruct (Hfrom k r Hk) as [Hold|(n & Hn & Hid & Hus & Hr)].
    + unfold visitNode, nodeUsable in *. destruct (_ || _) eqn:Htest; simpl in Hold; [eauto|].
      apply lookup_insert_Some in Hold as [[<- <-]|[_ Hold]]; [|eauto].
      right. exists node. rewrite Htest. repeat split. apply elem_of_cons. by left.
    + right. exists n. repeat split; try assumption. apply elem_of_cons. by right.
  - intros k Hk. apply Hmono. unfold visitNode. destruct (_ || _); simpl; [exact Hk|].
    destruct (decide (NodeID node = k)) as [<-|Hne].
    + rewrite lookup_insert_eq. eauto.
    + by rewrite lookup_insert_ne.
  - intros n Hn Hus. apply elem_of_cons in Hn as [->|Hn]; [|eauto].
    destruct ((fold_left (visitNode p) rest (visitNode p acc node)).1 !! NodeID node)
      as [l|] eqn:Hl; [|reflexivity].
    apply Hkept in Hl. unfold visitNode, nodeUsable in *.
    apply negb_false_iff in Hus. rewrite Hus in Hl. simpl in Hl.
    by rewrite lookup_delete_eq in Hl.
  - intros n Hn Hus. apply elem_of_cons in Hn as [->|Hn]; [|eauto].
    apply Hmono. unfold visitNode, nodeUsable in *.
    apply negb_true_iff in Hus. rewrite Hus. simpl. rewrite lookup_insert_eq. eauto.
Qed.

(** X12. initWorkingState records a node as available only if the iterator
    showed a node of that name that is schedulable, not reserved for another
    allocation and large enough for the ask, with the available resource of
    that node; every such node is recorded; and the victims of a node the
    iterator showed unusable are dropped from allocationsByNode. *)
Theorem initWorkingState_nodes :
  (forall k r, nodeAvailableMap (initWorkingState rangeOrder p) !! k = Some r ->
     exists node, node ∈ iterator p /\ NodeID node = k /\ nodeUsable p node = true
                  /\ r = GetAvailableResource node)
  /\ (forall node, node ∈ iterator p -> nodeUsable p node = true ->
        is_Some (nodeAvailableMap (initWorkingState rangeOrder p) !! NodeID node))
  /\ (forall node, node ∈ iterator p -> nodeUsable p node = false ->
        allocationsByNode (initWorkingState rangeOrder p) !! NodeID node = None).
Proof.
  rewrite initWorkingState_loops. simpl.
  match goal with
  | |- context [fold_left (visitNode p) (iterator p) ?acc] =>
      destruct (second_loop_nodes (iterator p) acc) as (_ & Hfrom & _ & Hgone & Hthere)
  end.
  split; [|split].
  - intros k r Hk. destruct (Hfrom k r Hk) as [Hold|Hnode]; [|exact Hnode].
    simpl in Hold. by rewrite lookup_empty in Hold.
  - exact Hthere.
  - intros node Hn Hus. unfold sortVictimsForPreemption.
    by rewrite lookup_fmap, (Hgone node Hn Hus).
Qed.

Lemma initWorkingState_grouped :
  forall k l v,
    allocationsByNode (initWorkingState rangeOrder p) !! k = Some l -> v ∈ l ->
    nodeID v = k
    /\ is_Some (queueByAlloc (initWorkingState rangeOrder p) !! allocationKey v)
    /\ exists q, q ∈ heap p /\ v ∈ PotentialVictims q.
Proof.
  rewrite initWorkingState_loops. simpl. intros k l v Hk Hv.
  match type of Hk with
  | context [fold_left (visitNode p) (iterator p) (?first.1, ∅)] =>
      destruct (second_loop_nodes (iterator p) (first.1, ∅)) as (Hkept & _);
      assert (Hgrouped : grouped first)
        by (apply first_loop_grouped, grouped_empty)
  end.
  unfold sortVictimsForPreemption in Hk.
  apply lookup_fmap_Some in Hk as (l0 & <- & Hl0).
  rewrite SliceStable_Permutation in Hv.
  apply Hkept in Hl0. simpl in Hl0.
  exact (proj1 Hgrouped k l0 v Hl0 Hv).
Qed.

(** X13. In the working state the potential victims are grouped by node:
    every allocation in allocationsByNode[n] runs on node n, is a potential
    victim of one of the snapshots, and has its key in queueByAlloc; and
    queueByAlloc sends a key to a snapshot that lists a potential victim with
    that key. *)
Theorem initWorkingState_groups :
  (forall k l v,
     allocationsByNode (initWorkingState rangeOrder p) !! k = Some l -> v ∈ l ->
     nodeID v = k
     /\ is_Some (queueByAlloc (initWorkingState rangeOrder p) !! allocationKey v)
     /\ exists q, q ∈ heap p /\ v ∈ PotentialVictims q)
  /\ (forall key a,
        queueByAlloc (initWorkingState rangeOrder p) !! key = Some a ->
        exists q v, heap p !! a = Some q /\ v ∈ PotentialVictims q
                    /\ allocationKey v = key).
Proof.
  split; [exact initWorkingState_grouped|].
  rewrite initWorkingState_loops. simpl. intros key a Hkey.
  match type of Hkey with
  | ?first.2 !! _ = _ =>
      assert (Hgrouped : grouped first)
        by (apply first_loop_grouped, grouped_empty)
  end.
  exact (proj2 Hgrouped key a Hkey).
Qed.

End WorkingStateFacts.

(** ** The choice of the node *)

Lemma ltb_asymmetric (a b : string) : String.ltb a b = true -> String.ltb b a = false.
Proof.
  unfold String.ltb. rewrite (String.compare_antisym a b).
  destruct (String.compare b a); simpl; congruence.
Qed.

Lemma ltb_negatively_transitive (a b c : string) :
  String.ltb a b = false -> String.ltb b c = false -> String.ltb a c = false.
Proof.
  unfold String.ltb. intros Hab Hbc.
  destruct (String.compare a b) eqn:Cab; [|discriminate|].
  { apply String.compare_eq_iff in Cab as ->. exact Hbc. }
  destruct (String.compare b c) eqn:Cbc; [|discriminate|].
  { apply String.compare_eq_iff in Cbc as <-. by rewrite Cab. }
  assert (Hba : OrderedTypeEx.String_as_OT.lt b a).
  { apply OrderedTypeEx.String_as_OT.cmp_lt. unfold OrderedTypeEx.String_as_OT.cmp.
    rewrite String.compare_antisym, Cab. reflexivity. }
  assert (Hcb : OrderedTypeEx.String_as_OT.lt c b).
  { apply OrderedTypeEx.String_as_OT.cmp_lt. unfold OrderedTypeEx.String_as_OT.cmp.
    rewrite String.compare_antisym, Cbc. reflexivity. }
  pose proof (OrderedTypeEx.String_as_OT.lt_trans _ _ _ Hcb Hba) as Hca.
  apply OrderedTypeEx.String_as_OT.cmp_lt in Hca.
  unfold OrderedTypeEx.String_as_OT.cmp in Hca.
  rewrite String.compare_antisym, Hca. reflexivity.
Qed.

Lemma checkLess_false (a b : si.PreemptionPredicatesArgs) :
  checkLess a b = false
  <-> si.StartIndex b <= si.StartIndex a
      /\ (si.StartIndex a = si.StartIndex b -> String.ltb (si.NodeID a) (si.NodeID b) = false).
Proof.
  unfold checkLess. destruct (si.StartIndex a =? si.StartIndex b) eqn:Heq.
  - apply Z.eqb_eq in Heq. split; [intros H; split; [lia|by intros _]|].
    intros [_ H]. by apply H.
  - apply Z.eqb_neq in Heq. rewrite Z.ltb_ge. split; [intros H; split; [exact H|done]|].
    by intros [H _].
Qed.

Lemma checkLess_asymmetric (a b : si.PreemptionPredicatesArgs) :
  checkLess a b = true -> checkLess b a = false.
Proof.
  intros Hab. apply checkLess_false. unfold checkLess in Hab.
  destruct (si.StartIndex a =? si.StartIndex b) eqn:Heq.
  - apply Z.eqb_eq in Heq. split; [lia|]. intros _. by apply ltb_asymmetric.
  - apply Z.eqb_neq in Heq. apply Z.ltb_lt in Hab. split; [lia|]. intros ?; lia.
Qed.

Lemma checkLess_negatively_transitive (a b c : si.PreemptionPredicatesArgs) :
  checkLess a b = false -> checkLess b c = false -> checkLess a c = false.
Proof.
  rewrite !checkLess_false. intros [Hab Hab'] [Hbc Hbc']. split; [lia|].
  intros Hac. eapply ltb_negatively_transitive; [apply Hab'|apply Hbc']; lia.
Qed.

Lemma SliceStable_checkLess_head (checks : list si.PreemptionPredicatesArgs) :
  checks <> [] ->
  exists chk rest,
    SliceStable checkLess checks = chk :: rest
    /\ chk ∈ checks
    /\ forall c, c ∈ checks -> checkLess c chk = false.
Proof.
  intros Hne.
  pose proof (SliceStable_Permutation checkLess checks) as Hperm.
  pose proof (SliceStable_sortedBy checkLess checkLess_asymmetric
                checkLess_negatively_transitive checks) as Hsorted.
  destruct (SliceStable checkLess checks) as [|chk rest].
  { symmetry in Hperm. apply Permutation_nil_r in Hperm. contradiction. }
  exists chk, rest. split; [reflexivity|]. split.
  { rewrite <- Hperm. apply elem_of_cons. by left. }
  intros c Hc. rewrite <- Hperm in Hc. destruct Hsorted as [Hhead _].
  apply elem_of_cons in Hc as [->|Hc].
  - destruct (checkLess chk chk) eqn:Hself; [|reflexivity].
    by rewrite (checkLess_asymmetric _ _ Hself) in Hself.
  - rewrite Forall_forall in Hhead. by apply Hhead.
Qed.

(** X14. With no predicate plugin registered, checkPreemptionPredicates
    answers nil for an empty list of checks, and otherwise names the node and
    the ask of a check whose start index is the smallest of all the checks
    and, among the checks with that start index, whose node name comes
    first. *)
Theorem checkPreemptionPredicates_without_plugin
  (checks : list si.PreemptionPredicatesArgs)
  (victimsByNode : gmap string (list Allocation)) :
  match checkPreemptionPredicates None checks victimsByNode with
  | None => checks = []
  | Some result =>
      exists chk,
        chk ∈ checks
        /\ check.nodeID result = si.NodeID chk
        /\ check.allocationKey result = si.AllocationKey chk
        /\ forall c, c ∈ checks ->
             si.StartIndex chk <= si.StartIndex c
             /\ (si.StartIndex c = si.StartIndex chk ->
                 String.ltb (si.NodeID c) (si.NodeID chk) = false)
  end.
Proof.
  unfold checkPreemptionPredicates.
  destruct checks as [|c0 checks0]; [reflexivity|].
  rewrite bool_decide_eq_false_2 by discriminate.
  destruct (SliceStable_checkLess_head (c0 :: checks0)) as (chk & rest & -> & Hin & Hmin);
    [discriminate|].
  simpl.
  destruct (victimsByNode !! si.NodeID chk) as [victimList|];
    [destruct (Z.of_nat (length victimList) <=? si.StartIndex chk)|];
    (exists chk; split; [exact Hin|]; split; [reflexivity|]; split; [reflexivity|];
     intros c Hc; by apply checkLess_false, Hmin).
Qed.

Section NodeChoice.

Variable rangeOrder : nat -> forall A : Type, list (string * A) -> list (string * A).
Variable rmCallback :
  option (list si.PreemptionPredicatesArgs -> option check.predicateCheckResult).
Variable p : Preemptor.

(** The loop of tryNodes keeps, under each node, victims of that node, and
    every check it builds is for the ask and for a node that has victims
    recorded. *)
Lemma tryNodes_loop (entries : list (string * Resource)) :
  forall acc : list si.PreemptionPredicatesArgs * gmap string (list Allocation),
    (forall k l, acc.2 !! k = Some l -> Forall (fun v => nodeID v = k) l) ->
    Forall (fun chk => si.AllocationKey chk = allocationKey (ask p)
                       /\ is_Some (acc.2 !! si.NodeID chk)) acc.1 ->
    let out :=
      fold_left
        (fun (acc : list si.PreemptionPredicatesArgs * gmap string (list Allocation))
             (entry : string * Resource) =>
           let allocations :=
             default [] (allocationsByNode (initWorkingState rangeOrder p) !! entry.1) in
           match calculateVictimsByNode rangeOrder p (initWorkingState rangeOrder p)
                   entry.2 allocations with
           | (idx, Some victims) =>
               let victimsByNode := <[entry.1 := victims]> acc.2 in
               let keys := allocationKey <$> victims in
               if negb (bool_decide (length victims = 0%nat)) || negb (nodesTried p)
               then (acc.1 ++ [ {| si.AllocationKey := allocationKey (ask p);
                                   si.NodeID := entry.1;
                                   si.PreemptAllocationKeys := keys;
                                   si.StartIndex := int32 idx |} ],
                     victimsByNode)
               else (acc.1, victimsByNode)
           | (_, None) => acc
           end)
        entries acc in
    (forall k l, out.2 !! k = Some l -> Forall (fun v => nodeID v = k) l)
    /\ Forall (fun chk => si.AllocationKey chk = allocationKey (ask p)
                          /\ is_Some (out.2 !! si.NodeID chk)) out.1.
Proof.
  induction entries as [|entry rest IH]; intros acc Hby Hchecks; [by split|].
  cbn [fold_left]. apply IH.
  - destruct (calculateVictimsByNode _ _ _ _ _) as [idx [vs|]] eqn:Hcalc; [|exact Hby].
    assert (Hvs : Forall (fun v => nodeID v = entry.1) vs).
    { eapply calculateVictimsByNode_Forall; [|exact Hcalc].
      destruct (allocationsByNode _ !! entry.1) as [l|] eqn:Hl; simpl; [|constructor].
      apply Forall_forall. intros v Hv.
      exact (proj1 (initWorkingState_grouped rangeOrder p _ _ _ Hl Hv)). }
    assert (Hins : forall k l, <[entry.1 := vs]> acc.2 !! k = Some l ->
                               Forall (fun v => nodeID v = k) l).
    { intros k l Hk. apply lookup_insert_Some in Hk as [[<- <-]|[_ Hk]]; eauto. }
    destruct (_ || _); exact Hins.
  - destruct (calculateVictimsByNode _ _ _ _ _) as [idx [vs|]] eqn:Hcalc; [|exact Hchecks].
    assert (Hkeep : Forall (fun chk => si.AllocationKey chk = allocationKey (ask p)
                              /\ is_Some (<[entry.1 := vs]> acc.2 !! si.NodeID chk)) acc.1).
    { eapply Forall_impl; [exact Hchecks|]. intros chk [Hkey Hsome]. split; [exact Hkey|].
      destruct (decide (entry.1 = si.NodeID chk)) as [<-|Hne].
      - rewrite lookup_insert_eq. eauto.
      - by rewrite lookup_insert_ne. }
    destruct (_ || _); simpl; [|exact Hkeep].
    apply Forall_app. split; [exact Hkeep|]. apply Forall_singleton. simpl.
    split; [reflexivity|]. rewrite lookup_insert_eq. eauto.
Qed.

(** X15. Whatever the predicate plugin answers, the victims tryNodes
    returns all run on the node it returns. *)
Theorem tryNodes_victims_on_node (node : string) (victims : option (list Allocation)) :
  tryNodes rangeOrder rmCallback p (initWorkingState rangeOrder p) = Some (node, victims) ->
  Forall (fun v => nodeID v = node) (default [] victims).
Proof.
  unfold tryNodes.
  match goal with
  | |- context [fold_left ?f ?entries ([], ∅)] =>
      destruct (tryNodes_loop entries ([], ∅)) as [Hby _];
      [intros k l Hk; simpl in Hk; by rewrite lookup_empty in Hk|constructor|];
      destruct (fold_left f entries ([], ∅)) as [predicateChecks victimsByNode]
  end.
  simpl in Hby. unfold checkPreemptionPredicates.
  assert (Hpop : forall pcr r,
             populateVictims pcr victimsByNode = Some r -> check.success r = true ->
             Forall (fun v => nodeID v = check.nodeID r) (default [] (check.victims r))).
  { intros pcr r Hr Hs.
    destruct (populateVictims_success _ _ _ Hr Hs) as (r0 & l & _ & Hnode & _ & Hl & _ & ->).
    simpl. apply Forall_take. rewrite ?Hnode. exact (Hby _ _ Hl). }
  destruct (bool_decide _); [discriminate|].
  destruct rmCallback as [plugin|].
  - destruct (populateVictims _ victimsByNode) as [r|] eqn:Hr; [|discriminate].
    destruct (check.success r) eqn:Hs; [|discriminate].
    intros [= <- <-]. eapply Hpop; eauto.
  - destruct (SliceStable checkLess predicateChecks) as [|chk rest]; [discriminate|].
    destruct (populateVictims _ victimsByNode) as [r|] eqn:Hr; [|discriminate].
    destruct (check.success r) eqn:Hs; [|discriminate].
    intros [= <- <-]. eapply Hpop; eauto.
Qed.

End NodeChoice.

Lemma tryNodes_victims_on_node_witness :
  tryNodes inOrder None (S2.preemptor false) (initWorkingState inOrder (S2.preemptor false))
  = Some ("N1"%string, Some [S2.V1])
  /\ Forall (fun v => nodeID v = "N1"%string) [S2.V1].
Proof.
  split; [vm_compute; reflexivity|].
  apply (tryNodes_victims_on_node inOrder None (S2.preemptor false) "N1" (Some [S2.V1])).
  vm_compute. reflexivity.
Defined.

(** ** The commit *)

Lemma totalOf_snoc (victims : list Allocation) (v : Allocation) :
  totalOf (victims ++ [v]) = Add (totalOf victims) (allocatedResource v).
Proof. unfold totalOf. by rewrite fold_left_app. Qed.

Section Commit.

Variable FindQueueByAppID : string -> option string.

Lemma preemptVictims_releasedAllocations (finalVictims : list Allocation) :
  forall w : World,
    releasedAllocations (preemptVictims FindQueueByAppID finalVictims w)
    = releasedAllocations w.
Proof.
  unfold preemptVictims. induction finalVictims as [|v rest IH]; intros w; [reflexivity|].
  cbn [fold_left]. rewrite IH.
  destruct (FindQueueByAppID (applicationID v)); reflexivity.
Qed.

(** X16. The commit loop of TryPreemption adds to the preempting resource
    of each live queue exactly the sum of the final victims whose application
    runs in that queue, marks as preempted exactly the final victims whose
    application has a live queue, in their order, and notifies no release
    itself. *)
Theorem preemptVictims_accounting (finalVictims : list Allocation) (w : World) :
  (forall queue k,
     quantity (default ∅ (preemptingResource (preemptVictims FindQueueByAppID finalVictims w)
                            !! queue)) k
     = quantity (default ∅ (preemptingResource w !! queue)) k
       + quantity (totalOf (victimsOfQueue FindQueueByAppID queue finalVictims)) k)
  /\ preemptedAllocations (preemptVictims FindQueueByAppID finalVictims w)
     = preemptedAllocations w
       ++ (allocationKey <$> victimsWithQueue FindQueueByAppID finalVictims)
  /\ releasedAllocations (preemptVictims FindQueueByAppID finalVictims w)
     = releasedAllocations w.
Proof.
  unfold preemptVictims, victimsOfQueue, victimsWithQueue.
  induction finalVictims as [|v rest IH] using rev_ind.
  - simpl. split; [|split; [by rewrite app_nil_r|reflexivity]].
    intros queue k. unfold totalOf. simpl. unfold quantity at 3, NewResource.
    rewrite lookup_empty. simpl. lia.
  - destruct IH as (Hres & Hpre & Hrel). rewrite fold_left_app. cbn [fold_left].
    split; [|split].
    + intros queue k. rewrite filter_app, filter_cons, filter_nil.
      destruct (FindQueueByAppID (applicationID v)) as [victimQueue|] eqn:Hq.
      * simpl. destruct (decide (victimQueue = queue)) as [<-|Hne].
        -- rewrite decide_True by reflexivity. rewrite lookup_insert_eq. simpl.
           rewrite totalOf_snoc, !quantity_Add, Hres. lia.
        -- rewrite decide_False by congruence. rewrite lookup_insert_ne by exact Hne.
           rewrite app_nil_r. apply Hres.
      * rewrite decide_False by discriminate. rewrite app_nil_r. apply Hres.
    + rewrite filter_app, filter_cons, filter_nil.
      destruct (FindQueueByAppID (applicationID v)) as [victimQueue|] eqn:Hq.
      * rewrite decide_True by eauto. simpl.
        rewrite Hpre, fmap_app, app_assoc. reflexivity.
      * rewrite decide_False by (intros [? ?]; discriminate). rewrite app_nil_r.
        exact Hpre.
    + destruct (FindQueueByAppID (applicationID v)); [simpl|]; exact Hrel.
Qed.

End Commit.

Lemma collectFinalVictims_Forall (Good : Allocation -> Prop) fitIn node askResource :
  forall victims total final,
    Forall Good victims -> Forall Good final ->
    Forall Good (collectFinalVictims fitIn node askResource victims total final).2.
Proof.
  induction victims as [|victim rest IH]; intros total final Hall Hfinal; [exact Hfinal|].
  apply Forall_cons in Hall as [Hv Hrest]. cbn [collectFinalVictims].
  destruct (_ && _); [by apply IH|].
  destruct (StrictlyGreaterThanOnlyExisting _ _); apply IH; try assumption.
  apply Forall_app. split; [exact Hfinal|by apply Forall_singleton].
Qed.

Lemma collectFinalVictims_grows fitIn node askResource :
  forall victims total final,
    final <> [] ->
    (collectFinalVictims fitIn node askResource victims total final).2 <> [].
Proof.
  induction victims as [|victim rest IH]; intros total final Hfinal; [exact Hfinal|].
  cbn [collectFinalVictims]. destruct (_ && _); [by apply IH|].
  destruct (StrictlyGreaterThanOnlyExisting _ _); apply IH; [|exact Hfinal].
  intros Hnil. by apply app_eq_nil in Hnil as [_ ?].
Qed.

Lemma collectFinalVictims_none fitIn node askResource :
  forall victims total,
    StrictlyGreaterThanOnlyExisting askResource total = true ->
    (collectFinalVictims fitIn node askResource victims total []).2 = [] ->
    (collectFinalVictims fitIn node askResource victims total []).1 = total.
Proof.
  induction victims as [|victim rest IH]; intros total Hgt; [reflexivity|].
  cbn [collectFinalVictims]. destruct (_ && _); [by apply IH|].
  rewrite Hgt. intros Hnil. exfalso.
  revert Hnil. apply collectFinalVictims_grows. discriminate.
Qed.

Section Outcomes.

Variable rangeOrder : nat -> forall A : Type, list (string * A) -> list (string * A).
Variable rmCallback :
  option (list si.PreemptionPredicatesArgs -> option check.predicateCheckResult).
Variable FindQueueByAppID : string -> option string.
Variable p : Preemptor.
Variable w : World.

(** X17. A successful TryPreemption reserves a node for the ask it has
    just marked as having triggered preemption, so that CheckPreconditions
    refuses the ask from then on at any time; the world it leaves is the
    commit of its final victims followed, when there is a final victim, by
    one release notification that lists them all, and by none when there is
    no final victim; and every final victim is a potential victim of one of
    the queue snapshots. *)
Theorem TryPreemption_success (res : AllocationResult) :
  oResult (TryPreemption rangeOrder rmCallback FindQueueByAppID p w) = Some res ->
  let o := TryPreemption rangeOrder rmCallback FindQueueByAppID p w in
  (exists node, res = Reserved node (MarkTriggeredPreemption (ask p)))
  /\ oPreemptor o = withAsk p (MarkTriggeredPreemption (ask p))
  /\ (forall now later, CheckPreconditions (oPreemptor o) now later = (false, oPreemptor o))
  /\ oWorld o
     = notifyRMAllocationReleased (preemptVictims FindQueueByAppID (oFinalVictims o) w)
         (oFinalVictims o)
  /\ releasedAllocations (oWorld o)
     = (if bool_decide (oFinalVictims o = []) then releasedAllocations w
        else releasedAllocations w ++ [allocationKey <$> oFinalVictims o])
  /\ Forall (fun v => exists q, q ∈ heap p /\ v ∈ PotentialVictims q) (oFinalVictims o).
Proof.
  set (Good := fun v : Allocation => exists q, q ∈ heap p /\ v ∈ PotentialVictims q).
  assert (HGood : forall q, q ∈ heap p -> Forall Good (PotentialVictims q)).
  { intros q Hq. apply Forall_forall. intros v Hv. exists q. by split. }
  unfold TryPreemption.
  destruct (negb _); [discriminate|].
  destruct (tryNodes _ _ _ _) as [[node victims]|] eqn:Htry; [|discriminate].
  destruct (calculateAdditionalVictims _ _ _ _) as [extraVictims|] eqn:Hextra;
    [|discriminate].
  destruct (bool_decide _); [discriminate|].
  pose proof (collectFinalVictims_Forall Good
                (FitIn (nodeAvailableMap (initWorkingState rangeOrder p) !! node)
                       (allocatedResource (ask p)))
                node (allocatedResource (ask p)) (default [] victims ++ extraVictims)
                NewResource []) as Hfinal.
  destruct (collectFinalVictims _ _ _ _ _ _) as [total finalVictims].
  destruct (StrictlyGreaterThanOnlyExisting _ _); [discriminate|].
  simpl. intros [= <-]. split; [by exists node|]. split; [reflexivity|].
  split.
  { intros now later. unfold CheckPreconditions. simpl.
    destruct (negb (allowPreemptOther (ask p))); reflexivity. }
  split; [reflexivity|]. split.
  { unfold notifyRMAllocationReleased. destruct finalVictims as [|v rest].
    - reflexivity.
    - rewrite !bool_decide_eq_false_2 by discriminate. cbn [releasedAllocations].
      by rewrite (preemptVictims_releasedAllocations FindQueueByAppID (v :: rest) w). }
  apply Hfinal; [|constructor]. apply Forall_app. split.
  - exact (tryNodes_Forall rangeOrder rmCallback Good p HGood _ _ Htry).
  - exact (calculateAdditionalVictims_Forall rangeOrder Good p HGood _ _ _ Hextra).
Qed.

(** X18. A TryPreemption that answers (nil, false) has committed
    nothing: no victim is marked, no release is notified, no queue has its
    preempting resource raised, and the ask is not marked as having triggered
    preemption. *)
Theorem TryPreemption_failure :
  oResult (TryPreemption rangeOrder rmCallback FindQueueByAppID p w) = None ->
  oFinalVictims (TryPreemption rangeOrder rmCallback FindQueueByAppID p w) = []
  /\ oPreemptor (TryPreemption rangeOrder rmCallback FindQueueByAppID p w) = p
  /\ oWorld (TryPreemption rangeOrder rmCallback FindQueueByAppID p w) = w.
Proof.
  unfold TryPreemption.
  destruct (negb _); [by intros _|].
  destruct (tryNodes _ _ _ _) as [[node victims]|]; [|by intros _].
  destruct (calculateAdditionalVictims _ _ _ _) as [extraVictims|]; [|by intros _].
  destruct (bool_decide _); [by intros _|].
  destruct (collectFinalVictims _ _ _ _ _ _) as [total finalVictims].
  destruct (StrictlyGreaterThanOnlyExisting _ _); [by intros _|].
  discriminate.
Qed.

(** X19. When the ask is StrictlyGreaterThanOnlyExisting than the empty
    vector, which it is exactly when it has a component and all its
    components are positive, a successful TryPreemption always preempts at
    least one victim: with no final victim the sum of the victims the last
    loop looked at is still empty, and the shortfall test fails the call.
    An ask with a component that is zero or negative is not covered. *)
Theorem TryPreemption_success_has_victims (res : AllocationResult) :
  StrictlyGreaterThanOnlyExisting (allocatedResource (ask p)) NewResource = true ->
  oResult (TryPreemption rangeOrder rmCallback FindQueueByAppID p w) = Some res ->
  oFinalVictims (TryPreemption rangeOrder rmCallback FindQueueByAppID p w) <> [].
Proof.
  intros Hask. unfold TryPreemption.
  destruct (negb _); [discriminate|].
  destruct (tryNodes _ _ _ _) as [[node victims]|]; [|discriminate].
  destruct (calculateAdditionalVictims _ _ _ _) as [extraVictims|]; [|discriminate].
  destruct (bool_decide _); [discriminate|].
  pose proof (collectFinalVictims_none
                (FitIn (nodeAvailableMap (initWorkingState rangeOrder p) !! node)
                       (allocatedResource (ask p)))
                node (allocatedResource (ask p)) (default [] victims ++ extraVictims)
                NewResource Hask) as Hnone.
  destruct (collectFinalVictims _ _ _ _ _ _) as [total finalVictims].
  destruct (StrictlyGreaterThanOnlyExisting _ total) eqn:Hgt; [discriminate|].
  simpl in *. intros _ ->. rewrite Hnone in Hgt by reflexivity. congruence.
Qed.

End Outcomes.

Lemma TryPreemption_success_witness :
  oResult (TryPreemption inOrder None queueOfApp (S2.preemptor false) emptyWorld)
  = Some (Reserved "N1" (MarkTriggeredPreemption (ask (S2.preemptor false))))
  /\ releasedAllocations
       (oWorld (TryPreemption inOrder None queueOfApp (S2.preemptor false) emptyWorld))
     = [allocationKey
          <$> oFinalVictims
                (TryPreemption inOrder None queueOfApp (S2.preemptor false) emptyWorld)].
Proof.
  split; [vm_compute; reflexivity|].
  apply (TryPreemption_success inOrder None queueOfApp (S2.preemptor false) emptyWorld
           (Reserved "N1" (MarkTriggeredPreemption (ask (S2.preemptor false))))).
  vm_compute. reflexivity.
Defined.

Lemma TryPreemption_failure_witness :
  oResult (TryPreemption inOrder None queueOfApp S1.preemptor emptyWorld) = None
  /\ oWorld (TryPreemption inOrder None queueOfApp S1.preemptor emptyWorld) = emptyWorld.
Proof.
  split; [vm_compute; reflexivity|].
  apply (TryPreemption_failure inOrder None queueOfApp S1.preemptor emptyWorld).
  vm_compute. reflexivity.
Defined.

Lemma TryPreemption_success_has_victims_witness :
  StrictlyGreaterThanOnlyExisting (allocatedResource (ask (S2.preemptor false))) NewResource
  = true
  /\ oFinalVictims (TryPreemption inOrder None queueOfApp (S2.preemptor false) emptyWorld)
     <> [].
Proof.
  split; [vm_compute; reflexivity|].
  apply (TryPreemption_success_has_victims inOrder None queueOfApp (S2.preemptor false)
           emptyWorld
           (Reserved "N1" (MarkTriggeredPreemption (ask (S2.preemptor false)))));
    vm_compute; reflexivity.
Defined.

(** ** No victim is chosen twice *)

Lemma sameButAllocated_QueuePath (q q' : QueuePreemptionSnapshot) :
  sameButAllocated q q' -> QueuePath q' = QueuePath q.
Proof. intros ->. reflexivity. Qed.

Lemma snapshotOfVictim_usageOnly (ws : WorkingState) (h h' : Heap) (snap : gmap string loc)
  (victim : Allocation) :
  usageOnly h h' ->
  snapshotOfVictim ws h' snap victim = snapshotOfVictim ws h snap victim.
Proof.
  intros Huse. unfold snapshotOfVictim.
  destruct (queueByAlloc ws !! allocationKey victim) as [qv|]; simpl; [|reflexivity].
  destruct (h !! qv) as [q|] eqn:Hq.
  - destruct (proj2 Huse _ _ Hq) as (q' & -> & Hsame). simpl.
    by rewrite (sameButAllocated_QueuePath _ _ Hsame).
  - by rewrite (usageOnly_lookup_None _ _ _ Huse Hq).
Qed.

Lemma removeNodeVictims_seen (ws : WorkingState) (snap : gmap string loc) (h0 : Heap) :
  forall (nodeVictims : list Allocation) (h : Heap) (seen : gset string),
    usageOnly h0 h ->
    usageOnly h0 (removeNodeVictims ws snap nodeVictims h seen).1
    /\ seen ⊆ (removeNodeVictims ws snap nodeVictims h seen).2
    /\ forall nv, nv ∈ nodeVictims -> is_Some (snapshotOfVictim ws h0 snap nv) ->
         allocationKey nv ∈ (removeNodeVictims ws snap nodeVictims h seen).2.
Proof.
  induction nodeVictims as [|victim rest IH]; intros h seen Huse.
  { split; [exact Huse|]. split; [done|]. intros nv Hnv. by apply elem_of_nil in Hnv. }
  cbn [removeNodeVictims].
  pose proof (snapshotOfVictim_usageOnly ws h0 h snap victim Huse) as Hsame.
  destruct (snapshotOfVictim ws h snap victim) as [queueSnapshot|] eqn:Hsnap.
  - destruct (IH (RemoveAllocation h (Some queueSnapshot) (allocatedResource victim))
                ({[allocationKey victim]} ∪ seen)) as (Huse' & Hsub & Hin).
    { eapply usageOnly_trans; [exact Huse|apply RemoveAllocation_usageOnly]. }
    split; [exact Huse'|].
    split; [intros x Hx; apply Hsub, elem_of_union; by right|].
    intros nv Hnv Hknown. apply elem_of_cons in Hnv as [->|Hnv]; [|by apply Hin].
    apply Hsub, elem_of_union. left. by apply elem_of_singleton.
  - destruct (IH h seen Huse) as (Huse' & Hsub & Hin).
    split; [exact Huse'|]. split; [exact Hsub|].
    intros nv Hnv Hknown. apply elem_of_cons in Hnv as [->|Hnv]; [|by apply Hin].
    rewrite <- Hsame in Hknown. by destruct Hknown.
Qed.

Section NoVictimTwice.

Variable rangeOrder : nat -> forall A : Type, list (string * A) -> list (string * A).
Variable rmCallback :
  option (list si.PreemptionPredicatesArgs -> option check.predicateCheckResult).
Variable p : Preemptor.

(** A range visits every entry of the map once. *)
Hypothesis rangeOrder_Permutation :
  forall (site : nat) (A : Type) (l : list (string * A)), rangeOrder site A l ≡ₚ l.

Lemma calculateAdditionalVictims_unseen (ws : WorkingState)
  (nodeVictims extraVictims : list Allocation) :
  (forall nv, nv ∈ nodeVictims ->
     is_Some (snapshotOfVictim ws (duplicateQueueSnapshots rangeOrder 5 p).1
                (duplicateQueueSnapshots rangeOrder 5 p).2 nv)) ->
  calculateAdditionalVictims rangeOrder p ws nodeVictims = Some extraVictims ->
  forall v nv, v ∈ extraVictims -> nv ∈ nodeVictims -> allocationKey v <> allocationKey nv.
Proof.
  unfold calculateAdditionalVictims.
  destruct (duplicateQueueSnapshots rangeOrder 5 p) as [h snap]. simpl.
  intros Hknown.
  destruct (snap !! queuePath p) as [askQueue|]; [|discriminate].
  destruct (removeNodeVictims_seen ws snap h nodeVictims h ∅ (usageOnly_refl h))
    as (_ & _ & Hseen).
  destruct (removeNodeVictims ws snap nodeVictims h ∅) as [h1 seen]. simpl in Hseen.
  destruct (_ && _); [|discriminate]. intros [= <-] v nv Hv Hnv Heq.
  assert (Hall : Forall (fun v => allocationKey v ∉ seen)
                   (tuVictims
                      (additionalVictims ws snap askQueue
                         (SliceStable compareAllocationLess
                            (fold_left
                               (fun (acc : list Allocation) (entry : string * loc) =>
                                  fold_left
                                    (fun (acc : list Allocation) victim =>
                                       if bool_decide (allocationKey victim ∈ seen) then acc
                                       else acc ++ [victim])
                                    (default [] (PotentialVictims <$> heap p !! entry.2)) acc)
                               (range rangeOrder 6 (allocationsByQueue p)) []))
                         {| tuHeap := h1; tuVictims := [] |}))).
  { apply additionalVictims_Forall; [|constructor].
    apply SliceStable_Forall.
    apply (fold_left_invariant (Forall (fun v => allocationKey v ∉ seen)) (fun _ => True));
      [|apply Forall_forall; intros; exact I|constructor].
    intros acc entry Hacc _.
    apply (fold_left_invariant (Forall (fun v => allocationKey v ∉ seen)) (fun _ => True));
      [|apply Forall_forall; intros; exact I|exact Hacc].
    intros acc' victim Hacc' _.
    destruct (bool_decide (allocationKey victim ∈ seen)) eqn:Hin; [exact Hacc'|].
    apply bool_decide_eq_false in Hin.
    apply Forall_app. split; [exact Hacc'|by apply Forall_singleton]. }
  rewrite Forall_forall in Hall. apply (Hall v Hv). rewrite Heq.
  apply Hseen; [exact Hnv|]. by apply Hknown.
Qed.

Lemma first_loop_sources (Src : loc -> Prop) (entries : list (string * loc)) :
  Forall (fun entry => Src entry.2) entries ->
  forall acc : gmap string (list Allocation) * gmap string loc,
    (forall key a, acc.2 !! key = Some a -> Src a) ->
    forall key a,
      (fold_left
         (fun acc (entry : string * loc) =>
            fold_left (recordVictim entry.2)
                      (default [] (PotentialVictims <$> heap p !! entry.2)) acc)
         entries acc).2 !! key = Some a ->
      Src a.
Proof.
  intros Hentries. induction Hentries as [|entry rest Hentry _ IH]; intros acc Hacc;
    [exact Hacc|].
  cbn [fold_left]. apply IH.
  generalize (default [] (PotentialVictims <$> heap p !! entry.2)).
  intros vs. revert acc Hacc. induction vs as [|v vs IHvs]; intros acc Hacc; [exact Hacc|].
  cbn [fold_left]. apply IHvs. unfold recordVictim. simpl.
  intros key a Hkey. apply lookup_insert_Some in Hkey as [[_ <-]|[_ Hkey]]; eauto.
Qed.

Lemma initWorkingState_known (v : Allocation) (l : list Allocation) (k : string) :
  allocationsByNode (initWorkingState rangeOrder p) !! k = Some l -> v ∈ l ->
  is_Some (snapshotOfVictim (initWorkingState rangeOrder p)
             (duplicateQueueSnapshots rangeOrder 5 p).1
             (duplicateQueueSnapshots rangeOrder 5 p).2 v).
Proof.
  intros Hl Hv.
  destruct (initWorkingState_grouped rangeOrder p k l v Hl Hv) as (_ & [a Ha] & _).
  assert (Hsrc : a ∈ (range rangeOrder 5 (allocationsByQueue p)).*2
                 /\ exists q, heap p !! a = Some q).
  { revert Ha. rewrite initWorkingState_loops. simpl. intros Ha. split.
    - revert Ha.
      apply (first_loop_sources
               (fun a => a ∈ (range rangeOrder 5 (allocationsByQueue p)).*2)).
      + apply Forall_forall. intros entry Hentry. unfold range in *.
        rewrite rangeOrder_Permutation. rewrite rangeOrder_Permutation in Hentry.
        apply list_elem_of_fmap. by exists entry.
      + intros key a0 Hx. simpl in Hx. by rewrite lookup_empty in Hx.
    - destruct (proj2 (first_loop_grouped p _ _ (grouped_empty p)) _ _ Ha)
        as (q & _ & Hq & _).
      by exists q. }
  destruct Hsrc as [Hin (q & Hq)].
  unfold duplicateQueueSnapshots.
  destruct (duplicateAll (heap p) ∅ _) as [h snap] eqn:Hdup. simpl.
  destruct (duplicateAll_map _ _ _ _ _ Hdup) as (Hheap & _ & _ & _ & Hreg).
  unfold snapshotOfVictim. rewrite Ha. simpl. rewrite (Hheap _ _ Hq). simpl.
  exact (Hreg a q Hin Hq).
Qed.

Lemma tryNodes_from_allocationsByNode (Good : Allocation -> Prop) (ws : WorkingState)
  (node : string) (victims : option (list Allocation)) :
  (forall k l, allocationsByNode ws !! k = Some l -> Forall Good l) ->
  tryNodes rangeOrder rmCallback p ws = Some (node, victims) ->
  Forall Good (default [] victims).
Proof.
  intros Hws. unfold tryNodes.
  match goal with
  | |- context [fold_left ?f ?entries ([], ∅)] =>
      assert (Hby : map_Forall (fun _ vs => Forall Good vs)
                      (snd (fold_left f entries ([], ∅))));
      [|destruct (fold_left f entries ([], ∅)) as [predicateChecks victimsByNode]]
  end.
  { apply (fold_left_invariant
             (fun acc : list si.PreemptionPredicatesArgs * gmap string (list Allocation) =>
                map_Forall (fun _ l => Forall Good l) acc.2)
             (fun _ => True)); [|apply Forall_forall; intros; exact I|apply map_Forall_empty].
    intros acc entry Hacc _.
    destruct (calculateVictimsByNode _ _ _ _ _) as [idx [vs|]] eqn:Hcalc; [|exact Hacc].
    assert (Hvs : Forall Good vs).
    { eapply calculateVictimsByNode_Forall; [|exact Hcalc].
      destruct (allocationsByNode _ !! entry.1) as [l|] eqn:Hl; simpl; [|constructor].
      exact (Hws _ _ Hl). }
    destruct (_ || _); simpl; by apply map_Forall_insert_2. }
  simpl in Hby. unfold checkPreemptionPredicates.
  assert (Hpop : forall pcr r,
             populateVictims pcr victimsByNode = Some r -> check.success r = true ->
             Forall Good (default [] (check.victims r))).
  { intros pcr r Hr Hs.
    destruct (populateVictims_success _ _ _ Hr Hs) as (r0 & l & _ & Hnode & _ & Hl & _ & ->).
    simpl. apply Forall_take. rewrite ?Hnode. exact (Hby _ _ Hl). }
  destruct (bool_decide _); [discriminate|].
  destruct rmCallback as [plugin|].
  - destruct (populateVictims _ victimsByNode) as [r|] eqn:Hr; [|discriminate].
    destruct (check.success r) eqn:Hs; [|discriminate].
    intros [= <- <-]. eapply Hpop; eauto.
  - destruct (SliceStable checkLess predicateChecks) as [|chk rest]; [discriminate|].
    destruct (populateVictims _ victimsByNode) as [r|] eqn:Hr; [|discriminate].
    destruct (check.success r) eqn:Hs; [|discriminate].
    intros [= <- <-]. eapply Hpop; eauto.
Qed.

(** X20. When every range visits each entry of its map once, the
    additional victims calculateAdditionalVictims finds for the victims
    tryNodes chose never repeat one of them: no additional victim has the
    allocation key of a victim of the node. *)
Theorem calculateAdditionalVictims_fresh (node : string)
  (victims : option (list Allocation)) (extraVictims : list Allocation) :
  tryNodes rangeOrder rmCallback p (initWorkingState rangeOrder p) = Some (node, victims) ->
  calculateAdditionalVictims rangeOrder p (initWorkingState rangeOrder p)
    (default [] victims) = Some extraVictims ->
  forall v nv, v ∈ extraVictims -> nv ∈ default [] victims ->
    allocationKey v <> allocationKey nv.
Proof.
  intros Htry Hextra.
  eapply calculateAdditionalVictims_unseen; [|exact Hextra].
  pose proof (tryNodes_from_allocationsByNode
                (fun v => is_Some (snapshotOfVictim (initWorkingState rangeOrder p)
                                     (duplicateQueueSnapshots rangeOrder 5 p).1
                                     (duplicateQueueSnapshots rangeOrder 5 p).2 v))
                (initWorkingState rangeOrder p) node victims) as Hknown.
  rewrite Forall_forall in Hknown. apply Hknown; [|exact Htry].
  intros k l Hl. apply Forall_forall. intros v Hv. by eapply initWorkingState_known.
Qed.

End NoVictimTwice.

Lemma calculateAdditionalVictims_fresh_witness :
  tryNodes inOrder None OverGuarantee.preemptor
    (initWorkingState inOrder OverGuarantee.preemptor)
  = Some ("N1"%string, Some [S2.V1])
  /\ calculateAdditionalVictims inOrder OverGuarantee.preemptor
       (initWorkingState inOrder OverGuarantee.preemptor) [S2.V1] = Some [S2.V2]
  /\ forall v nv, v ∈ [S2.V2] -> nv ∈ [S2.V1] -> allocationKey v <> allocationKey nv.
Proof.
  split; [vm_compute; reflexivity|]. split; [vm_compute; reflexivity|].
  apply (calculateAdditionalVictims_fresh inOrder None OverGuarantee.preemptor
           (fun _ _ _ => Permutation_refl _) "N1" (Some [S2.V1]) [S2.V2]);
    vm_compute; reflexivity.
Defined.

(** ** The walks work on copies *)

Lemma untouched_updateUsage (b : nat) (h0 h : Heap) f (fuel : nat) (l : loc) :
  untouched b h0 h -> (b <= l)%nat -> untouched b h0 (updateUsage f fuel h (Some l)).
Proof.
  intros [Hclosed Hsame] Hl. split.
  - intros l' q' p' Hl' Hq' Hp'.
    pose proof (updateUsage_usageOnly f fuel h (Some l)) as Huse.
    destruct (h !! l') as [q|] eqn:Hq.
    + destruct (proj2 Huse _ _ Hq) as (q'' & Hq'' & Hsb).
      assert (q'' = q') as -> by congruence.
      apply (Hclosed l' q p' Hl' Hq). rewrite Hsb in Hp'. exact Hp'.
    + rewrite (usageOnly_lookup_None _ _ _ Huse Hq) in Hq'. discriminate Hq'.
  - intros a Ha. rewrite <- (Hsame a Ha).
    apply (updateUsage_frame (fun x => (b <= x)%nat)).
    + intros x q p' Hx Hq Hp'. by eapply Hclosed.
    + by intros x [= <-].
    + lia.
Qed.

Lemma untouched_AddAllocation (b : nat) (h0 h : Heap) (l : loc) (r : Resource) :
  untouched b h0 h -> (b <= l)%nat -> untouched b h0 (AddAllocation h (Some l) r).
Proof.
  unfold AddAllocation. rewrite AddAllocation_rec_updateUsage. apply untouched_updateUsage.
Qed.

Lemma untouched_RemoveAllocation (b : nat) (h0 h : Heap) (l : loc) (r : Resource) :
  untouched b h0 h -> (b <= l)%nat -> untouched b h0 (RemoveAllocation h (Some l) r).
Proof.
  unfold RemoveAllocation. rewrite RemoveAllocation_rec_updateUsage.
  apply untouched_updateUsage.
Qed.

Lemma snapshotOfVictim_in_snap (ws : WorkingState) (h : Heap) (snap : gmap string loc)
  (victim : Allocation) (l : loc) :
  snapshotOfVictim ws h snap victim = Some l -> exists k, snap !! k = Some l.
Proof.
  unfold snapshotOfVictim.
  destruct (queueByAlloc ws !! allocationKey victim) as [qv|]; simpl; [|discriminate].
  destruct (h !! qv) as [q|]; simpl; [|discriminate]. eauto.
Qed.

Section Copies.

Variable b : nat.
Variable h0 : Heap.
Variable ws : WorkingState.
Variable snap : gmap string loc.

Hypothesis snap_new : forall k v, snap !! k = Some v -> (b <= v)%nat.

Ltac untouched_step :=
  repeat first [ assumption
               | apply untouched_AddAllocation
               | apply untouched_RemoveAllocation ].

Lemma firstPass_untouched (p : Preemptor) (askQueue : loc) :
  (b <= askQueue)%nat ->
  forall potentialVictims st,
    untouched b h0 (fpHeap st) ->
    untouched b h0 (fpHeap (firstPass p ws snap askQueue potentialVictims st)).
Proof.
  intros Hask. induction potentialVictims as [|victim rest IH]; intros st Hst; [exact Hst|].
  cbn [firstPass].
  destruct (snapshotOfVictim ws (fpHeap st) snap victim) as [queueSnapshot|] eqn:Hsnap;
    [|by apply IH].
  destruct (snapshotOfVictim_in_snap _ _ _ _ _ Hsnap) as [k Hk].
  pose proof (snap_new k queueSnapshot Hk) as Hnew.
  repeat (match goal with
          | |- context [if ?c then _ else _] => destruct c
          end);
    try apply IH; simpl; untouched_step.
Qed.

Lemma secondPass_untouched (p : Preemptor) :
  forall head st,
    untouched b h0 (spHeap st) ->
    untouched b h0 (spHeap (secondPass p ws snap head st)).
Proof.
  induction head as [|victim rest IH]; intros st Hst; [exact Hst|].
  cbn [secondPass].
  destruct (snapshotOfVictim ws (spHeap st) snap victim) as [queueSnapshot|] eqn:Hsnap;
    [|by apply IH].
  destruct (snapshotOfVictim_in_snap _ _ _ _ _ Hsnap) as [k Hk].
  pose proof (snap_new k queueSnapshot Hk) as Hnew.
  destruct (keepsQueueOverGuarantee _ _); apply IH; simpl; untouched_step.
Qed.

Lemma removeNodeVictims_untouched :
  forall nodeVictims h seen,
    untouched b h0 h ->
    untouched b h0 (removeNodeVictims ws snap nodeVictims h seen).1.
Proof.
  induction nodeVictims as [|victim rest IH]; intros h seen Hh; [exact Hh|].
  cbn [removeNodeVictims].
  destruct (snapshotOfVictim ws h snap victim) as [queueSnapshot|] eqn:Hsnap;
    [|by apply IH].
  destruct (snapshotOfVictim_in_snap _ _ _ _ _ Hsnap) as [k Hk].
  pose proof (snap_new k queueSnapshot Hk) as Hnew.
  apply IH. untouched_step.
Qed.

Lemma additionalVictims_untouched (askQueue : loc) :
  (b <= askQueue)%nat ->
  forall potentialVictims st,
    untouched b h0 (tuHeap st) ->
    untouched b h0 (tuHeap (additionalVictims ws snap askQueue potentialVictims st)).
Proof.
  intros Hask. induction potentialVictims as [|victim rest IH]; intros st Hst; [exact Hst|].
  cbn [additionalVictims].
  destruct (snapshotOfVictim ws (tuHeap st) snap victim) as [queueSnapshot|] eqn:Hsnap;
    [|by apply IH].
  destruct (snapshotOfVictim_in_snap _ _ _ _ _ Hsnap) as [k Hk].
  pose proof (snap_new k queueSnapshot Hk) as Hnew.
  repeat (match goal with
          | |- context [if ?c then _ else _] => destruct c
          end);
    try apply IH; simpl; untouched_step.
Qed.

End Copies.

Lemma duplicateQueueSnapshots_untouched
  (rangeOrder : nat -> forall A : Type, list (string * A) -> list (string * A))
  (site : nat) (p : Preemptor) :
  untouched (length (heap p)) (heap p) (duplicateQueueSnapshots rangeOrder site p).1
  /\ forall k v, (duplicateQueueSnapshots rangeOrder site p).2 !! k = Some v ->
       (length (heap p) <= v)%nat.
Proof.
  unfold duplicateQueueSnapshots.
  destruct (duplicateAll (heap p) ∅ _) as [h snap] eqn:Hdup. simpl.
  destruct (duplicateAll_spec (length (heap p)) _ _ _ _ _ Hdup) as (new & -> & Hnew & Hsnap);
    [lia|intros k v Hk; by rewrite lookup_empty in Hk|].
  split; [|exact Hsnap]. split.
  - intros l q p' Hl Hq Hp'. rewrite lookup_app_r in Hq by exact Hl.
    apply list_elem_of_lookup_2 in Hq. rewrite Forall_forall in Hnew.
    exact (proj1 (Hnew q Hq) p' Hp').
  - intros a Ha. by rewrite lookup_app_l.
Qed.

(** X21. The victim walks work on copies. Started on the working copy
    duplicateQueueSnapshots has just made, the two passes of
    calculateVictimsByNode and the two loops of calculateAdditionalVictims
    leave every snapshot the preemptor was given exactly as it was, whatever
    the victims they are given: all they add and remove is booked on the
    duplicates. *)
Theorem victim_walks_leave_snapshots
  (rangeOrder : nat -> forall A : Type, list (string * A) -> list (string * A))
  (site : nat) (p : Preemptor) (ws : WorkingState) (askQueue : loc)
  (victims others : list Allocation) (a : loc) (q : QueuePreemptionSnapshot) :
  (duplicateQueueSnapshots rangeOrder site p).2 !! queuePath p = Some askQueue ->
  heap p !! a = Some q ->
  let h := (duplicateQueueSnapshots rangeOrder site p).1 in
  let snap := (duplicateQueueSnapshots rangeOrder site p).2 in
  (forall available head tail,
     fpHeap (firstPass p ws snap askQueue victims
               {| fpHeap := h; fpAvailable := available; fpHead := head; fpTail := tail |})
     !! a = Some q)
  /\ (forall available results index,
        spHeap (secondPass p ws snap victims
                  {| spHeap := h; spAvailable := available; spResults := results;
                     spIndex := index |})
        !! a = Some q)
  /\ (removeNodeVictims ws snap victims h ∅).1 !! a = Some q
  /\ tuHeap (additionalVictims ws snap askQueue others
               {| tuHeap := (removeNodeVictims ws snap victims h ∅).1; tuVictims := [] |})
     !! a = Some q.
Proof.
  intros Hask Hq h snap.
  destruct (duplicateQueueSnapshots_untouched rangeOrder site p) as [Hstart Hnew].
  fold h in Hstart. fold snap in Hnew, Hask.
  pose proof (Hnew _ _ Hask) as HaskNew.
  assert (Ha : (a < length (heap p))%nat) by (by eapply lookup_lt_Some).
  assert (Hread : forall h', untouched (length (heap p)) (heap p) h' -> h' !! a = Some q).
  { intros h' [_ Hsame]. by rewrite (Hsame a Ha). }
  split; [|split; [|split]].
  - intros available head tail. apply Hread.
    by apply (firstPass_untouched _ (heap p) ws snap Hnew p askQueue HaskNew).
  - intros available results index. apply Hread.
    by apply (secondPass_untouched _ (heap p) ws snap Hnew p).
  - apply Hread. by apply (removeNodeVictims_untouched _ (heap p) ws snap Hnew).
  - apply Hread.
    apply (additionalVictims_untouched _ (heap p) ws snap Hnew askQueue HaskNew). simpl.
    by apply (removeNodeVictims_untouched _ (heap p) ws snap Hnew).
Qed.

Lemma victim_walks_leave_snapshots_witness :
  (duplicateQueueSnapshots inOrder 5 OverGuarantee.preemptor).2 !! "root.A"%string
  = Some 4%nat
  /\ (removeNodeVictims (initWorkingState inOrder OverGuarantee.preemptor)
        (duplicateQueueSnapshots inOrder 5 OverGuarantee.preemptor).2 [S2.V1]
        (duplicateQueueSnapshots inOrder 5 OverGuarantee.preemptor).1 ∅).1 !! 2%nat
     = Some (queueOf (Some 0%nat) "root.B" true (vcore 10) (Some (vcore 1)) [S2.V1; S2.V2]
               (Some 1%nat))
  /\ (AllocatedResource
        <$> (removeNodeVictims (initWorkingState inOrder OverGuarantee.preemptor)
               (duplicateQueueSnapshots inOrder 5 OverGuarantee.preemptor).2 [S2.V1]
               (duplicateQueueSnapshots inOrder 5 OverGuarantee.preemptor).1 ∅).1 !! 5%nat)
     = Some (Some (vcore 7)).
Proof.
  split; [vm_compute; reflexivity|]. split; [|vm_compute; reflexivity].
  apply (victim_walks_leave_snapshots inOrder 5 OverGuarantee.preemptor
           (initWorkingState inOrder OverGuarantee.preemptor) 4%nat [S2.V1] [] 2%nat
           (queueOf (Some 0%nat) "root.B" true (vcore 10) (Some (vcore 1)) [S2.V1; S2.V2]
              (Some 1%nat)));
    vm_compute; reflexivity.
Defined.

(** ** The victims of a node are drawn from its potential victims *)

Lemma firstPass_submseteq (p : Preemptor) (ws : WorkingState) (snap : gmap string loc)
  (askQueue : loc) :
  forall potentialVictims st,
    fpHead (firstPass p ws snap askQueue potentialVictims st)
    ++ fpTail (firstPass p ws snap askQueue potentialVictims st)
    ⊆+ (fpHead st ++ fpTail st) ++ potentialVictims.
Proof.
  induction potentialVictims as [|victim rest IH]; intros st.
  { simpl. by rewrite app_nil_r. }
  assert (Hskip : forall st',
             fpHead st' = fpHead st -> fpTail st' = fpTail st ->
             fpHead (firstPass p ws snap askQueue rest st')
             ++ fpTail (firstPass p ws snap askQueue rest st')
             ⊆+ (fpHead st ++ fpTail st) ++ victim :: rest).
  { intros st' Hh Ht. etrans; [apply IH|]. rewrite Hh, Ht.
    apply submseteq_app; [reflexivity|]. by apply submseteq_cons. }
  cbn [firstPass].
  destruct (snapshotOfVictim ws (fpHeap st) snap victim); [|by apply Hskip].
  repeat (match goal with
          | |- context [if ?c then _ else _] => destruct c
          end);
    try (apply Hskip; reflexivity).
  - simpl. apply submseteq_inserts_r. reflexivity.
  - etrans; [apply IH|]. simpl. apply Permutation_submseteq.
    rewrite <- !app_assoc. do 2 f_equiv. simpl. reflexivity.
  - etrans; [apply IH|]. simpl. apply Permutation_submseteq.
    rewrite <- !app_assoc. f_equiv. simpl. by rewrite Permutation_middle.
Qed.

Lemma secondPass_sublist (p : Preemptor) (ws : WorkingState) (snap : gmap string loc) :
  forall head st,
    spResults (secondPass p ws snap head st) `sublist_of` spResults st ++ head.
Proof.
  induction head as [|victim rest IH]; intros st.
  { simpl. by rewrite app_nil_r. }
  assert (Hskip : forall st',
             spResults st' = spResults st ->
             spResults (secondPass p ws snap rest st')
             `sublist_of` spResults st ++ victim :: rest).
  { intros st' Hr. etrans; [apply IH|]. rewrite Hr.
    apply sublist_app; [reflexivity|]. by apply sublist_cons. }
  cbn [secondPass].
  destruct (snapshotOfVictim ws (spHeap st) snap victim); [|by apply Hskip].
  destruct (keepsQueueOverGuarantee _ _); [|by apply Hskip].
  etrans; [apply IH|]. simpl. by rewrite <- app_assoc.
Qed.

(** X22. calculateVictimsByNode draws its victims from the potential
    victims it is given, each at most once. It answers with index -1 and an
    empty, non-nil list exactly when the ask already fits on the node; every
    other non-nil answer carries a non-negative index, and a nil answer
    always comes with index -1. *)
Theorem calculateVictimsByNode_answers
  (rangeOrder : nat -> forall A : Type, list (string * A) -> list (string * A))
  (p : Preemptor) (ws : WorkingState) (nodeAvailable : Resource)
  (potentialVictims : list Allocation) :
  match calculateVictimsByNode rangeOrder p ws nodeAvailable potentialVictims with
  | (idx, None) =>
      idx = -1 /\ FitIn (Some nodeAvailable) (allocatedResource (ask p)) = false
  | (idx, Some victims) =>
      victims ⊆+ potentialVictims
      /\ if FitIn (Some nodeAvailable) (allocatedResource (ask p))
         then idx = -1 /\ victims = []
         else 0 <= idx
  end.
Proof.
  unfold calculateVictimsByNode.
  destruct (FitIn (Some nodeAvailable) (allocatedResource (ask p))) eqn:Hfit.
  { split; [apply submseteq_nil_l|by split]. }
  destruct (duplicateQueueSnapshots rangeOrder 3 p) as [h1 snap1].
  destruct (snap1 !! queuePath p) as [askQueue|]; [|by split].
  destruct (bool_decide _); [by split|].
  destruct (duplicateQueueSnapshots rangeOrder 4 p) as [h2 snap2].
  destruct (snap2 !! queuePath p) as [askQueue2|]; [|by split].
  destruct (_ <? 0) eqn:Hneg; [by split|].
  apply Z.ltb_ge in Hneg. split; [|exact Hneg].
  etrans; [apply sublist_submseteq, secondPass_sublist|]. simpl.
  etrans; [apply firstPass_submseteq|]. simpl. reflexivity.
Qed.

(** ** The feasibility check *)

Lemma usageOnly_lookup_Some (h h' : Heap) (a : loc) (q' : QueuePreemptionSnapshot) :
  usageOnly h h' -> h' !! a = Some q' ->
  exists q, h !! a = Some q /\ sameButAllocated q q'.
Proof.
  intros Huse Hq'. destruct (h !! a) as [q|] eqn:Hq.
  - destruct (proj2 Huse _ _ Hq) as (q'' & Hq'' & Hsame).
    exists q. split; [reflexivity|]. congruence.
  - rewrite (usageOnly_lookup_None _ _ _ Huse Hq) in Hq'. discriminate Hq'.
Qed.

Lemma usageOnly_PotentialVictims (h h' : Heap) (a : loc) :
  usageOnly h h' ->
  default [] (PotentialVictims <$> h' !! a) = default [] (PotentialVictims <$> h !! a).
Proof.
  intros Huse. destruct (h !! a) as [q|] eqn:Hq.
  - destruct (proj2 Huse _ _ Hq) as (q' & -> & ->). reflexivity.
  - by rewrite (usageOnly_lookup_None _ _ _ Huse Hq).
Qed.

Lemma mutate_app (h : Heap) (ops1 ops2 : list Mutation) :
  mutate h (ops1 ++ ops2) = mutate (mutate h ops1) ops2.
Proof. unfold mutate. apply fold_left_app. Qed.

Lemma mutate_usageOnly (ops : list Mutation) : forall h : Heap, usageOnly h (mutate h ops).
Proof.
  unfold mutate. induction ops as [|op ops IH]; intros h; [apply usageOnly_refl|].
  cbn [fold_left]. eapply usageOnly_trans; [|apply IH].
  destruct op; [apply AddAllocation_usageOnly|apply RemoveAllocation_usageOnly].
Qed.

(** The test of the loop is [withinGuarantee]. *)
Lemma withinGuarantee_test (h : Heap) (currentQueue : loc) :
  bool_decide (is_Some (GetRemainingGuaranteedResource h (Some currentQueue)))
  && StrictlyGreaterThanOrEquals (GetRemainingGuaranteedResource h (Some currentQueue)) Zero
  = true
  <-> withinGuarantee h currentQueue.
Proof.
  unfold withinGuarantee. rewrite andb_true_iff, bool_decide_eq_true. split.
  - intros [[r Hr] Hge]. exists r. split; [exact Hr|]. by rewrite <- Hr.
  - intros (r & Hr & Hge). rewrite Hr. eauto.
Qed.

(** The loop over the victims of one queue answers true exactly when some
    non-empty prefix of its removals brings the queue within its guarantee;
    when it answers false it has made all of them. *)
Lemma removeUntilGuaranteed_walk (currentQueue snapshot : loc) :
  forall victims h,
    ((removeUntilGuaranteed h currentQueue snapshot victims).2 = true
     <-> exists n, (0 < n <= length victims)%nat
                   /\ withinGuarantee
                        (mutate h (take n (removalsFrom snapshot victims))) currentQueue)
    /\ ((removeUntilGuaranteed h currentQueue snapshot victims).2 = false ->
        (removeUntilGuaranteed h currentQueue snapshot victims).1
        = mutate h (removalsFrom snapshot victims)).
Proof.
  induction victims as [|alloc rest IH]; intros h.
  { simpl. split; [|done]. split; [discriminate|]. intros (n & Hn & _). lia. }
  cbn [removeUntilGuaranteed].
  set (h1 := RemoveAllocation h (Some snapshot) (allocatedResource alloc)).
  pose proof (withinGuarantee_test h1 currentQueue) as Htest.
  destruct (bool_decide (is_Some _) && _) eqn:Hnow.
  - split; [|discriminate]. split; [intros _|done].
    exists 1%nat. split; [simpl; lia|]. simpl. by apply Htest.
  - destruct (IH h1) as [Hiff Hall]. split; [|exact Hall].
    rewrite Hiff. split.
    + intros (n & Hn & Hwithin). exists (S n). split; [simpl; lia|exact Hwithin].
    + intros (n & Hn & Hwithin). destruct n as [|n]; [lia|].
      destruct n as [|n].
      * simpl in Hwithin. apply Htest in Hwithin. discriminate Hwithin.
      * exists (S n). split; [simpl in Hn; lia|exact Hwithin].
Qed.

Lemma removeFromQueues_walk (h0 : Heap) (currentQueue : loc) :
  forall queues h,
    usageOnly h0 h ->
    removeFromQueues h currentQueue queues = true
    <-> exists n, (0 < n <= length (walkOrder h0 queues))%nat
                  /\ withinGuarantee (mutate h (take n (walkOrder h0 queues))) currentQueue.
Proof.
  induction queues as [|entry rest IH]; intros h Huse.
  { simpl. split; [discriminate|]. intros (n & Hn & _). simpl in Hn. lia. }
  cbn [removeFromQueues]. unfold walkOrder. cbn [mbind list_bind]. fold (walkOrder h0 rest).
  rewrite (usageOnly_PotentialVictims h0 h entry.2 Huse).
  set (victims := default [] (PotentialVictims <$> h0 !! entry.2)).
  destruct (removeUntilGuaranteed_walk currentQueue entry.2 victims h) as [Hiff Hall].
  assert (Hlen : length (removalsFrom entry.2 victims) = length victims)
    by (unfold removalsFrom; apply length_fmap).
  destruct (removeUntilGuaranteed h currentQueue entry.2 victims) as [h1 ok]. simpl in *.
  destruct ok.
  - split; [intros _|done]. destruct (proj1 Hiff eq_refl) as (n & Hn & Hwithin).
    exists n. split; [rewrite length_app; lia|].
    rewrite take_app_le by lia. exact Hwithin.
  - specialize (Hall eq_refl). subst h1.
    rewrite (IH (mutate h (removalsFrom entry.2 victims))).
    2: { eapply usageOnly_trans; [exact Huse|apply mutate_usageOnly]. }
    split.
    + intros (n & Hn & Hwithin). exists (length victims + n)%nat.
      split; [rewrite length_app; lia|].
      rewrite take_app_ge by lia. rewrite Hlen.
      replace (length victims + n - length victims)%nat with n by lia.
      by rewrite mutate_app.
    + intros (n & Hn & Hwithin). rewrite length_app in Hn.
      destruct (decide (n <= length victims)%nat) as [Hle|Hgt].
      * rewrite take_app_le in Hwithin by lia.
        assert (Hfalse : false = true) by (apply Hiff; exists n; split; [lia|exact Hwithin]).
        discriminate Hfalse.
      * exists (n - length victims)%nat. split; [lia|].
        rewrite take_app_ge, mutate_app in Hwithin by lia.
        by rewrite Hlen in Hwithin.
Qed.

(** X23. checkPreemptionQueueGuarantees answers true exactly when the path
    of the ask has a working copy and, once the ask is added to it, the walk
    over the queues brings that copy within its guarantee: after some first
    removals of the walk, at least one, the ask queue has a remaining
    guarantee that is negative on no component. The walk goes queue by queue
    in the order of the range, takes the potential victims of each queue in
    the order of its list, each one once, and takes each off the copy of the
    queue that lists it. *)
Theorem checkPreemptionQueueGuarantees_walk
  (rangeOrder : nat -> forall A : Type, list (string * A) -> list (string * A))
  (p : Preemptor) :
  checkPreemptionQueueGuarantees rangeOrder p = true
  <-> exists currentQueue n,
        (duplicateQueueSnapshots rangeOrder 1 p).2 !! queuePath p = Some currentQueue
        /\ (0 < n <= length (walkOrder (duplicateQueueSnapshots rangeOrder 1 p).1
                               (range rangeOrder 2
                                  (duplicateQueueSnapshots rangeOrder 1 p).2)))%nat
        /\ withinGuarantee
             (mutate (duplicateQueueSnapshots rangeOrder 1 p).1
                     (Added currentQueue (allocatedResource (ask p))
                        :: take n (walkOrder (duplicateQueueSnapshots rangeOrder 1 p).1
                                     (range rangeOrder 2
                                        (duplicateQueueSnapshots rangeOrder 1 p).2))))
             currentQueue.
Proof.
  unfold checkPreemptionQueueGuarantees.
  destruct (duplicateQueueSnapshots rangeOrder 1 p) as [h queues]. simpl.
  destruct (queues !! queuePath p) as [currentQueue|].
  2: { split; [discriminate|]. by intros (cq & n & [=] & _). }
  rewrite (removeFromQueues_walk h currentQueue _ _
             (AddAllocation_usageOnly h (Some currentQueue) (allocatedResource (ask p)))).
  split.
  - intros (n & Hn & Hwithin). exists currentQueue, n.
    split; [reflexivity|]. split; [exact Hn|exact Hwithin].
  - intros (cq & n & [= <-] & Hn & Hwithin). exists n. split; [exact Hn|exact Hwithin].
Qed.

Lemma checkPreemptionQueueGuarantees_walk_witness :
  checkPreemptionQueueGuarantees inOrder (S2.preemptor false) = true
  /\ exists currentQueue n,
       (duplicateQueueSnapshots inOrder 1 (S2.preemptor false)).2
         !! queuePath (S2.preemptor false) = Some currentQueue
       /\ (0 < n <= length (walkOrder (duplicateQueueSnapshots inOrder 1 (S2.preemptor false)).1
                              (range inOrder 2
                                 (duplicateQueueSnapshots inOrder 1
                                    (S2.preemptor false)).2)))%nat
       /\ withinGuarantee
            (mutate (duplicateQueueSnapshots inOrder 1 (S2.preemptor false)).1
                    (Added currentQueue (allocatedResource (ask (S2.preemptor false)))
                       :: take n (walkOrder
                                    (duplicateQueueSnapshots inOrder 1 (S2.preemptor false)).1
                                    (range inOrder 2
                                       (duplicateQueueSnapshots inOrder 1
                                          (S2.preemptor false)).2))))
            currentQueue.
Proof.
  split; [vm_compute; reflexivity|].
  apply (proj1 (checkPreemptionQueueGuarantees_walk inOrder (S2.preemptor false))).
  vm_compute. reflexivity.
Defined.

(** ** The gate, in full *)

(** X24. CheckPreconditions accepts exactly the asks that may preempt
    others, have not yet triggered preemption, require no node, were created
    at least the preemption delay ago and were last checked at least
    preemptAttemptFrequency ago, both delays counting as passed at the very
    instant they end; an accepted ask has its check time set and nothing else
    changed, and a refused ask leaves the preemptor as it was. *)
Theorem CheckPreconditions_accepts (p : Preemptor) (now later : Z) :
  (fst (CheckPreconditions p now later) = true
   <-> allowPreemptOther (ask p) = true
       /\ hasTriggeredPreemption (ask p) = false
       /\ requiredNode (ask p) = ""%string
       /\ createTime (ask p) + preemptionDelay p <= now
       /\ preemptCheckTime (ask p) + preemptAttemptFrequency <= now)
  /\ (fst (CheckPreconditions p now later) = true ->
      snd (CheckPreconditions p now later)
      = withAsk p (UpdatePreemptCheckTime (ask p) later))
  /\ (fst (CheckPreconditions p now later) = false ->
      snd (CheckPreconditions p now later) = p).
Proof.
  unfold CheckPreconditions.
  destruct (allowPreemptOther (ask p)); simpl;
    [|split; [split; [discriminate|intros [? _]; discriminate]|split; [discriminate|done]]].
  destruct (hasTriggeredPreemption (ask p)); simpl;
    [split; [split; [discriminate|intros (_ & ? & _); discriminate]
            |split; [discriminate|done]]|].
  destruct (String.eqb (requiredNode (ask p)) "") eqn:Hnode; simpl.
  2: { apply String.eqb_neq in Hnode.
       split; [split; [discriminate|intros (_ & _ & ? & _); contradiction]
              |split; [discriminate|done]]. }
  apply String.eqb_eq in Hnode.
  destruct (now <? createTime (ask p) + preemptionDelay p) eqn:Hdelay; simpl.
  { apply Z.ltb_lt in Hdelay.
    split; [split; [discriminate|intros (_ & _ & _ & ? & _); lia]
           |split; [discriminate|done]]. }
  apply Z.ltb_ge in Hdelay.
  destruct (now <? preemptCheckTime (ask p) + preemptAttemptFrequency) eqn:Hfreq; simpl.
  { apply Z.ltb_lt in Hfreq.
    split; [split; [discriminate|intros (_ & _ & _ & _ & ?); lia]
           |split; [discriminate|done]]. }
  apply Z.ltb_ge in Hfreq.
  split; [split; [intros _; repeat split; assumption|reflexivity]|].
  split; [reflexivity|discriminate].
Qed.

(** ** Nothing to preempt *)

(** X25. When no snapshot lists a potential victim, the feasibility check
    has nothing to remove: checkPreemptionQueueGuarantees answers false and
    TryPreemption returns (nil, false), even for an ask that would fit on a
    node as it is. *)
Theorem TryPreemption_no_victims
  (rangeOrder : nat -> forall A : Type, list (string * A) -> list (string * A))
  (rmCallback :
     option (list si.PreemptionPredicatesArgs -> option check.predicateCheckResult))
  (FindQueueByAppID : string -> option string) (p : Preemptor) (w : World) :
  (forall q, q ∈ heap p -> PotentialVictims q = []) ->
  checkPreemptionQueueGuarantees rangeOrder p = false
  /\ TryPreemption rangeOrder rmCallback FindQueueByAppID p w = failed p w.
Proof.
  intros Hnone.
  pose proof (checkPreemptionQueueGuarantees_no_victims rangeOrder p Hnone) as Hcheck.
  split; [exact Hcheck|]. unfold TryPreemption. by rewrite Hcheck.
Qed.

Lemma TryPreemption_no_victims_witness :
  (forall q, q ∈ heap S1.preemptor -> PotentialVictims q = [])
  /\ FitIn (nodeAvailableMap (initWorkingState inOrder S1.preemptor) !! "N1"%string)
       (allocatedResource (ask S1.preemptor)) = true
  /\ TryPreemption inOrder None queueOfApp S1.preemptor emptyWorld
     = failed S1.preemptor emptyWorld.
Proof.
  assert (Hnone : forall q, q ∈ heap S1.preemptor -> PotentialVictims q = []).
  { intros q Hq. unfold S1.preemptor, S1.snapshots in Hq. simpl in Hq.
    repeat (apply elem_of_cons in Hq as [->|Hq]; [reflexivity|]).
    by apply elem_of_nil in Hq. }
  split; [exact Hnone|]. split; [vm_compute; reflexivity|].
  apply (TryPreemption_no_victims inOrder None queueOfApp S1.preemptor emptyWorld Hnone).
Defined.
